(** * SQANTI3 structural classification: a shallow embedding of
      [sqanti3_qc.py] and the properties of its classification core.

    Python integers are unbounded, so coordinates are [Z].  Names of
    chromosomes, genes and transcripts are [string]s; dictionaries are
    [gmap]s, Python sets are [gset]s, and a raised exception is [None] in
    the [option] monad. *)

From Stdlib Require Import ZArith QArith Lia Ascii.
From stdpp Require Import gmap strings list sorting.

Local Open Scope Z_scope.

(** ** Values that may be the string ["NA"] *)

Inductive na_int : Type :=
  | NA
  | Int (z : Z).

#[global] Instance na_int_eq_dec : EqDecision na_int.
Proof. solve_decision. Defined.

(** An arithmetic use of ["NA"] raises [TypeError]. *)
Definition as_int (v : na_int) : option Z :=
  match v with
  | NA => None
  | Int z => Some z
  end.

(** ** bx-python intervals

    [Interval] and [IntervalTree] come from [bx.intervals.intersection].
    The tree is a search tree on the start coordinate; [find] walks it in
    order, so it enumerates its entries by ascending start, entries with
    equal starts in the order of their insertion.  The tree is represented
    by that sequence.  [find s e] reports every entry [(s', e', v)] with
    [s' < e] and [e' > s]. *)

Record Interval : Type := mkInterval { i_start : Z; i_end : Z }.

#[global] Instance Interval_eq_dec : EqDecision Interval.
Proof. solve_decision. Defined.

Definition IntervalTree (A : Type) : Type := list (Z * Z * A).

Fixpoint tree_insert {A} (s e : Z) (v : A) (t : IntervalTree A) : IntervalTree A :=
  match t with
  | [] => [(s, e, v)]
  | x :: t' =>
      if bool_decide (x.1.1 ≤ s) then x :: tree_insert s e v t'
      else (s, e, v) :: x :: t'
  end.

Definition tree_find {A} (t : IntervalTree A) (s e : Z) : list A :=
  snd <$> filter (λ x, x.1.1 < e ∧ s < x.1.2) t.

(** ** [genePredRecord] *)

Module GP.
Record t : Type := mk {
  id : string;
  chrom : string;
  strand : string;
  txStart : Z;
  txEnd : Z;
  cdsStart : Z;
  cdsEnd : Z;
  exonCount : Z;
  exonStarts : list Z;
  exonEnds : list Z;
  gene : string;
  length : Z;
  exons : list Interval;
  junctions : list (Z * Z)
}.
End GP.

Abbreviation genePredRecord := GP.t.

(** The fields of one genePred line, as [from_line] hands them to the
    constructor. *)
Record genePredLine : Type := mkLine {
  l_id : string;
  l_chrom : string;
  l_strand : string;
  l_txStart : Z;
  l_txEnd : Z;
  l_cdsStart : Z;
  l_cdsEnd : Z;
  l_exonCount : Z;
  l_exonStarts : list Z;
  l_exonEnds : list Z;
  l_gene : string
}.

Definition sumZ (l : list Z) : Z := foldr Z.add 0 l.

(** [(self.exonEnds[i], self.exonStarts[i + 1])]; an index past the end of
    either list raises [IndexError]. *)
Definition junction_at (exonStarts exonEnds : list Z) (i : nat) : option (Z * Z) :=
  d ← exonEnds !! i; a ← exonStarts !! S i; Some (d, a).

Fixpoint junctions_upto (exonStarts exonEnds : list Z) (idxs : list nat)
    : option (list (Z * Z)) :=
  match idxs with
  | [] => Some []
  | i :: idxs' =>
      j ← junction_at exonStarts exonEnds i;
      js ← junctions_upto exonStarts exonEnds idxs';
      Some (j :: js)
  end.

(** [genePredRecord.__init__]: [length] and [exons] run over
    [zip(exonStarts, exonEnds)], [junctions] over [range(exonCount - 1)]. *)
Definition genePredRecord_init (l : genePredLine) : option genePredRecord :=
  js ← junctions_upto (l_exonStarts l) (l_exonEnds l)
         (seq 0 (Z.to_nat (l_exonCount l - 1)));
  Some (GP.mk (l_id l) (l_chrom l) (l_strand l) (l_txStart l) (l_txEnd l)
          (l_cdsStart l) (l_cdsEnd l) (l_exonCount l)
          (l_exonStarts l) (l_exonEnds l) (l_gene l)
          (sumZ (zip_with (λ s e, e - s) (l_exonStarts l) (l_exonEnds l)))
          (zip_with mkInterval (l_exonStarts l) (l_exonEnds l))
          js).

(** [genePredReader]: one record per line; the first constructor that
    raises aborts the whole iteration. *)
Fixpoint genePredReader (lines : list genePredLine) : option (list genePredRecord) :=
  match lines with
  | [] => Some []
  | l :: ls =>
      r ← genePredRecord_init l;
      rs ← genePredReader ls;
      Some (r :: rs)
  end.

(** ** The reference index built by [reference_parser] *)

(** [junctions_by_chr[chrom]] while the records are read: three sets. *)
Record chr_sets : Type := mkChrSets {
  s_donors : gset Z;
  s_acceptors : gset Z;
  s_da_pairs : gset (Z * Z)
}.

(** [junctions_by_chr[chrom]] as returned: three sorted lists. *)
Record chr_junctions : Type := mkChrJunctions {
  donors : list Z;
  acceptors : list Z;
  da_pairs : list (Z * Z)
}.

(** [known_5_3_by_gene[gene]]. *)
Record gene_bounds : Type := mkBounds {
  b_begin : gset Z;
  b_end : gset Z
}.

Record ref_build : Type := mkBuild {
  bd_1exon : gmap string (IntervalTree genePredRecord);
  bd_exons : gmap string (IntervalTree genePredRecord);
  bd_junc_chr : gmap string chr_sets;
  bd_junc_gene : gmap string (gset (Z * Z));
  bd_bounds : gmap string gene_bounds
}.

Record ref_index : Type := mkIndex {
  refs_1exon_by_chr : gmap string (IntervalTree genePredRecord);
  refs_exons_by_chr : gmap string (IntervalTree genePredRecord);
  junctions_by_chr : gmap string chr_junctions;
  junctions_by_gene : gmap string (gset (Z * Z));
  known_5_3_by_gene : gmap string gene_bounds
}.

(** [d[k] = f(d[k])] on a [defaultdict] whose factory yields [dflt]. *)
Definition dd_update {V} (dflt : V) (f : V → V) (k : string)
    (m : gmap string V) : gmap string V :=
  <[k := f (default dflt (m !! k))]> m.

Definition empty_chr_sets : chr_sets := mkChrSets ∅ ∅ ∅.
Definition empty_bounds : gene_bounds := mkBounds ∅ ∅.

Definition add_junction (chrom gene : string) (b : ref_build) (j : Z * Z) : ref_build :=
  mkBuild (bd_1exon b) (bd_exons b)
    (dd_update empty_chr_sets
       (λ c, mkChrSets ({[j.1]} ∪ s_donors c) ({[j.2]} ∪ s_acceptors c)
                       ({[j]} ∪ s_da_pairs c))
       chrom (bd_junc_chr b))
    (dd_update ∅ (λ s, {[j]} ∪ s) gene (bd_junc_gene b))
    (bd_bounds b).

Definition add_bounds (r : genePredRecord) (m : gmap string gene_bounds)
    : gmap string gene_bounds :=
  dd_update empty_bounds
    (λ g, mkBounds ({[GP.txStart r]} ∪ b_begin g) ({[GP.txEnd r]} ∪ b_end g))
    (GP.gene r) m.

(** The body of the loop [for r in genePredReader(referenceFiles)]. *)
Definition index_record (min_ref_len : Z) (is_fusion : bool)
    (b : ref_build) (r : genePredRecord) : ref_build :=
  if bool_decide (GP.length r < min_ref_len) && negb is_fusion then b
  else if bool_decide (GP.exonCount r = 1) then
    mkBuild
      (dd_update [] (tree_insert (GP.txStart r) (GP.txEnd r) r) (GP.chrom r) (bd_1exon b))
      (bd_exons b) (bd_junc_chr b) (bd_junc_gene b)
      (add_bounds r (bd_bounds b))
  else
    let b1 :=
      mkBuild (bd_1exon b)
        (dd_update [] (tree_insert (GP.txStart r) (GP.txEnd r) r) (GP.chrom r) (bd_exons b))
        (bd_junc_chr b) (bd_junc_gene b) (bd_bounds b) in
    let b2 := foldl (add_junction (GP.chrom r) (GP.gene r)) b1 (GP.junctions r) in
    mkBuild (bd_1exon b2) (bd_exons b2) (bd_junc_chr b2) (bd_junc_gene b2)
      (add_bounds r (bd_bounds b2)).

Definition empty_build : ref_build := mkBuild ∅ ∅ ∅ ∅ ∅.

(** Python's order on pairs of integers. *)
Definition pair_le (p q : Z * Z) : Prop :=
  p.1 < q.1 ∨ (p.1 = q.1 ∧ p.2 ≤ q.2).

#[global] Instance pair_le_dec p q : Decision (pair_le p q).
Proof. unfold pair_le. apply _. Defined.

(** [list(s); .sort()] for each of the three sets of a chromosome. *)
Definition sort_chr_sets (c : chr_sets) : chr_junctions :=
  mkChrJunctions
    (merge_sort Z.le (elements (s_donors c)))
    (merge_sort Z.le (elements (s_acceptors c)))
    (merge_sort pair_le (elements (s_da_pairs c))).

Definition finish_build (b : ref_build) : ref_index :=
  mkIndex (bd_1exon b) (bd_exons b) (sort_chr_sets <$> bd_junc_chr b)
    (bd_junc_gene b) (bd_bounds b).

Definition index_records (min_ref_len : Z) (is_fusion : bool)
    (recs : list genePredRecord) : ref_index :=
  finish_build (foldl (index_record min_ref_len is_fusion) empty_build recs).

Definition reference_parser (min_ref_len : Z) (is_fusion : bool)
    (lines : list genePredLine) : option ref_index :=
  recs ← genePredReader lines;
  Some (index_records min_ref_len is_fusion recs).

(** ** [myQueryTranscripts] *)

(** The values of [str_class]; [no_class] is the empty string. *)
Inductive category : Type :=
  | no_class
  | full_splice_match
  | incomplete_splice_match
  | anyKnownJunction
  | anyKnownSpliceSite
  | geneOverlap
  | novel_in_catalog
  | novel_not_in_catalog
  | moreJunctions
  | fusion
  | intergenic
  | genic_intron
  | antisense
  | genic.

#[global] Instance category_eq_dec : EqDecision category.
Proof. solve_decision. Defined.

(** [tss_gene_diff] and [tts_gene_diff]: ["NA"], an integer, or the float
    [-inf] that the minus-strand branch of [get_gene_diff_tss_tts] can
    store. *)
Inductive gene_diff : Type :=
  | GNA
  | GInt (z : Z)
  | GNegInf.

Module QT.
Record t : Type := mk {
  id : string;
  tss_diff : na_int;
  tts_diff : na_int;
  tss_gene_diff : gene_diff;
  tts_gene_diff : gene_diff;
  genes : list string;
  AS_genes : gset string;
  transcripts : list string;
  num_exons : Z;
  length : Z;
  str_class : category;
  chrom : string;
  strand : string;
  subtype : string;
  refLen : na_int;
  refExons : na_int;
  refStart : na_int;
  refEnd : na_int;
  q_splicesite_hit : Z;
  q_exon_overlap : Z;
  percAdownTTS : string;
  seqAdownTTS : string
}.

Definition set_genes (g : list string) (h : t) : t :=
  mk (id h) (tss_diff h) (tts_diff h) (tss_gene_diff h) (tts_gene_diff h)
     g (AS_genes h) (transcripts h) (num_exons h) (length h) (str_class h)
     (chrom h) (strand h) (subtype h) (refLen h) (refExons h) (refStart h)
     (refEnd h) (q_splicesite_hit h) (q_exon_overlap h) (percAdownTTS h)
     (seqAdownTTS h).

Definition set_AS_genes (a : gset string) (h : t) : t :=
  mk (id h) (tss_diff h) (tts_diff h) (tss_gene_diff h) (tts_gene_diff h)
     (genes h) a (transcripts h) (num_exons h) (length h) (str_class h)
     (chrom h) (strand h) (subtype h) (refLen h) (refExons h) (refStart h)
     (refEnd h) (q_splicesite_hit h) (q_exon_overlap h) (percAdownTTS h)
     (seqAdownTTS h).

Definition set_transcripts (ts : list string) (h : t) : t :=
  mk (id h) (tss_diff h) (tts_diff h) (tss_gene_diff h) (tts_gene_diff h)
     (genes h) (AS_genes h) ts (num_exons h) (length h) (str_class h)
     (chrom h) (strand h) (subtype h) (refLen h) (refExons h) (refStart h)
     (refEnd h) (q_splicesite_hit h) (q_exon_overlap h) (percAdownTTS h)
     (seqAdownTTS h).

Definition set_str_class (c : category) (h : t) : t :=
  mk (id h) (tss_diff h) (tts_diff h) (tss_gene_diff h) (tts_gene_diff h)
     (genes h) (AS_genes h) (transcripts h) (num_exons h) (length h) c
     (chrom h) (strand h) (subtype h) (refLen h) (refExons h) (refStart h)
     (refEnd h) (q_splicesite_hit h) (q_exon_overlap h) (percAdownTTS h)
     (seqAdownTTS h).

Definition set_subtype (s : string) (h : t) : t :=
  mk (id h) (tss_diff h) (tts_diff h) (tss_gene_diff h) (tts_gene_diff h)
     (genes h) (AS_genes h) (transcripts h) (num_exons h) (length h)
     (str_class h) (chrom h) (strand h) s (refLen h) (refExons h)
     (refStart h) (refEnd h) (q_splicesite_hit h) (q_exon_overlap h)
     (percAdownTTS h) (seqAdownTTS h).

Definition set_gene_diffs (tss tts : gene_diff) (h : t) : t :=
  mk (id h) (tss_diff h) (tts_diff h) tss tts
     (genes h) (AS_genes h) (transcripts h) (num_exons h) (length h)
     (str_class h) (chrom h) (strand h) (subtype h) (refLen h) (refExons h)
     (refStart h) (refEnd h) (q_splicesite_hit h) (q_exon_overlap h)
     (percAdownTTS h) (seqAdownTTS h).

(** [modify(ref_transcript, ref_gene, tss_diff, tts_diff, refLen, refExons)] *)
Definition modify (ref_transcript ref_gene : string) (tss tts : na_int)
    (rl re : na_int) (h : t) : t :=
  mk (id h) tss tts (tss_gene_diff h) (tts_gene_diff h)
     [ref_gene] (AS_genes h) [ref_transcript] (num_exons h) (length h)
     (str_class h) (chrom h) (strand h) (subtype h) rl re
     (refStart h) (refEnd h) (q_splicesite_hit h) (q_exon_overlap h)
     (percAdownTTS h) (seqAdownTTS h).

(** [get_total_diff]: [abs] of ["NA"] raises. *)
Definition get_total_diff (h : t) : option Z :=
  a ← as_int (tss_diff h); b ← as_int (tts_diff h); Some (Z.abs a + Z.abs b).
End QT.

Abbreviation myQueryTranscripts := QT.t.

(** The constructor call, with the keyword arguments the call sites of
    [transcriptsKnownSpliceSites] pass; the gene-level distances start as
    ["NA"] and [AS_genes] as the empty set. *)
Definition new_hit (id : string) (tss_diff tts_diff : na_int)
    (num_exons length : Z) (cls : category) (subtype : string)
    (chrom strand : string) (genes transcripts : list string)
    (refLen refExons refStart refEnd : na_int)
    (q_splicesite_hit q_exon_overlap : Z)
    (polyA : string * string) : myQueryTranscripts :=
  QT.mk id tss_diff tts_diff GNA GNA genes ∅ transcripts num_exons length
        cls chrom strand subtype refLen refExons refStart refEnd
        q_splicesite_hit q_exon_overlap polyA.1 polyA.2.

(** [cat_ranking]: a lookup of any other class raises [KeyError]. *)
Definition cat_ranking (c : category) : option Z :=
  match c with
  | full_splice_match => Some 5
  | incomplete_splice_match => Some 4
  | anyKnownJunction => Some 3
  | anyKnownSpliceSite => Some 2
  | geneOverlap => Some 1
  | no_class => Some 0
  | _ => None
  end.

(** [cat_ranking[a] < cat_ranking[b]] *)
Definition rank_lt (a b : category) : option bool :=
  x ← cat_ranking a; y ← cat_ranking b; Some (bool_decide (x < y)).

(** ** Helpers nested in [transcriptsKnownSpliceSites] *)

Definition py_min (a b : na_int) : option na_int :=
  match a, b with
  | Int x, Int y => Some (Int (Z.min x y))
  | NA, NA => Some NA
  | _, _ => None
  end.

Definition py_max (a b : na_int) : option na_int :=
  match a, b with
  | Int x, Int y => Some (Int (Z.max x y))
  | NA, NA => Some NA
  | _, _ => None
  end.

(** [calc_overlap(s1, e1, s2, e2)]: [0] when a start is ["NA"]; otherwise
    the ends enter integer arithmetic. *)
Definition calc_overlap (s1 e1 s2 e2 : na_int) : option Z :=
  match s1, s2 with
  | NA, _ | _, NA => Some 0
  | Int a1, Int a2 =>
      b1 ← as_int e1; b2 ← as_int e2;
      if bool_decide (a1 > a2)
      then Some (Z.max 0 (Z.min b2 b1 - Z.max a2 a1))
      else Some (Z.max 0 (Z.min b1 b2 - Z.max a1 a2))
  end.

Definition sum_values (m : gmap Z Z) : Z :=
  map_fold (λ _ v acc, v + acc) 0 m.

Definition mark_if_present (k : Z) (m : gmap Z Z) : gmap Z Z :=
  match m !! k with
  | Some _ => <[k := 1]> m
  | None => m
  end.

(** [calc_splicesite_agreement] *)
Definition calc_splicesite_agreement (query_exons ref_exons : list Interval) : Z :=
  let q_sites :=
    foldl (λ m e, <[i_end e := 0]> (<[i_start e := 0]> m)) (∅ : gmap Z Z) query_exons in
  sum_values
    (foldl (λ m e, mark_if_present (i_end e) (mark_if_present (i_start e) m))
           q_sites ref_exons).

(** [range(e.start, e.end)] *)
Definition exon_bases (e : Interval) : list Z :=
  seqZ (i_start e) (i_end e - i_start e).

(** [calc_exon_overlap] *)
Definition calc_exon_overlap (query_exons ref_exons : list Interval) : Z :=
  let q_bases :=
    foldl (λ m e, foldl (λ m' b, <[b := 0]> m') m (exon_bases e))
          (∅ : gmap Z Z) query_exons in
  sum_values
    (foldl (λ m e, foldl (λ m' b, mark_if_present b m') m (exon_bases e))
           q_bases ref_exons).

(** [get_diff_tss_tts] *)
Definition get_diff_tss_tts (trec ref : genePredRecord) : Z * Z :=
  if bool_decide (GP.strand trec = "+"%string)
  then (GP.txStart trec - GP.txStart ref, GP.txEnd ref - GP.txEnd trec)
  else (GP.txEnd ref - GP.txEnd trec, GP.txStart trec - GP.txStart ref).

(** One pass of [if abs(d) < abs(nearest): nearest = d]; [None] is
    [float("inf")]. *)
Definition nearer (pos : Z) (nearest : option Z) (x : Z) : option Z :=
  let d := pos - x in
  match nearest with
  | None => Some d
  | Some n => if bool_decide (Z.abs d < Z.abs n) then Some d else Some n
  end.

(** [get_gene_diff_tss_tts]: a gene missing from [start_ends_by_gene]
    raises [KeyError]. *)
Definition get_gene_diff_tss_tts (start_ends_by_gene : gmap string gene_bounds)
    (trec : genePredRecord) (h : myQueryTranscripts) : option myQueryTranscripts :=
  ne ← foldl (λ acc g,
               '(ns, ne) ← acc;
               b ← start_ends_by_gene !! g;
               Some (foldl (nearer (GP.txStart trec)) ns (elements (b_begin b)),
                     foldl (nearer (GP.txEnd trec)) ne (elements (b_end b))))
             (Some (None, None)) (QT.genes h);
  let of_opt (o : option Z) := match o with Some z => GInt z | None => GNA end in
  let neg (o : option Z) := match o with Some z => GInt (- z) | None => GNegInf end in
  if bool_decide (GP.strand trec = "+"%string)
  then Some (QT.set_gene_diffs (of_opt ne.1) (of_opt ne.2) h)
  else Some (QT.set_gene_diffs
               (if ne.1 is Some _ then neg ne.2 else GNA)
               (if ne.2 is Some _ then neg ne.1 else GNA) h).

(** [len(ref_exon_tree.find(e.start, e.end)) > 1] for some query exon. *)
Definition covers_many_ref_exons (trec ref : genePredRecord) : bool :=
  let ref_exon_tree :=
    foldl (λ t e, tree_insert (i_start e) (i_end e) e t) [] (GP.exons ref) in
  bool_decide (Exists (λ e, (1 < length (tree_find ref_exon_tree (i_start e) (i_end e)))%nat)
                      (GP.exons trec)).

(** [categorize_incomplete_matches]; [junctions[0]] of an empty list raises
    [IndexError]. *)
Definition categorize_incomplete_matches (trec ref : genePredRecord) : option string :=
  if covers_many_ref_exons trec ref then Some "intron_retention"%string
  else
    t0 ← head (GP.junctions trec); r0 ← head (GP.junctions ref);
    tl ← last (GP.junctions trec); rl ← last (GP.junctions ref);
    let agree_front := bool_decide (t0 = r0) in
    let agree_end := bool_decide (tl = rl) in
    let plus := bool_decide (GP.strand trec = "+"%string) in
    Some (if agree_front then
            if agree_end then "complete"
            else if plus then "5prime_fragment" else "3prime_fragment"
          else
            if agree_end then
              if plus then "3prime_fragment" else "5prime_fragment"
            else "internal_fragment")%string.

(** ** The junction-comparison primitive *)

Inductive match_type : Type :=
  | exact
  | subset
  | partial
  | concordant
  | super
  | nomatch.

#[global] Instance match_type_eq_dec : EqDecision match_type.
Proof. solve_decision. Defined.

(** [q] occurs in [l] as a block of consecutive elements. *)
Fixpoint contiguous_in (q l : list (Z * Z)) : bool :=
  bool_decide (q `prefix_of` l) ||
  match l with
  | [] => false
  | _ :: l' => contiguous_in q l'
  end.

(** Modelled from the spec: [compare_junctions] is imported from the
    cupcake package and is not part of these sources.  Section 4.2 of the
    specification describes its answers: exact when all junctions are
    identical, subset when the query junctions are a contiguous
    subsequence of the reference junctions, partial when the two share a
    junction without either of the former, and nomatch when no junction
    is shared.  The classifier below takes the primitive as a parameter;
    this definition instantiates it for concrete scenarios. *)
Definition compare_junctions_spec (trec ref : genePredRecord) : match_type :=
  if bool_decide (GP.junctions trec = GP.junctions ref) then exact
  else if contiguous_in (GP.junctions trec) (GP.junctions ref) then subset
  else if bool_decide (Exists (λ j, j ∈ GP.junctions ref) (GP.junctions trec))
       then partial
  else nomatch.

(** ** [transcriptsKnownSpliceSites] *)

(** [hits_by_gene[ref.gene].append(ref)] on an insertion-ordered
    [defaultdict]. *)
Fixpoint hits_add (g : string) (ref : genePredRecord)
    (hits : list (string * list genePredRecord)) : list (string * list genePredRecord) :=
  match hits with
  | [] => [(g, [ref])]
  | (g', rs) :: rest =>
      if bool_decide (g' = g) then (g', rs ++ [ref]) :: rest
      else (g', rs) :: hits_add g ref rest
  end.

Definition group_hits (refs : list genePredRecord) : list (string * list genePredRecord) :=
  foldl (λ hits ref, hits_add (GP.gene ref) ref hits) [] refs.

(** [tree[trec.chrom].find(trec.txStart, trec.txEnd)], guarded by
    [trec.chrom in tree]. *)
Definition find_refs (trees : gmap string (IntervalTree genePredRecord))
    (trec : genePredRecord) : list genePredRecord :=
  match trees !! GP.chrom trec with
  | Some t => tree_find t (GP.txStart trec) (GP.txEnd trec)
  | None => []
  end.

Record geneHitTuple : Type := mkGeneHit {
  score : Z;
  rStart : na_int;
  rEnd : na_int;
  rGene : string;
  iso_hit : myQueryTranscripts
}.

(** The order of the sort keys [(score, composite)]; Python's floats are
    idealised as exact rationals. *)
Definition key_lt (k1 k2 : Z * Q) : bool :=
  bool_decide (k1.1 < k2.1) ||
  (bool_decide (k1.1 = k2.1) &&
   match Qcompare k1.2 k2.2 with Lt => true | _ => false end).

(** [list.sort(key=..., reverse=True)]: descending, and stable (entries
    with equal keys keep their order). *)
Fixpoint insert_desc {A} (x : (Z * Q) * A) (l : list ((Z * Q) * A)) : list ((Z * Q) * A) :=
  match l with
  | [] => [x]
  | y :: l' => if key_lt x.1 y.1 then y :: insert_desc x l' else x :: y :: l'
  end.

Definition sort_desc {A} (l : list ((Z * Q) * A)) : list ((Z * Q) * A) :=
  foldr insert_desc [] l.

(** Division of floats; a zero divisor raises [ZeroDivisionError]. *)
Definition py_div (a b : Z) : option Q :=
  if bool_decide (b = 0) then None else Some (inject_Z a / inject_Z b)%Q.

(** The key of the cross-gene sort. *)
Definition sort_key (trec : genePredRecord) (x : geneHitTuple) : option (Z * Q) :=
  f1 ← py_div (QT.q_exon_overlap (iso_hit x))
              (sumZ ((λ e, i_end e - i_start e) <$> GP.exons trec));
  ov ← calc_overlap (rStart x) (rEnd x) (Int (GP.txStart trec)) (Int (GP.txEnd trec));
  re ← as_int (rEnd x); rs ← as_int (rStart x);
  f2 ← py_div ov (re - rs);
  n ← as_int (QT.refExons (iso_hit x));
  Some (score x,
        (inject_Z (QT.q_splicesite_hit (iso_hit x)) + f1 + f2
         - inject_Z (Z.abs (GP.exonCount trec - n)))%Q).

(** The loop over [best_by_gene[1:]] that co-lists non-overlapping genes. *)
Fixpoint absorb_genes (h : myQueryTranscripts) (cur_start cur_end : na_int)
    (rest : list geneHitTuple) : option myQueryTranscripts :=
  match rest with
  | [] => Some h
  | t :: rest' =>
      if bool_decide (score t = 0) then Some h
      else
        ov ← calc_overlap cur_start cur_end (rStart t) (rEnd t);
        if bool_decide (ov ≤ 0) then
          s ← py_min cur_start (rStart t);
          e ← py_max cur_end (rEnd t);
          absorb_genes (QT.set_genes (QT.genes h ++ [rGene t]) h) s e rest'
        else absorb_genes h cur_start cur_end rest'
  end.

(** [best_by_gene] as a list of [geneHitTuple], in the order of the
    dictionary. *)
Definition gene_hit_tuples (best_by_gene : list (string * myQueryTranscripts))
    : option (list geneHitTuple) :=
  mapM (λ gh, s ← cat_ranking (QT.str_class gh.2);
              Some (mkGeneHit s (QT.refStart gh.2) (QT.refEnd gh.2) gh.1 gh.2))
       best_by_gene.

(** The genes of positive rank, each with its sort key. *)
Definition keyed_candidates (trec : genePredRecord) (tuples : list geneHitTuple)
    : option (list ((Z * Q) * geneHitTuple)) :=
  mapM (λ x, k ← sort_key trec x; Some (k, x)) (filter (λ x, 0 < score x) tuples).

(** Lines 1554-1596: rank the per-gene best hits and merge.  The result is
    [inl h] when no gene has positive rank ([fallback], the hit of the last
    gene visited, is returned as it is) and [inr h] for the merged hit. *)
Definition select_best (trec : genePredRecord) (fallback : myQueryTranscripts)
    (best_by_gene : list (string * myQueryTranscripts))
    : option (myQueryTranscripts + myQueryTranscripts) :=
  tuples ← gene_hit_tuples best_by_gene;
  match filter (λ x, 0 < score x) tuples with
  | [] => Some (inl fallback)
  | _ :: _ =>
      keyed ← keyed_candidates trec tuples;
      match snd <$> sort_desc keyed with
      | [] => None
      | top :: rest =>
          h ← absorb_genes (iso_hit top) (rStart top) (rEnd top) rest;
          Some (inr h)
      end
  end.

Section BestMatch.

(** [compare_junctions] with the arguments of the call site
    ([internal_fuzzy_max_dist=0], [max_5_diff=max_3_diff=999999]). *)
Variable compare_junctions : genePredRecord → genePredRecord → match_type.

(** [genes.sort(key=lambda x: start_ends_by_gene[x]["begin"])].  The keys
    are sets, which Python orders by strict inclusion; on incomparable
    keys the outcome depends on the sorting algorithm, so the
    rearrangement is a parameter. *)
Variable sort_genes_by_begin : gmap string gene_bounds → list string → list string.

(** The intra-priming window read from [genome_dict] downstream of
    [pos_TTS]: [(str(percA), seq_downTTS)], or an exception. *)
Variable downstream_A : genePredRecord → Z → option (string * string).

Definition fresh_hit (trec : genePredRecord) (polyA : string * string)
    : myQueryTranscripts :=
  new_hit (GP.id trec) NA NA (GP.exonCount trec) (GP.length trec) no_class
    "no_subcategory" (GP.chrom trec) (GP.strand trec) [] [] NA NA NA NA 0 0 polyA.

Definition ref_hit (trec : genePredRecord) (polyA : string * string)
    (ref : genePredRecord) (tss tts : na_int) (cls : category) (subtype : string)
    (transcripts : list string) (q_sp : Z) : myQueryTranscripts :=
  new_hit (GP.id trec) tss tts (GP.exonCount trec) (GP.length trec) cls subtype
    (GP.chrom trec) (GP.strand trec) [GP.gene ref] transcripts
    (Int (GP.length ref)) (Int (GP.exonCount ref))
    (Int (GP.txStart ref)) (Int (GP.txEnd ref))
    q_sp (calc_exon_overlap (GP.exons trec) (GP.exons ref)) polyA.

(** The body of [for ref in hits_by_gene[ref_gene]]. *)
Definition score_ref (trec : genePredRecord) (polyA : string * string)
    (h : myQueryTranscripts) (ref : genePredRecord) : option myQueryTranscripts :=
  let sp := calc_splicesite_agreement (GP.exons trec) (GP.exons ref) in
  let ov := calc_exon_overlap (GP.exons trec) (GP.exons ref) in
  if bool_decide (GP.strand trec ≠ GP.strand ref) then
    Some (QT.set_AS_genes ({[GP.gene ref]} ∪ QT.AS_genes h) h)
  else if bool_decide (GP.exonCount ref = 1) then
    if bool_decide (0 < ov) then
      lt ← rank_lt (QT.str_class h) geneOverlap;
      Some (if lt : bool
            then ref_hit trec polyA ref NA NA geneOverlap "mono-exon" [GP.id ref] 0
            else h)
    else Some h
  else
    let d := get_diff_tss_tts trec ref in
    let total := Z.abs d.1 + Z.abs d.2 in
    match compare_junctions trec ref with
    | exact =>
        lt ← rank_lt (QT.str_class h) full_splice_match;
        better ← (if lt : bool then Some true
                  else td ← QT.get_total_diff h; Some (bool_decide (total < td)));
        Some (if better : bool
              then ref_hit trec polyA ref (Int d.1) (Int d.2) full_splice_match
                     "multi-exon" [GP.id ref] sp
              else h)
    | subset =>
        subtype ← categorize_incomplete_matches trec ref;
        lt ← rank_lt (QT.str_class h) incomplete_splice_match;
        better ← (if lt : bool then Some true
                  else if bool_decide (QT.str_class h = incomplete_splice_match)
                  then td ← QT.get_total_diff h; Some (bool_decide (total < td))
                  else Some false);
        Some (if better : bool
              then ref_hit trec polyA ref (Int d.1) (Int d.2) incomplete_splice_match
                     subtype [GP.id ref] sp
              else h)
    | partial | concordant | super =>
        let q_exon_d := Z.abs (GP.exonCount trec - GP.exonCount ref) in
        lt ← rank_lt (QT.str_class h) anyKnownJunction;
        better ← (if lt : bool then Some true
                  else if bool_decide (QT.str_class h = anyKnownJunction) then
                    if bool_decide (sp > QT.q_splicesite_hit h) then Some true
                    else if bool_decide (sp = QT.q_splicesite_hit h) then
                      if bool_decide (ov > QT.q_exon_overlap h) then Some true
                      else n ← as_int (QT.refExons h);
                           Some (bool_decide (q_exon_d < Z.abs (GP.exonCount trec - n)))
                    else Some false
                  else Some false);
        Some (if better : bool
              then ref_hit trec polyA ref NA NA anyKnownJunction "no_subcategory"
                     ["novel"%string] sp
              else h)
    | nomatch =>
        lt ← rank_lt (QT.str_class h) anyKnownSpliceSite;
        let h1 := if (lt : bool) && bool_decide (0 < sp)
                  then ref_hit trec polyA ref NA NA anyKnownSpliceSite
                         "no_subcategory" ["novel"%string] sp
                  else h in
        if bool_decide (QT.str_class h1 = no_class) then
          lt1 ← rank_lt (QT.str_class h1) geneOverlap;
          Some (if (lt1 : bool) && bool_decide (0 < ov)
                then ref_hit trec polyA ref NA NA geneOverlap "no_subcategory"
                       ["novel"%string] sp
                else h1)
        else Some h1
    end.

Fixpoint score_refs (trec : genePredRecord) (polyA : string * string)
    (h : myQueryTranscripts) (refs : list genePredRecord) : option myQueryTranscripts :=
  match refs with
  | [] => Some h
  | ref :: refs' => h' ← score_ref trec polyA h ref; score_refs trec polyA h' refs'
  end.

(** [best_by_gene]: one best hit per gene, in the order of [hits_by_gene]. *)
Definition best_hits (trec : genePredRecord) (polyA : string * string)
    (hits_by_gene : list (string * list genePredRecord))
    : option (list (string * myQueryTranscripts)) :=
  mapM (λ gr, h ← score_refs trec polyA (fresh_hit trec polyA) gr.2; Some (gr.1, h))
       hits_by_gene.

(** The last two statements of the function. *)
Definition finish_hit (start_ends_by_gene : gmap string gene_bounds)
    (trec : genePredRecord) (h : myQueryTranscripts) : option myQueryTranscripts :=
  h' ← get_gene_diff_tss_tts start_ends_by_gene trec h;
  Some (QT.set_genes (sort_genes_by_begin start_ends_by_gene (QT.genes h')) h').

(** The branch [if trec.exonCount >= 2]. *)
Definition spliced_match (refs_1exon refs_exons : gmap string (IntervalTree genePredRecord))
    (start_ends_by_gene : gmap string gene_bounds)
    (trec : genePredRecord) (polyA : string * string) : option myQueryTranscripts :=
  let hits_by_gene := group_hits (find_refs refs_exons trec ++ find_refs refs_1exon trec) in
  match hits_by_gene with
  | [] => Some (fresh_hit trec polyA)
  | _ =>
      best ← best_hits trec polyA hits_by_gene;
      sel ← select_best trec (default (fresh_hit trec polyA) (snd <$> last best)) best;
      match sel with
      | inl h => Some h
      | inr h => finish_hit start_ends_by_gene trec h
      end
  end.

(** The first loop of the single-exon branch. *)
Definition unspliced_1exon_step (trec : genePredRecord) (polyA : string * string)
    (h : myQueryTranscripts) (ref : genePredRecord) : option myQueryTranscripts :=
  if bool_decide (GP.strand ref ≠ GP.strand trec) then
    Some (QT.set_AS_genes ({[GP.gene ref]} ∪ QT.AS_genes h) h)
  else
    let d := get_diff_tss_tts trec ref in
    if bool_decide (QT.str_class h = no_class) then
      Some (new_hit (GP.id trec) (Int d.1) (Int d.2) (GP.exonCount trec)
              (GP.length trec) full_splice_match "mono-exon" (GP.chrom trec)
              (GP.strand trec) [GP.gene ref] [GP.id ref]
              (Int (GP.length ref)) (Int (GP.exonCount ref)) NA NA 0 0 polyA)
    else
      td ← QT.get_total_diff h;
      Some (if bool_decide (Z.abs d.1 + Z.abs d.2 < td)
            then QT.modify (GP.id ref) (GP.gene ref) (Int d.1) (Int d.2)
                   (Int (GP.length ref)) (Int (GP.exonCount ref)) h
            else h).

(** The second loop of the single-exon branch; [inl] is an early
    [return]. *)
Definition unspliced_exons_step (start_ends_by_gene : gmap string gene_bounds)
    (trec : genePredRecord) (h : myQueryTranscripts) (ref : genePredRecord)
    : option (myQueryTranscripts + myQueryTranscripts) :=
  if bool_decide (calc_exon_overlap (GP.exons trec) (GP.exons ref) = 0) then Some (inr h)
  else if bool_decide (GP.strand ref ≠ GP.strand trec) then
    Some (inr (QT.set_AS_genes ({[GP.gene ref]} ∪ QT.AS_genes h) h))
  else
    let d := get_diff_tss_tts trec ref in
    if bool_decide (Exists (λ e, i_start e ≤ GP.txStart trec ∧ GP.txStart trec < GP.txEnd trec
                                 ∧ GP.txEnd trec ≤ i_end e) (GP.exons ref)) then
      r ← get_gene_diff_tss_tts start_ends_by_gene trec
             (QT.modify (GP.id ref) (GP.gene ref) (Int d.1) (Int d.2)
                (Int (GP.length ref)) (Int (GP.exonCount ref))
                (QT.set_subtype "mono-exon" (QT.set_str_class incomplete_splice_match h)));
      Some (inl r)
    else if bool_decide (GP.txStart ref ≤ GP.txStart trec ∧ GP.txStart trec < GP.txEnd trec
                         ∧ GP.txEnd trec ≤ GP.txEnd ref) then
      let st := if bool_decide (Exists (λ j, GP.txStart trec < j.1 ∧ j.1 < j.2
                                             ∧ j.2 < GP.txEnd trec) (GP.junctions ref))
                then "mono-exon_by_intron_retention"%string else "mono-exon"%string in
      r ← get_gene_diff_tss_tts start_ends_by_gene trec
             (QT.modify "novel" (GP.gene ref) NA NA
                (Int (GP.length ref)) (Int (GP.exonCount ref))
                (QT.set_subtype st (QT.set_str_class novel_in_catalog h)));
      Some (inl r)
    else Some (inr (QT.set_genes (QT.genes h ++ [GP.gene ref]) h)).

Fixpoint unspliced_exons_loop (start_ends_by_gene : gmap string gene_bounds)
    (trec : genePredRecord) (h : myQueryTranscripts) (refs : list genePredRecord)
    : option (myQueryTranscripts + myQueryTranscripts) :=
  match refs with
  | [] => Some (inr h)
  | ref :: refs' =>
      s ← unspliced_exons_step start_ends_by_gene trec h ref;
      match s with
      | inl r => Some (inl r)
      | inr h' => unspliced_exons_loop start_ends_by_gene trec h' refs'
      end
  end.

(** The branch for single-exon queries. *)
Definition unspliced_match (refs_1exon refs_exons : gmap string (IntervalTree genePredRecord))
    (start_ends_by_gene : gmap string gene_bounds)
    (trec : genePredRecord) (polyA : string * string) : option myQueryTranscripts :=
  h1 ← foldl (λ acc ref, h ← acc; unspliced_1exon_step trec polyA h ref)
             (Some (fresh_hit trec polyA)) (find_refs refs_1exon trec);
  s ← (if bool_decide (QT.str_class h1 = no_class)
       then unspliced_exons_loop start_ends_by_gene trec h1 (find_refs refs_exons trec)
       else Some (inr h1));
  match s with
  | inl r => Some r
  | inr h2 => finish_hit start_ends_by_gene trec h2
  end.

Definition transcriptsKnownSpliceSites
    (refs_1exon refs_exons : gmap string (IntervalTree genePredRecord))
    (start_ends_by_gene : gmap string gene_bounds)
    (trec : genePredRecord) : option myQueryTranscripts :=
  pos_TTS ← (if bool_decide (GP.strand trec = "+"%string)
             then last (GP.exonEnds trec) else head (GP.exonStarts trec));
  polyA ← downstream_A trec pos_TTS;
  if bool_decide (2 ≤ GP.exonCount trec)
  then spliced_match refs_1exon refs_exons start_ends_by_gene trec polyA
  else unspliced_match refs_1exon refs_exons start_ends_by_gene trec polyA.

End BestMatch.

(** ** [bisect.bisect_left] *)

Fixpoint bisect_left_aux {A} (lt : A → A → bool) (a : list A) (x : A)
    (fuel lo hi : nat) : nat :=
  match fuel with
  | O => lo
  | S fuel' =>
      if bool_decide (lo < hi)%nat then
        let mid := ((lo + hi) / 2)%nat in
        match a !! mid with
        | Some y =>
            if lt y x then bisect_left_aux lt a x fuel' (S mid) hi
            else bisect_left_aux lt a x fuel' lo mid
        | None => lo
        end
      else lo
  end.

(** The interval [hi - lo] shrinks at every turn, so [length a + 1] turns
    are enough. *)
Definition bisect_left {A} (lt : A → A → bool) (a : list A) (x : A) : nat :=
  bisect_left_aux lt a x (S (length a)) 0 (length a).

Definition Z_lt (x y : Z) : bool := bool_decide (x < y).

(** Python's strict order on pairs. *)
Definition pair_lt (p q : Z * Z) : bool :=
  bool_decide (p.1 < q.1 ∨ (p.1 = q.1 ∧ p.2 < q.2)).

(** ** [novelIsoformsKnownGenes] *)

(** The Python values that meet in [all_ref_junctions.count(junc)]: a
    junction is a tuple, an element of [all_ref_junctions] is whatever
    [itertools.chain] yielded. *)
Inductive pyval : Type :=
  | PyTuple (p : Z * Z)
  | PySet (s : gset (Z * Z)).

(** Python's [==]: a tuple never equals a set. *)
Definition py_eq (x y : pyval) : bool :=
  match x, y with
  | PyTuple p, PyTuple q => bool_decide (p = q)
  | PySet s, PySet t => bool_decide (s = t)
  | _, _ => false
  end.

(** [lst.count(x)] *)
Definition py_count (lst : list pyval) (x : pyval) : Z :=
  Z.of_nat (length (filter (λ y, py_eq y x = true) lst)).

(** [max(values)]; the empty sequence raises [ValueError]. *)
Definition py_max_list (l : list Z) : option Z :=
  match l with
  | [] => None
  | x :: l' => Some (foldl Z.max x l')
  end.

(** [has_intron_retention]; [junctions_by_chr[trec.chrom]] raises
    [KeyError] for an unknown chromosome as soon as an exon is visited. *)
Definition has_intron_retention (junctions_by_chr : gmap string chr_junctions)
    (trec : genePredRecord) : option bool :=
  match GP.exons trec with
  | [] => Some false
  | _ =>
      c ← junctions_by_chr !! GP.chrom trec;
      Some (existsb (λ e,
              match da_pairs c !! bisect_left pair_lt (da_pairs c) (i_start e, i_end e) with
              | Some p => bool_decide (i_start e ≤ p.1 ∧ p.1 < p.2 ∧ p.2 < i_end e)
              | None => false
              end) (GP.exons trec))
  end.

(** [itertools.chain(g)] applied to ONE generator [g] of sets yields the
    sets themselves, not their elements. *)
Definition all_ref_junctions (junctions_by_gene : gmap string (gset (Z * Z)))
    (ref_genes : list string) : list pyval :=
  omap (λ g, PySet <$> junctions_by_gene !! g) ref_genes.

Definition novelIsoformsKnownGenes (isoforms_hit : myQueryTranscripts)
    (trec : genePredRecord) (junctions_by_chr : gmap string chr_junctions)
    (junctions_by_gene : gmap string (gset (Z * Z))) : option myQueryTranscripts :=
  let ref_genes := elements (list_to_set (QT.genes isoforms_hit) : gset string) in
  let h := QT.set_transcripts ["novel"%string] isoforms_hit in
  h1 ← match ref_genes with
       | [g] =>
           ref_gene_junctions ← junctions_by_gene !! g;
           all_junctions_known ←
             match GP.junctions trec with
             | [] => Some true
             | _ =>
                 c ← junctions_by_chr !! GP.chrom trec;
                 Some (bool_decide (Forall (λ j, j.1 ∈ donors c ∧ j.2 ∈ acceptors c)
                                           (GP.junctions trec)))
             end;
           let all_junctions_in_hit_ref :=
             bool_decide (Forall (λ j, j ∈ ref_gene_junctions) (GP.junctions trec)) in
           Some (if all_junctions_known : bool then
                   QT.set_subtype
                     (if all_junctions_in_hit_ref
                      then "combination_of_known_junctions"
                      else "combination_of_known_splicesites")%string
                     (QT.set_str_class novel_in_catalog h)
                 else
                   QT.set_subtype "at_least_one_novel_splicesite"
                     (QT.set_str_class novel_not_in_catalog h))
       | _ =>
           let refs := all_ref_junctions junctions_by_gene ref_genes in
           let junction_ref_hit := (λ j, py_count refs (PyTuple j)) <$> GP.junctions trec in
           m ← py_max_list junction_ref_hit;
           Some (if bool_decide (m > 1) then QT.set_str_class moreJunctions h
                 else QT.set_subtype
                        (if bool_decide (GP.exonCount trec = 1)
                         then "mono-exon" else "multi-exon")%string
                        (QT.set_str_class fusion h))
       end;
  ir ← has_intron_retention junctions_by_chr trec;
  Some (if ir : bool then QT.set_subtype "intron_retention" h1 else h1).

(** ** [associationOverlapping] *)

(** The [while] loop over [da_pairs[i:]]; the guard and the test both read
    [trec.txStart]. *)
Fixpoint intron_scan (txStart : Z) (l : list (Z * Z)) : bool :=
  match l with
  | [] => false
  | p :: l' =>
      if bool_decide (p.1 ≤ txStart) then
        if bool_decide (p.1 ≤ txStart ∧ txStart ≤ txStart ∧ txStart ≤ p.2) then true
        else intron_scan txStart l'
      else false
  end.

Definition associationOverlapping (isoforms_hit : myQueryTranscripts)
    (trec : genePredRecord) (junctions_by_chr : gmap string chr_junctions)
    : myQueryTranscripts :=
  let h :=
    QT.set_subtype
      (if bool_decide (GP.exonCount trec = 1) then "mono-exon" else "multi-exon")%string
      (QT.set_transcripts ["novel"%string] (QT.set_str_class intergenic isoforms_hit)) in
  if bool_decide (QT.genes h = []) then
    match bool_decide (QT.AS_genes h = ∅), junctions_by_chr !! GP.chrom trec with
    | true, Some c =>
        let i := bisect_left pair_lt (da_pairs c) (GP.txStart trec, GP.txEnd trec) in
        if intron_scan (GP.txStart trec) (drop i (da_pairs c))
        then QT.set_str_class genic_intron h
        else h
    | _, _ =>
        QT.set_genes ((λ g, "novelGene_" +:+ g +:+ "_AS") <$> elements (QT.AS_genes h))
          (QT.set_str_class antisense h)
    end
  else QT.set_str_class genic h.

(** ** [write_junctionInfo] *)

(** [find_closest_in_list]; indexing an empty list raises [IndexError]. *)
Definition find_closest_in_list (lst : list Z) (pos : Z) : option Z :=
  let i := bisect_left Z_lt lst pos in
  if bool_decide (i = 0%nat) then x ← head lst; Some (x - pos)
  else if bool_decide (i = length lst) then x ← last lst; Some (x - pos)
  else
    x ← lst !! pred i; y ← lst !! i;
    let a := x - pos in
    let b := y - pos in
    Some (if bool_decide (Z.abs a < Z.abs b) then a else b).

(** The fields of a junction row that are computed from the query and the
    reference index. *)
Record junction_row : Type := mkRow {
  junction_number : Z;
  genomic_start_coord : Z;
  genomic_end_coord : Z;
  junction_category : string;
  start_site_category : string;
  end_site_category : string;
  diff_to_Ref_start_site : Z;
  diff_to_Ref_end_site : Z;
  bite_junction : string;
  splice_site : string;
  canonical : string
}.

Section JunctionInfo.

(** [trec.get_splice_site(genome_dict, i)] reads the genome. *)
Variable get_splice_site : genePredRecord → nat → option string.

Definition junction_info (trec : genePredRecord) (c : chr_junctions)
    (accepted_canonical_sites : list string) (junction_index : nat) (j : Z * Z)
    : option junction_row :=
  s ← find_closest_in_list (donors c) j.1;
  let min_diff_s := - s in
  min_diff_e ← find_closest_in_list (acceptors c) j.2;
  site ← get_splice_site trec junction_index;
  Some (mkRow (Z.of_nat junction_index + 1) (j.1 + 1) j.2
          (if bool_decide (j ∈ da_pairs c) then "known" else "novel")
          (if bool_decide (min_diff_s = 0) then "known" else "novel")
          (if bool_decide (min_diff_e = 0) then "known" else "novel")
          min_diff_s min_diff_e
          (if (bool_decide (min_diff_s < 0) || bool_decide (min_diff_e < 0))
              && negb (bool_decide (min_diff_s > 0) || bool_decide (min_diff_e > 0))
           then "TRUE" else "FALSE")
          site
          (if bool_decide (site ∈ accepted_canonical_sites)
           then "canonical" else "non_canonical"))%string.

(** The rows written for one query, in the order of [trec.junctions]. *)
Definition write_junctionInfo (trec : genePredRecord)
    (junctions_by_chr : gmap string chr_junctions)
    (accepted_canonical_sites : list string) : option (list junction_row) :=
  match junctions_by_chr !! GP.chrom trec with
  | None => Some []
  | Some c =>
      mapM (λ ij, junction_info trec c accepted_canonical_sites ij.1 ij.2)
           (imap (λ i j, (i, j)) (GP.junctions trec))
  end.

End JunctionInfo.

(** ** The per-query driver of [isoformClassification] *)

Section Classify.

Variable compare_junctions : genePredRecord → genePredRecord → match_type.
Variable sort_genes_by_begin : gmap string gene_bounds → list string → list string.
Variable downstream_A : genePredRecord → Z → option (string * string).

Definition classify (idx : ref_index) (rec : genePredRecord) : option myQueryTranscripts :=
  isoform_hit ← transcriptsKnownSpliceSites compare_junctions sort_genes_by_begin
                   downstream_A (refs_1exon_by_chr idx) (refs_exons_by_chr idx)
                   (known_5_3_by_gene idx) rec;
  if bool_decide (QT.str_class isoform_hit ∈ [anyKnownJunction; anyKnownSpliceSite]) then
    novelIsoformsKnownGenes isoform_hit rec (junctions_by_chr idx) (junctions_by_gene idx)
  else if bool_decide (QT.str_class isoform_hit ∈ [no_class; geneOverlap]) then
    Some (associationOverlapping isoform_hit rec (junctions_by_chr idx))
  else Some isoform_hit.

End Classify.

(** ** [find_polyA_motif] *)

(** [s.find(sub)]: the lowest index at which [sub] occurs in [s];
    [None] is Python's [-1].  Sequences are lists of characters. *)
Fixpoint str_find (s sub : list ascii) : option nat :=
  if bool_decide (sub `prefix_of` s) then Some 0%nat
  else match s with
       | [] => None
       | _ :: s' => S <$> str_find s' sub
       end.

(** The pair returned by [find_polyA_motif]: [("NA", "NA")] or a motif
    with its distance. *)
Inductive motif_hit : Type :=
  | NoMotif
  | MotifAt (motif : list ascii) (dist : Z).

Fixpoint find_polyA_motif (genome_seq : list ascii) (polyA_motif_list : list (list ascii))
    : motif_hit :=
  match polyA_motif_list with
  | [] => NoMotif
  | motif :: rest =>
      match str_find genome_seq motif with
      | Some i =>
          MotifAt motif
            (- (Z.of_nat (length genome_seq) - Z.of_nat i - Z.of_nat (length motif) + 1))
      | None => find_polyA_motif genome_seq rest
      end
  end.

(** ** [PolyAPeak] and [CAGEPeak] *)

(** The columns of a BED line that the two readers use; [b_tss0] is read
    by [CAGEPeak] only. *)
Record bed_line : Type := mkBed {
  b_chrom : string;
  b_start0 : Z;
  b_end1 : Z;
  b_strand : string;
  b_tss0 : Z
}.

(** [peaks[(chrom, strand)].insert(start0, end1, value)] on a
    [defaultdict] of interval trees. *)
Definition peak_insert {A} (key : string * string) (s e : Z) (v : A)
    (m : gmap (string * string) (IntervalTree A)) : gmap (string * string) (IntervalTree A) :=
  <[key := tree_insert s e v (default [] (m !! key))]> m.

(** [PolyAPeak.read_bed] *)
Definition polya_read_bed (lines : list bed_line)
    : gmap (string * string) (IntervalTree (Z * Z)) :=
  foldl (λ m l, peak_insert (b_chrom l, b_strand l) (b_start0 l) (b_end1 l)
                  (b_start0 l, b_end1 l) m) ∅ lines.

(** The body of the loop over [hits[1:]]: keep the offset of smaller
    absolute value. *)
Definition closer_start (query : Z) (min_dist : Z) (hit : Z * Z) : Z :=
  let d := query - hit.1 in
  if bool_decide (Z.abs d < Z.abs min_dist) then d else min_dist.

(** [PolyAPeak.find]; a strand other than "+" and "-" fails the
    assertion.  The result is [(False, None)] or [(True, min_dist)]. *)
Definition polya_find (polya_peaks : gmap (string * string) (IntervalTree (Z * Z)))
    (chrom strand : string) (query search_window : Z) : option (bool * option Z) :=
  if bool_decide (strand = "+"%string ∨ strand = "-"%string) then
    let hits := tree_find (default [] (polya_peaks !! (chrom, strand)))
                  (query - search_window) (query + search_window) in
    match hits with
    | [] => Some (false, None)
    | h0 :: rest =>
        let min_dist := foldl (closer_start query) (query - h0.1) rest in
        Some (true, Some (if bool_decide (strand = "-"%string) then - min_dist else min_dist))
    end
  else None.

(** [CAGEPeak.read_bed] *)
Definition cage_read_bed (lines : list bed_line)
    : gmap (string * string) (IntervalTree (Z * Z * Z)) :=
  foldl (λ m l, peak_insert (b_chrom l, b_strand l) (b_start0 l) (b_end1 l)
                  (b_tss0 l, b_start0 l, b_end1 l) m) ∅ lines.

(** One turn of the loop of [CAGEPeak.find] over a hit
    [(tss0, start0, end1)]; [abs] of the initial ["NA"] would raise. *)
Definition cage_step (strand : string) (query : Z) (acc : bool * na_int)
    (hit : Z * Z * Z) : option (bool * na_int) :=
  let '(tss0, start0, end1) := hit in
  if bool_decide (strand = "+"%string ∧ start0 > query ∧ end1 > query) then Some acc
  else if bool_decide (strand = "-"%string ∧ start0 < query ∧ end1 < query) then Some acc
  else
    let d := (query - tss0) * (if bool_decide (strand = "-"%string) then -1 else 1) in
    let inside := bool_decide (start0 ≤ query ∧ query < end1) in
    if negb acc.1 then Some (inside, Int d)
    else dp ← as_int acc.2;
         Some (if bool_decide (Z.abs d < Z.abs dp) then (inside, Int d) else acc).

(** [CAGEPeak.find] *)
Definition cage_find (cage_peaks : gmap (string * string) (IntervalTree (Z * Z * Z)))
    (chrom strand : string) (query search_window : Z) : option (bool * na_int) :=
  foldl (λ acc hit, a ← acc; cage_step strand query a hit) (Some (false, NA))
        (tree_find (default [] (cage_peaks !! (chrom, strand)))
           (query - search_window) (query + search_window)).

(** ** Predicates of the statements *)

(** A record is well formed when the constructor produced it. *)
Definition constructed (r : genePredRecord) : Prop :=
  ∃ l, genePredRecord_init l = Some r.

(** The records that [find] can report for a chromosome. *)
Definition tree_values (m : gmap string (IntervalTree genePredRecord)) (chrom : string)
    : list genePredRecord :=
  snd <$> default [] (m !! chrom).

(** A record is indexed when one of the two interval trees of its
    chromosome holds it. *)
Definition indexed (idx : ref_index) (r : genePredRecord) : Prop :=
  r ∈ tree_values (refs_1exon_by_chr idx) (GP.chrom r) ∨
  r ∈ tree_values (refs_exons_by_chr idx) (GP.chrom r).

Definition indexed_b (b : ref_build) (r : genePredRecord) : Prop :=
  r ∈ tree_values (bd_1exon b) (GP.chrom r) ∨
  r ∈ tree_values (bd_exons b) (GP.chrom r).

(** The length filter of [reference_parser]. *)
Definition kept (min_ref_len : Z) (is_fusion : bool) (r : genePredRecord) : Prop :=
  is_fusion = true ∨ min_ref_len ≤ GP.length r.

(** Some record of [recs] with at least two exons satisfies [P]. *)
Definition from_multi_exon (recs : list genePredRecord) (P : genePredRecord → Prop) : Prop :=
  ∃ r, r ∈ recs ∧ 2 ≤ GP.exonCount r ∧ P r.

(** Every junction held in a build state comes from a multi-exon record of
    [recs]. *)
Definition junctions_sourced (recs : list genePredRecord) (b : ref_build) : Prop :=
  (∀ g s j, bd_junc_gene b !! g = Some s → j ∈ s →
     from_multi_exon recs (λ r, GP.gene r = g ∧ j ∈ GP.junctions r)) ∧
  (∀ c cs, bd_junc_chr b !! c = Some cs →
     (∀ j, j ∈ s_da_pairs cs →
        from_multi_exon recs (λ r, GP.chrom r = c ∧ j ∈ GP.junctions r)) ∧
     (∀ d, d ∈ s_donors cs →
        from_multi_exon recs (λ r, GP.chrom r = c ∧ ∃ a, (d, a) ∈ GP.junctions r)) ∧
     (∀ a, a ∈ s_acceptors cs →
        from_multi_exon recs (λ r, GP.chrom r = c ∧ ∃ d, (d, a) ∈ GP.junctions r))).


(** Strictly descending keys. *)
Definition key_gt {A} (x y : (Z * Q) * A) : Prop := key_lt y.1 x.1 = true.

(** A same-strand multi-exon reference that compares as exact. *)
Definition exact_ref (cj : genePredRecord → genePredRecord → match_type)
    (trec r : genePredRecord) : Prop :=
  GP.strand trec = GP.strand r ∧ GP.exonCount r ≠ 1 ∧ cj trec r = exact.

(** [abs(diff_tss) + abs(diff_tts)] against a reference. *)
Definition total_diff (trec r : genePredRecord) : Z :=
  Z.abs (get_diff_tss_tts trec r).1 + Z.abs (get_diff_tss_tts trec r).2.

(** The hit records gene, span and exon count of reference [r]. *)
Definition from_ref (r : genePredRecord) (h : myQueryTranscripts) : Prop :=
  QT.genes h = [GP.gene r] ∧ QT.refStart h = Int (GP.txStart r) ∧
  QT.refEnd h = Int (GP.txEnd r) ∧ QT.refExons h = Int (GP.exonCount r).

(** The hit records transcript and end distances of reference [r]. *)
Definition fsm_of (trec r : genePredRecord) (h : myQueryTranscripts) : Prop :=
  QT.transcripts h = [GP.id r] ∧
  QT.tss_diff h = Int (get_diff_tss_tts trec r).1 ∧
  QT.tts_diff h = Int (get_diff_tss_tts trec r).2.

(** What holds of the running hit of a gene after the references [seen]. *)
Record hit_inv (cj : genePredRecord → genePredRecord → match_type)
    (trec : genePredRecord) (seen : list genePredRecord)
    (h : myQueryTranscripts) : Prop := {
  inv_rank : is_Some (cat_ranking (QT.str_class h));
  inv_none : QT.str_class h = no_class → QT.genes h = [];
  inv_ref : QT.str_class h ≠ no_class → ∃ r, r ∈ seen ∧ from_ref r h;
  inv_ism : QT.str_class h = incomplete_splice_match →
            ∃ a b, QT.tss_diff h = Int a ∧ QT.tts_diff h = Int b;
  inv_exact : Exists (exact_ref cj trec) seen → QT.str_class h = full_splice_match;
  inv_fsm : QT.str_class h = full_splice_match →
            ∃ r, r ∈ seen ∧ exact_ref cj trec r ∧ from_ref r h ∧ fsm_of trec r h ∧
                 ∀ r', r' ∈ seen → exact_ref cj trec r' →
                       total_diff trec r ≤ total_diff trec r'
}.

(** The tuple built from an entry of [best_by_gene] whose class is ranked. *)
Definition tuple_of (gh : string * myQueryTranscripts) : geneHitTuple :=
  mkGeneHit (default 0 (cat_ranking (QT.str_class gh.2)))
            (QT.refStart gh.2) (QT.refEnd gh.2) gh.1 gh.2.

(** A hit whose class is ranked and which, when it has a class, carries a
    nonempty reference span and a reference exon count. *)
Definition rankable (h : myQueryTranscripts) : Prop :=
  is_Some (cat_ranking (QT.str_class h)) ∧
  (QT.str_class h ≠ no_class →
     ∃ s e n, QT.refStart h = Int s ∧ QT.refEnd h = Int e ∧ s ≠ e ∧
              QT.refExons h = Int n).

(** The same-chromosome, span-overlapping references of a query. *)
Definition candidates (refs_1exon refs_exons : gmap string (IntervalTree genePredRecord))
    (trec : genePredRecord) : list genePredRecord :=
  find_refs refs_exons trec ++ find_refs refs_1exon trec.

(** The tree of chromosome [c] holds the entry [x]. *)
Definition in_tree (m : gmap string (IntervalTree genePredRecord)) (c : string)
    (x : Z * Z * genePredRecord) : Prop :=
  ∃ t, m !! c = Some t ∧ x ∈ t.

(** A list in non-decreasing order for the strict order [lt]. *)
Definition ascending {A} (lt : A → A → bool) (a : list A) : Prop :=
  ∀ i j u v, (i < j)%nat → a !! i = Some u → a !! j = Some v → lt v u = false.

(** [u <= v < x] gives [u < x]. *)
Definition weak_order {A} (lt : A → A → bool) : Prop :=
  ∀ u v x, lt v u = false → lt v x = true → lt u x = true.

(** Gene [g] has the junction [j]. *)
Definition gene_junction (m : gmap string (gset (Z * Z))) (g : string) (j : Z * Z) : Prop :=
  ∃ s, m !! g = Some s ∧ j ∈ s.

(** Chromosome [c] has the donor-acceptor pair [j] in a build state. *)
Definition chr_pair (m : gmap string chr_sets) (c : string) (j : Z * Z) : Prop :=
  ∃ cs, m !! c = Some cs ∧ j ∈ s_da_pairs cs.

(** In every chromosome entry the donors are the first components of the
    pairs and the acceptors the second components. *)
Definition sites_of_pairs (m : gmap string chr_sets) : Prop :=
  ∀ c cs, m !! c = Some cs →
    (∀ d, d ∈ s_donors cs ↔ ∃ a, (d, a) ∈ s_da_pairs cs) ∧
    (∀ a, a ∈ s_acceptors cs ↔ ∃ d, (d, a) ∈ s_da_pairs cs) ∧
    s_da_pairs cs ≠ ∅.

(** Gene [g] has the transcript start [x] (respectively end [y]). *)
Definition gene_begin (m : gmap string gene_bounds) (g : string) (x : Z) : Prop :=
  ∃ bs, m !! g = Some bs ∧ x ∈ b_begin bs.

Definition gene_end (m : gmap string gene_bounds) (g : string) (y : Z) : Prop :=
  ∃ bs, m !! g = Some bs ∧ y ∈ b_end bs.

(** The positions covered by a list of exons, and their boundaries. *)
Definition covered (exons : list Interval) : gset Z :=
  list_to_set (exons ≫= exon_bases).

Definition boundaries (exons : list Interval) : gset Z :=
  list_to_set (exons ≫= λ e, [i_start e; i_end e]).

(** The tuple carries the reference span [s, e), with [s < e]. *)
Definition has_span (t : geneHitTuple) (s e : Z) : Prop :=
  rStart t = Int s ∧ rEnd t = Int e ∧ s < e.

(** Two tuples whose reference spans share no position. *)
Definition spans_apart (t1 t2 : geneHitTuple) : Prop :=
  ∃ s1 e1 s2 e2, has_span t1 s1 e1 ∧ has_span t2 s2 e2 ∧ (e1 ≤ s2 ∨ e2 ≤ s1).

(** All starts (respectively ends) recorded for the genes of a list. *)
Definition starts_of (m : gmap string gene_bounds) (genes : list string) : list Z :=
  genes ≫= λ g, elements (b_begin (default empty_bounds (m !! g))).

Definition ends_of (m : gmap string gene_bounds) (genes : list string) : list Z :=
  genes ≫= λ g, elements (b_end (default empty_bounds (m !! g))).

(** The rank of the category that the body of the per-gene loop can give
    to a query on account of the single reference [ref]: the tests are
    those of [score_ref], taken without regard to the running hit. *)
Definition ref_rank (cj : genePredRecord → genePredRecord → match_type)
    (trec ref : genePredRecord) : Z :=
  if bool_decide (GP.strand trec ≠ GP.strand ref) then 0
  else if bool_decide (GP.exonCount ref = 1) then
    if bool_decide (0 < calc_exon_overlap (GP.exons trec) (GP.exons ref)) then 1 else 0
  else
    match cj trec ref with
    | exact => 5
    | subset => 4
    | partial | concordant | super => 3
    | nomatch =>
        if bool_decide (0 < calc_splicesite_agreement (GP.exons trec) (GP.exons ref)) then 2
        else if bool_decide (0 < calc_exon_overlap (GP.exons trec) (GP.exons ref)) then 1
        else 0
    end.

(** The hit left for a gene all of whose candidates lie on the other
    strand. *)
Definition opposite_hit (trec : genePredRecord) (polyA : string * string)
    (gr : string * list genePredRecord) : string * myQueryTranscripts :=
  (gr.1, QT.set_AS_genes (list_to_set (GP.gene <$> gr.2) ∪ ∅) (fresh_hit trec polyA)).

(** What holds of the running hit of the first loop of the single-exon
    branch after the references [seen]. *)
Definition mono_inv (trec : genePredRecord) (seen : list genePredRecord)
    (h : myQueryTranscripts) : Prop :=
  (QT.str_class h = no_class ∧ QT.genes h = [] ∧
   ∀ r, r ∈ seen → GP.strand r ≠ GP.strand trec) ∨
  (QT.str_class h = full_splice_match ∧ QT.subtype h = "mono-exon"%string ∧
   ∃ r, r ∈ seen ∧ GP.strand r = GP.strand trec ∧
        QT.genes h = [GP.gene r] ∧ QT.transcripts h = [GP.id r] ∧
        QT.tss_diff h = Int (get_diff_tss_tts trec r).1 ∧
        QT.tts_diff h = Int (get_diff_tss_tts trec r).2 ∧
        QT.refLen h = Int (GP.length r) ∧ QT.refExons h = Int (GP.exonCount r) ∧
        ∀ r', r' ∈ seen → GP.strand r' = GP.strand trec →
              total_diff trec r ≤ total_diff trec r').

(** [m] occurs in [s] after the prefix [pre] and before [post]. *)
Definition occurs_at (m s pre post : list ascii) : Prop := s = pre ++ m ++ post.

(** A BED line of the queried chromosome and strand whose peak overlaps
    the window around the query. *)
Definition in_window (chrom strand : string) (query w : Z) (l : bed_line) : Prop :=
  b_chrom l = chrom ∧ b_strand l = strand ∧
  b_start0 l < query + w ∧ query - w < b_end1 l.

(** A peak of the window that the loop does not skip. *)
Definition eligible (chrom strand : string) (query w : Z) (l : bed_line) : Prop :=
  in_window chrom strand query w l ∧
  ¬ (strand = "+"%string ∧ b_start0 l > query ∧ b_end1 l > query) ∧
  ¬ (strand = "-"%string ∧ b_start0 l < query ∧ b_end1 l < query).

(** The hit is not skipped by the loop. *)
Definition taken (strand : string) (query : Z) (hit : Z * Z * Z) : Prop :=
  ¬ (strand = "+"%string ∧ hit.1.2 > query ∧ hit.2 > query) ∧
  ¬ (strand = "-"%string ∧ hit.1.2 < query ∧ hit.2 < query).

(** The running pair is the initial one, no hit having been taken, or it
    describes one of the hits taken. *)
Definition cage_inv (strand : string) (query : Z) (seen : list (Z * Z * Z))
    (acc : bool * na_int) : Prop :=
  (acc = (false, NA) ∧ ∀ h, h ∈ seen → ¬ taken strand query h) ∨
  (∃ h, h ∈ seen ∧ taken strand query h ∧
        acc = (bool_decide (h.1.2 ≤ query ∧ query < h.2),
               Int ((query - h.1.1) * (if bool_decide (strand = "-"%string) then -1 else 1)))).

(** Exons listed in ascending order, none empty, none touching the
    next. *)
Definition exons_in_order (starts ends : list Z) : Prop :=
  (∀ i s e, starts !! i = Some s → ends !! i = Some e → s < e) ∧
  (∀ i e s, ends !! i = Some e → starts !! S i = Some s → e < s).

(** The nine categories of a finished classification. *)
Definition final_category (c : category) : Prop :=
  c ∈ [full_splice_match; incomplete_splice_match; novel_in_catalog;
       novel_not_in_catalog; fusion; genic; genic_intron; intergenic; antisense].

(** The query span lies within one exon of [r]. *)
Definition within_exon (trec r : genePredRecord) : Prop :=
  Exists (λ e, i_start e ≤ GP.txStart trec ∧ GP.txStart trec < GP.txEnd trec
               ∧ GP.txEnd trec ≤ i_end e) (GP.exons r).

(** The query span lies within the span of [r]. *)
Definition within_span (trec r : genePredRecord) : Prop :=
  GP.txStart r ≤ GP.txStart trec ∧ GP.txStart trec < GP.txEnd trec
  ∧ GP.txEnd trec ≤ GP.txEnd r.

(** The second loop of the single-exon branch moves past [r]: no exonic
    overlap, or the other strand, or the query within neither an exon nor
    the span of [r]. *)
Definition passed_over (trec r : genePredRecord) : Prop :=
  calc_exon_overlap (GP.exons trec) (GP.exons r) = 0 ∨
  GP.strand r ≠ GP.strand trec ∨
  (¬ within_exon trec r ∧ ¬ within_span trec r).

(** ** Concrete scenarios *)

(** An instance of the gene-list sort for the scenarios below: insertion
    by strict inclusion of the begin sets. *)
Definition begin_set (m : gmap string gene_bounds) (g : string) : gset Z :=
  default ∅ (b_begin <$> m !! g).

Fixpoint insert_gene (m : gmap string gene_bounds) (g : string) (l : list string)
    : list string :=
  match l with
  | [] => [g]
  | g' :: l' =>
      if bool_decide (begin_set m g' ⊂ begin_set m g)
      then g' :: insert_gene m g l' else g :: g' :: l'
  end.

Definition sort_genes_by_inclusion (m : gmap string gene_bounds) (l : list string)
    : list string :=
  foldr (insert_gene m) [] l.

(** A genome whose window downstream of every site holds no A. *)
Definition no_A_downstream (trec : genePredRecord) (pos_TTS : Z) : option (string * string) :=
  Some ("0.0", "CCCCCCCCCCCCCCCCCCCC")%string.

(** A genome with a canonical GT-AG motif at every junction. *)
Definition all_GTAG (trec : genePredRecord) (i : nat) : option string :=
  Some "GTAG"%string.

Definition run_classify (idx : ref_index) (rec : genePredRecord) : option myQueryTranscripts :=
  classify compare_junctions_spec sort_genes_by_inclusion no_A_downstream idx rec.

(** Reference gene G with exons (100,200),(300,400) on the plus strand. *)
Definition line_G : genePredLine :=
  mkLine "G.1" "chr1" "+" 100 400 100 400 2 [100; 300] [200; 400] "G".

(** Query with exons (100,200),(300,450). *)
Definition line_Q : genePredLine :=
  mkLine "Q" "chr1" "+" 100 450 100 450 2 [100; 300] [200; 450] "".

(** A line shorter than 200 bases, with one exon. *)
Definition line_short : genePredLine :=
  mkLine "S.1" "chr1" "+" 1000 1050 1000 1050 1 [1000] [1050] "S".


(** A query with no exon at all. *)
Definition line_no_exon : genePredLine :=
  mkLine "Z" "chr1" "+" 100 400 100 400 0 [] [] "".

(** Index the reference lines with the default minimum length of 200,
    construct the query and classify it. *)
Definition classify_lines (refs : list genePredLine) (q : genePredLine)
    : option myQueryTranscripts :=
  idx ← reference_parser 200 false refs;
  rec ← genePredRecord_init q;
  run_classify idx rec.

(** The junction rows of a query against indexed reference lines. *)
Definition junction_rows (refs : list genePredLine) (q : genePredLine)
    : option (list junction_row) :=
  idx ← reference_parser 200 false refs;
  rec ← genePredRecord_init q;
  write_junctionInfo all_GTAG rec (junctions_by_chr idx) ["GTAG"; "GCAG"; "ATAC"]%string.

(** A query whose junction (197,302) lies 3 bases before the donor 200 and
    2 bases after the acceptor 300 of G. *)
Definition line_bite_both : genePredLine :=
  mkLine "B" "chr1" "+" 100 450 100 450 2 [100; 302] [197; 450] "".

(** A query whose junction (197,298) lies 3 bases before the donor and 2
    bases before the acceptor of G. *)
Definition line_bite_one : genePredLine :=
  mkLine "B" "chr1" "+" 100 450 100 450 2 [100; 298] [197; 450] "".

(** Reference gene H with one intron (200,500). *)
Definition line_H : genePredLine :=
  mkLine "H.1" "chr1" "+" 100 600 100 600 2 [100; 500] [200; 600] "H".

(** A single-exon query (250,350) inside the intron of H. *)
Definition line_in_intron : genePredLine :=
  mkLine "I" "chr1" "+" 250 350 250 350 1 [250] [350] "".

(** Genes G1 and G2: the junction (200,300) belongs to T1 of G1 and to T2b
    of G2; T2a of G2 lies downstream of both. *)
Definition line_T1 : genePredLine :=
  mkLine "T1" "chr1" "+" 100 400 100 400 2 [100; 300] [200; 400] "G1".
Definition line_T2b : genePredLine :=
  mkLine "T2b" "chr1" "+" 150 450 150 450 2 [150; 300] [200; 450] "G2".
Definition line_T2a : genePredLine :=
  mkLine "T2a" "chr1" "+" 500 800 500 800 2 [500; 700] [600; 800] "G2".

(** A query joining the exons of T1 and of T2a. *)
Definition line_F : genePredLine :=
  mkLine "F" "chr1" "+" 100 800 100 800 4 [100; 300; 500; 700] [200; 400; 600; 800] "".


(** The junction set of a gene holds [j]. *)
Definition gene_has_junction (idx : ref_index) (g : string) (j : Z * Z) : bool :=
  bool_decide (j ∈ default (∅ : gset (Z * Z)) (junctions_by_gene idx !! g)).

(** The query F as a record, and the best hits of two genes for it: G1
    through T1 and G2 through T2a, the latter with a lower composite
    score. *)
Definition rec_F : genePredRecord :=
  GP.mk "F" "chr1" "+" 100 800 100 800 4 [100; 300; 500; 700] [200; 400; 600; 800] ""
        400 [mkInterval 100 200; mkInterval 300 400; mkInterval 500 600; mkInterval 700 800]
        [(200, 300); (400, 500); (600, 700)].

Definition hit_G1 : myQueryTranscripts :=
  new_hit "F" NA NA 4 400 anyKnownJunction "no_subcategory" "chr1" "+"
          ["G1"%string] ["novel"%string] (Int 200) (Int 2) (Int 100) (Int 400) 4 200
          ("0.0", "")%string.

Definition hit_G2 : myQueryTranscripts :=
  new_hit "F" NA NA 4 400 anyKnownJunction "no_subcategory" "chr1" "+"
          ["G2"%string] ["novel"%string] (Int 200) (Int 2) (Int 500) (Int 800) 2 100
          ("0.0", "")%string.

(** The records that the constructor builds from the lines of G and Q. *)
Definition rec_G : genePredRecord :=
  GP.mk "G.1" "chr1" "+" 100 400 100 400 2 [100; 300] [200; 400] "G"
        200 [mkInterval 100 200; mkInterval 300 400] [(200, 300)].

Definition rec_Q : genePredRecord :=
  GP.mk "Q" "chr1" "+" 100 450 100 450 2 [100; 300] [200; 450] ""
        250 [mkInterval 100 200; mkInterval 300 450] [(200, 300)].

(** The index of the single reference line of gene G, and its
    chromosome entry. *)
Definition idx_G : ref_index := index_records 200 false [rec_G].

Definition chr1_G : chr_junctions := mkChrJunctions [200] [300] [(200, 300)].

(** Gene H with the intron (200,500), and a query that starts at the
    donor of that intron and ends inside it. *)
Definition rec_H : genePredRecord :=
  GP.mk "H.1" "chr1" "+" 100 600 100 600 2 [100; 500] [200; 600] "H"
        200 [mkInterval 100 200; mkInterval 500 600] [(200, 500)].

Definition rec_at_donor : genePredRecord :=
  GP.mk "I" "chr1" "+" 200 350 200 350 1 [200] [350] ""
        150 [mkInterval 200 350] [].

(** A query whose first exon spans the intron (200,300) of G. *)
Definition rec_retained : genePredRecord :=
  GP.mk "R" "chr1" "+" 100 600 100 600 2 [100; 500] [400; 600] ""
        400 [mkInterval 100 400; mkInterval 500 600] [(400, 500)].

Definition row_Q : junction_row :=
  mkRow 1 201 300 "known" "known" "known" 0 0 "FALSE" "GTAG" "canonical".

(** A reference with three junctions and a query that holds the first
    two. *)
Definition rec_R3 : genePredRecord :=
  GP.mk "R3.1" "chr1" "+" 100 800 100 800 4 [100; 300; 500; 700] [200; 400; 600; 800] "R3"
        400 [mkInterval 100 200; mkInterval 300 400; mkInterval 500 600; mkInterval 700 800]
        [(200, 300); (400, 500); (600, 700)].

Definition rec_front : genePredRecord :=
  GP.mk "Qf" "chr1" "+" 100 600 100 600 3 [100; 300; 500] [200; 400; 600] ""
        300 [mkInterval 100 200; mkInterval 300 400; mkInterval 500 600]
        [(200, 300); (400, 500)].

(** A minus-strand query over the span of G. *)
Definition rec_minus : genePredRecord :=
  GP.mk "M" "chr1" "-" 100 450 100 450 2 [100; 300] [200; 450] ""
        250 [mkInterval 100 200; mkInterval 300 450] [(200, 300)].

(** A query far downstream of G. *)
Definition rec_far : genePredRecord :=
  GP.mk "Far" "chr1" "+" 5000 5400 5000 5400 2 [5000; 5300] [5100; 5400] ""
        200 [mkInterval 5000 5100; mkInterval 5300 5400] [(5100, 5300)].

(** A single-exon reference gene S2 and a single-exon query that overlaps
    it by one base. *)
Definition line_S2 : genePredLine :=
  mkLine "S2.1" "chr1" "+" 1000 1300 1000 1300 1 [1000] [1300] "S2".

Definition rec_S2 : genePredRecord :=
  GP.mk "S2.1" "chr1" "+" 1000 1300 1000 1300 1 [1000] [1300] "S2"
        300 [mkInterval 1000 1300] [].

Definition rec_touch : genePredRecord :=
  GP.mk "T" "chr1" "+" 1299 2000 1299 2000 1 [1299] [2000] ""
        701 [mkInterval 1299 2000] [].

(** Two peaks on chr1, plus strand. *)
Definition bed_two : list bed_line :=
  [mkBed "chr1" 1000 1010 "+" 1005; mkBed "chr1" 1040 1050 "+" 1045].

(** A single-exon query inside the second exon of G. *)
Definition rec_in_exon : genePredRecord :=
  GP.mk "E" "chr1" "+" 320 380 320 380 1 [320] [380] ""
        60 [mkInterval 320 380] [].

(** * Properties *)

Ltac inv_some :=
  repeat match goal with
         | H : Some _ = Some _ |- _ => inversion H; subst; clear H
         | H : None = Some _ |- _ => discriminate H
         | H : Some _ = None |- _ => discriminate H
         end.

(** ** The record constructor *)

Lemma junctions_upto_length ss es idxs js :
  junctions_upto ss es idxs = Some js → length js = length idxs.
Proof.
  revert js. induction idxs as [|i idxs IH]; intros js H; simpl in H.
  - by inv_some.
  - destruct (junction_at ss es i); simpl in H; [|done].
    destruct (junctions_upto ss es idxs) eqn:E; simpl in H; [|done].
    inv_some. simpl. f_equal. by apply IH.
Qed.

Lemma junction_at_is_Some ss es i :
  is_Some (junction_at ss es i) ↔ (i < length es)%nat ∧ (S i < length ss)%nat.
Proof.
  unfold junction_at. rewrite <- !lookup_lt_is_Some. split.
  - intros [j H]. destruct (es !! i); simpl in H; [|done].
    destruct (ss !! S i); simpl in H; [|done]. eauto.
  - intros [[d ->] [a ->]]. simpl. eauto.
Qed.

Lemma junctions_upto_is_Some ss es idxs :
  is_Some (junctions_upto ss es idxs) ↔
  Forall (λ i, (i < length es)%nat ∧ (S i < length ss)%nat) idxs.
Proof.
  induction idxs as [|i idxs IH]; simpl.
  - split; [constructor | eauto].
  - rewrite Forall_cons, <- IH, <- junction_at_is_Some. split.
    + intros [js H]. destruct (junction_at ss es i); simpl in H; [|done].
      destruct (junctions_upto ss es idxs); simpl in H; [|done]. eauto.
    + intros [[j ->] [js ->]]. simpl. eauto.
Qed.

Lemma constructed_junctions_length r :
  constructed r → length (GP.junctions r) = Z.to_nat (GP.exonCount r - 1).
Proof.
  intros [l H]. unfold genePredRecord_init in H.
  destruct (junctions_upto _ _ _) as [js|] eqn:E; simpl in H; [|done].
  inv_some. simpl. apply junctions_upto_length in E. by rewrite length_seq in E.
Qed.

Lemma constructed_multi_exon r j :
  constructed r → j ∈ GP.junctions r → 2 ≤ GP.exonCount r.
Proof.
  intros Hc Hj. apply constructed_junctions_length in Hc.
  destruct (GP.junctions r); [by apply elem_of_nil in Hj|]. simpl in Hc. lia.
Qed.

Lemma genePredReader_Some lines recs :
  genePredReader lines = Some recs →
  Forall2 (λ l r, genePredRecord_init l = Some r) lines recs.
Proof.
  revert recs. induction lines as [|l lines IH]; intros recs H; simpl in H.
  - inv_some. constructor.
  - destruct (genePredRecord_init l) eqn:E; simpl in H; [|done].
    destruct (genePredReader lines); simpl in H; [|done].
    inv_some. constructor; auto.
Qed.

Lemma genePredReader_constructed lines recs :
  genePredReader lines = Some recs → Forall constructed recs.
Proof.
  intros H. apply genePredReader_Some in H.
  induction H; constructor; [by eexists | done].
Qed.

(** ** The reference index *)

Lemma tree_insert_Permutation {A} s e (v : A) t :
  tree_insert s e v t ≡ₚ (s, e, v) :: t.
Proof.
  induction t as [|x t IH]; simpl; [done|].
  case_bool_decide; [|done]. rewrite IH. apply perm_swap.
Qed.

Lemma tree_values_insert s e x k m c r :
  r ∈ tree_values (dd_update [] (tree_insert s e x) k m) c ↔
  r ∈ tree_values m c ∨ (k = c ∧ r = x).
Proof.
  unfold tree_values, dd_update. destruct (decide (k = c)) as [->|Hne].
  - rewrite lookup_insert_eq. simpl. rewrite tree_insert_Permutation, fmap_cons.
    rewrite elem_of_cons. simpl. tauto.
  - rewrite lookup_insert_ne by done. split; [tauto|]. by intros [?|[? _]].
Qed.

Lemma add_junctions_trees chrom gene b js :
  bd_1exon (foldl (add_junction chrom gene) b js) = bd_1exon b ∧
  bd_exons (foldl (add_junction chrom gene) b js) = bd_exons b ∧
  bd_bounds (foldl (add_junction chrom gene) b js) = bd_bounds b.
Proof.
  revert b. induction js as [|j js IH]; intros b; simpl; [done|].
  destruct (IH (add_junction chrom gene b j)) as (-> & -> & ->). done.
Qed.

Lemma index_record_skip min_ref_len is_fusion b r :
  ¬ kept min_ref_len is_fusion r → index_record min_ref_len is_fusion b r = b.
Proof.
  intros Hk. unfold index_record, kept in *.
  destruct is_fusion; [tauto|]. rewrite bool_decide_true by lia. done.
Qed.

Lemma index_record_indexed min_ref_len is_fusion b x r :
  indexed_b (index_record min_ref_len is_fusion b x) r ↔
  indexed_b b r ∨ (r = x ∧ kept min_ref_len is_fusion x).
Proof.
  destruct (decide (kept min_ref_len is_fusion x)) as [Hk|Hk].
  2:{ rewrite index_record_skip by done. tauto. }
  unfold index_record.
  replace (bool_decide (GP.length x < min_ref_len) && negb is_fusion) with false.
  2:{ symmetry. destruct Hk as [->|Hk]; [by rewrite andb_false_r|].
      by rewrite bool_decide_false by lia. }
  unfold indexed_b. case_bool_decide; simpl.
  - rewrite tree_values_insert. split.
    + intros [[?|[_ ->]]|?]; tauto.
    + intros [[?|?]|[-> _]]; tauto.
  - destruct (add_junctions_trees (GP.chrom x) (GP.gene x)
      (mkBuild (bd_1exon b)
         (dd_update [] (tree_insert (GP.txStart x) (GP.txEnd x) x) (GP.chrom x) (bd_exons b))
         (bd_junc_chr b) (bd_junc_gene b) (bd_bounds b)) (GP.junctions x))
      as (-> & -> & _). simpl.
    rewrite tree_values_insert. split.
    + intros [?|[?|[_ ->]]]; tauto.
    + intros [[?|?]|[-> _]]; tauto.
Qed.

Lemma index_fold_indexed min_ref_len is_fusion recs b r :
  indexed_b (foldl (index_record min_ref_len is_fusion) b recs) r ↔
  indexed_b b r ∨ (r ∈ recs ∧ kept min_ref_len is_fusion r).
Proof.
  revert b. induction recs as [|x recs IH]; intros b; simpl.
  - rewrite elem_of_nil. tauto.
  - rewrite IH, index_record_indexed, elem_of_cons. naive_solver.
Qed.

Lemma index_records_indexed min_ref_len is_fusion recs r :
  indexed (index_records min_ref_len is_fusion recs) r ↔
  r ∈ recs ∧ kept min_ref_len is_fusion r.
Proof.
  unfold index_records. 
  change (indexed (finish_build ?b) r) with (indexed_b b r).
  rewrite index_fold_indexed. unfold indexed_b, tree_values, empty_build. simpl.
  rewrite !lookup_empty. simpl. rewrite !elem_of_nil. tauto.
Qed.



Lemma add_junction_sourced recs r b j :
  r ∈ recs → 2 ≤ GP.exonCount r → j ∈ GP.junctions r →
  junctions_sourced recs b →
  junctions_sourced recs (add_junction (GP.chrom r) (GP.gene r) b j).
Proof.
  intros Hr Hm Hj [Hg Hc]. split.
  - intros g s j' Hs Hj'. simpl in Hs. unfold dd_update in Hs.
    destruct (decide (GP.gene r = g)) as [<-|Hne].
    + rewrite lookup_insert_eq in Hs. inv_some.
      apply elem_of_union in Hj' as [Hj'|Hj'].
      * apply elem_of_singleton in Hj' as ->. exists r. eauto.
      * destruct (bd_junc_gene b !! GP.gene r) as [s|] eqn:E; simpl in Hj'.
        -- by eapply Hg.
        -- by apply not_elem_of_empty in Hj'.
    + rewrite lookup_insert_ne in Hs by done. by eapply Hg.
  - intros c cs Hs. simpl in Hs. unfold dd_update in Hs.
    destruct (decide (GP.chrom r = c)) as [<-|Hne].
    2:{ rewrite lookup_insert_ne in Hs by done. by apply Hc. }
    rewrite lookup_insert_eq in Hs. inv_some. simpl.
    assert (Hold : ∀ cs0, default empty_chr_sets (bd_junc_chr b !! GP.chrom r) = cs0 →
      (∀ j, j ∈ s_da_pairs cs0 →
         from_multi_exon recs (λ r0, GP.chrom r0 = GP.chrom r ∧ j ∈ GP.junctions r0)) ∧
      (∀ d, d ∈ s_donors cs0 →
         from_multi_exon recs (λ r0, GP.chrom r0 = GP.chrom r ∧ ∃ a, (d, a) ∈ GP.junctions r0)) ∧
      (∀ a, a ∈ s_acceptors cs0 →
         from_multi_exon recs (λ r0, GP.chrom r0 = GP.chrom r ∧ ∃ d, (d, a) ∈ GP.junctions r0))).
    { intros cs0 <-. destruct (bd_junc_chr b !! GP.chrom r) as [cs1|] eqn:E; simpl.
      - by apply Hc.
      - repeat split; intros ? Hx; by apply not_elem_of_empty in Hx. }
    destruct (Hold _ eq_refl) as (Hp & Hd & Ha). destruct j as [d0 a0]. simpl.
    repeat split.
    + intros j' Hj'. apply elem_of_union in Hj' as [Hj'|Hj']; [|by apply Hp].
      apply elem_of_singleton in Hj' as ->. exists r. eauto.
    + intros d Hd'. apply elem_of_union in Hd' as [Hd'|Hd']; [|by apply Hd].
      apply elem_of_singleton in Hd' as ->. exists r. eauto.
    + intros a Ha'. apply elem_of_union in Ha' as [Ha'|Ha']; [|by apply Ha].
      apply elem_of_singleton in Ha' as ->. exists r. eauto.
Qed.

Lemma add_junctions_sourced recs r b js :
  r ∈ recs → 2 ≤ GP.exonCount r → js ⊆ GP.junctions r →
  junctions_sourced recs b →
  junctions_sourced recs (foldl (add_junction (GP.chrom r) (GP.gene r)) b js).
Proof.
  intros Hr Hm. revert b. induction js as [|j js IH]; intros b Hsub Hb; simpl; [done|].
  apply IH.
  - intros x Hx. apply Hsub. by right.
  - apply add_junction_sourced; auto. apply Hsub. by left.
Qed.

Lemma junctions_sourced_ext recs b b' :
  bd_junc_gene b' = bd_junc_gene b → bd_junc_chr b' = bd_junc_chr b →
  junctions_sourced recs b → junctions_sourced recs b'.
Proof. unfold junctions_sourced. by intros -> ->. Qed.

Lemma index_record_sourced min_ref_len is_fusion recs b r :
  r ∈ recs → constructed r →
  junctions_sourced recs b →
  junctions_sourced recs (index_record min_ref_len is_fusion b r).
Proof.
  intros Hr Hc Hb. unfold index_record.
  destruct (bool_decide (GP.length r < min_ref_len) && negb is_fusion); [done|].
  case_bool_decide; [exact Hb|].
  destruct (GP.junctions r) as [|j0 js0] eqn:Ej.
  { simpl. exact Hb. }
  assert (Hm : 2 ≤ GP.exonCount r).
  { apply (constructed_multi_exon r j0); [done|]. rewrite Ej. by left. }
  rewrite <- Ej. cbv zeta.
  eapply junctions_sourced_ext; [reflexivity | reflexivity |].
  apply add_junctions_sourced; [done | done | by intros x Hx |].
  eapply junctions_sourced_ext; [| | exact Hb]; reflexivity.
Qed.

Lemma index_fold_sourced min_ref_len is_fusion recs l b :
  l ⊆ recs → Forall constructed l →
  junctions_sourced recs b →
  junctions_sourced recs (foldl (index_record min_ref_len is_fusion) b l).
Proof.
  revert b. induction l as [|x l IH]; intros b Hsub Hc Hb; simpl; [done|].
  apply Forall_cons in Hc as [Hx Hc]. apply IH; [|done|].
  - intros y Hy. apply Hsub. by right.
  - apply index_record_sourced; auto. apply Hsub. by left.
Qed.

Lemma empty_build_sourced recs : junctions_sourced recs empty_build.
Proof.
  split.
  - intros g s j Hs. simpl in Hs. by rewrite lookup_empty in Hs.
  - intros c cs Hs. simpl in Hs. by rewrite lookup_empty in Hs.
Qed.

Lemma elem_of_merge_sort {A} (R : relation A) `{∀ x y, Decision (R x y)} (l : list A) x :
  x ∈ merge_sort R l ↔ x ∈ l.
Proof. by rewrite merge_sort_Permutation. Qed.

(** C9: after [reference_parser], every junction of [junctions_by_gene]
    and every pair, donor and acceptor of [junctions_by_chr] was read off a
    reference record with at least two exons (of that gene, respectively
    of that chromosome); a single-exon record contributes none. *)
Theorem reference_junctions_from_multi_exon min_ref_len is_fusion lines idx :
  reference_parser min_ref_len is_fusion lines = Some idx →
  ∃ recs, genePredReader lines = Some recs ∧
    (∀ g s j, junctions_by_gene idx !! g = Some s → j ∈ s →
       ∃ r, r ∈ recs ∧ 2 ≤ GP.exonCount r ∧ GP.gene r = g ∧ j ∈ GP.junctions r) ∧
    (∀ c cj, junctions_by_chr idx !! c = Some cj →
       (∀ j, j ∈ da_pairs cj →
          ∃ r, r ∈ recs ∧ 2 ≤ GP.exonCount r ∧ GP.chrom r = c ∧ j ∈ GP.junctions r) ∧
       (∀ d, d ∈ donors cj →
          ∃ r, r ∈ recs ∧ 2 ≤ GP.exonCount r ∧ GP.chrom r = c ∧
               ∃ a, (d, a) ∈ GP.junctions r) ∧
       (∀ a, a ∈ acceptors cj →
          ∃ r, r ∈ recs ∧ 2 ≤ GP.exonCount r ∧ GP.chrom r = c ∧
               ∃ d, (d, a) ∈ GP.junctions r)).
Proof.
  unfold reference_parser. intros H.
  destruct (genePredReader lines) as [recs|] eqn:E; simpl in H; [|done].
  inv_some. exists recs. split; [done|].
  pose proof (index_fold_sourced min_ref_len is_fusion recs recs empty_build
    (λ x Hx, Hx) (genePredReader_constructed _ _ E) (empty_build_sourced recs))
    as [Hg Hc].
  unfold index_records, finish_build. simpl. split.
  - intros g s j Hs Hj. destruct (Hg g s j Hs Hj) as (r & ? & ? & ? & ?). eauto 10.
  - intros c cj Hcj. rewrite lookup_fmap in Hcj.
    destruct (bd_junc_chr _ !! c) as [cs|] eqn:Ecs; simpl in Hcj; [|done].
    inv_some. destruct (Hc c cs Ecs) as (Hp & Hd & Ha). simpl.
    repeat split.
    + intros j Hj. apply elem_of_merge_sort, elem_of_elements in Hj.
      destruct (Hp j Hj) as (r & ? & ? & ? & ?). eauto 10.
    + intros d Hj. apply elem_of_merge_sort, elem_of_elements in Hj.
      destruct (Hd d Hj) as (r & ? & ? & ? & ?). eauto 10.
    + intros a Hj. apply elem_of_merge_sort, elem_of_elements in Hj.
      destruct (Ha a Hj) as (r & ? & ? & ? & ?). eauto 10.
Qed.

Lemma reference_junctions_from_multi_exon_witness :
  ∃ idx, reference_parser 200 false [line_G; line_short] = Some idx ∧
    ∀ g s j, junctions_by_gene idx !! g = Some s → j ∈ s →
      ∃ r, 2 ≤ GP.exonCount r ∧ GP.gene r = g ∧ j ∈ GP.junctions r.
Proof.
  destruct (reference_parser 200 false [line_G; line_short]) as [idx|] eqn:E;
    [|by vm_compute in E].
  exists idx. split; [done|].
  destruct (reference_junctions_from_multi_exon _ _ _ _ E) as (recs & _ & Hg & _).
  intros g s j Hs Hj. destruct (Hg g s j Hs Hj) as (r & _ & ? & ? & ?). eauto.
Defined.

(** ** Malformed records *)


Lemma seq_in_range (n : nat) (P : nat → Prop) :
  Forall P (seq 0 n) ↔ ∀ i, (i < n)%nat → P i.
Proof.
  rewrite Forall_seq. split; intros H i Hi; apply H; lia.
Qed.


(** ** Junction rows *)

(** The claim of a strict XOR fails both ways: with both distances
    negative the flag is TRUE, and with one negative and one positive
    distance it is FALSE. *)
Lemma bite_junction_is_not_xor :
  (∃ row, junction_rows [line_G] line_bite_both = Some [row] ∧
          diff_to_Ref_start_site row = -3 ∧ diff_to_Ref_end_site row = -2 ∧
          bite_junction row = "TRUE"%string) ∧
  (∃ row, junction_rows [line_G] line_bite_one = Some [row] ∧
          diff_to_Ref_start_site row = -3 ∧ diff_to_Ref_end_site row = 2 ∧
          bite_junction row = "FALSE"%string).
Proof.
  split; eexists; (split; [vm_compute; reflexivity|]); repeat split.
Qed.

Lemma junction_info_bite gss trec c sites i j row :
  junction_info gss trec c sites i j = Some row →
  (bite_junction row = "TRUE"%string ↔
     (diff_to_Ref_start_site row < 0 ∨ diff_to_Ref_end_site row < 0) ∧
     diff_to_Ref_start_site row ≤ 0 ∧ diff_to_Ref_end_site row ≤ 0) ∧
  (bite_junction row = "TRUE"%string ∨ bite_junction row = "FALSE"%string).
Proof.
  unfold junction_info. intros H.
  destruct (find_closest_in_list (donors c) j.1) as [s|]; simpl in H; [|done].
  destruct (find_closest_in_list (acceptors c) j.2) as [e|]; simpl in H; [|done].
  destruct (gss trec i) as [site|]; simpl in H; [|done].
  inv_some. simpl.
  repeat case_bool_decide; simpl; split; try (by left); try (by right);
    split; intros; try done; lia.
Qed.

(** C3 (as the code has it): every junction row written for a query has
    [bite_junction] TRUE exactly when at least one of the two distances to
    the reference sites is negative and neither is positive, and FALSE
    otherwise. *)
Theorem bite_junction_negative_and_none_positive gss trec jbc sites rows :
  write_junctionInfo gss trec jbc sites = Some rows →
  Forall (λ row,
    (bite_junction row = "TRUE"%string ↔
       (diff_to_Ref_start_site row < 0 ∨ diff_to_Ref_end_site row < 0) ∧
       diff_to_Ref_start_site row ≤ 0 ∧ diff_to_Ref_end_site row ≤ 0) ∧
    (bite_junction row = "TRUE"%string ∨ bite_junction row = "FALSE"%string)) rows.
Proof.
  unfold write_junctionInfo. intros H.
  destruct (jbc !! GP.chrom trec) as [c|]; [|inv_some; constructor].
  apply mapM_Some in H. induction H as [|x row xs rows' Hx _ IH]; constructor; [|done].
  by eapply junction_info_bite.
Qed.

Lemma bite_junction_negative_and_none_positive_witness :
  ∃ idx rec rows,
    reference_parser 200 false [line_G] = Some idx ∧
    genePredRecord_init line_bite_both = Some rec ∧
    write_junctionInfo all_GTAG rec (junctions_by_chr idx) ["GTAG"%string] = Some rows ∧
    Forall (λ row,
      (bite_junction row = "TRUE"%string ↔
         (diff_to_Ref_start_site row < 0 ∨ diff_to_Ref_end_site row < 0) ∧
         diff_to_Ref_start_site row ≤ 0 ∧ diff_to_Ref_end_site row ≤ 0) ∧
      (bite_junction row = "TRUE"%string ∨ bite_junction row = "FALSE"%string)) rows.
Proof.
  destruct (reference_parser 200 false [line_G]) as [idx|] eqn:E1;
    [|by vm_compute in E1].
  destruct (genePredRecord_init line_bite_both) as [rec|] eqn:E2;
    [|by vm_compute in E2].
  destruct (write_junctionInfo all_GTAG rec (junctions_by_chr idx) ["GTAG"%string])
    as [rows|] eqn:E3.
  - exists idx, rec, rows. repeat split; try done.
    exact (bite_junction_negative_and_none_positive _ _ _ _ _ E3).
  - vm_compute in E1, E2. inv_some. by vm_compute in E3.
Defined.

(** ** Refinement of junction hits: fusion against moreJunctions *)

(** No junction of the query is ever counted: the list built by
    [itertools.chain] holds sets, and a tuple equals none of them. *)
Lemma py_count_all_ref_junctions jbg genes j :
  py_count (all_ref_junctions jbg genes) (PyTuple j) = 0.
Proof.
  unfold py_count, all_ref_junctions.
  induction genes as [|g genes IH]; simpl; [done|].
  destruct (jbg !! g) as [s|]; simpl; [|exact IH].
  rewrite filter_cons_False by (simpl; discriminate). exact IH.
Qed.

Lemma py_max_list_zeros (l : list Z) m :
  Forall (λ x, x = 0) l → py_max_list l = Some m → m = 0.
Proof.
  destruct l as [|x l]; simpl; [done|]. intros H Hm. inv_some.
  apply Forall_cons in H as [-> H].
  induction H as [|y l -> _ IH]; simpl; [done|]. exact IH.
Qed.

(** Whatever the reference junctions are, [novelIsoformsKnownGenes] never
    assigns [moreJunctions]. *)
Lemma novelIsoformsKnownGenes_never_moreJunctions h trec jbc jbg r :
  novelIsoformsKnownGenes h trec jbc jbg = Some r →
  QT.str_class r ≠ moreJunctions.
Proof.
  unfold novelIsoformsKnownGenes. intros H.
  match type of H with (?m ≫= _) = _ => destruct m as [h1|] eqn:E1 end;
    simpl in H; [|done].
  destruct (has_intron_retention jbc trec) as [ir|]; simpl in H; [|done].
  assert (Hc : QT.str_class h1 ≠ moreJunctions).
  { clear H. revert E1.
    set (genes := elements _).
    assert (Hmulti :
      (py_max_list ((λ j, py_count (all_ref_junctions jbg genes) (PyTuple j))
                      <$> GP.junctions trec) ≫=
       λ m, Some (if bool_decide (m > 1)
                  then QT.set_str_class moreJunctions (QT.set_transcripts ["novel"%string] h)
                  else QT.set_subtype
                         (if bool_decide (GP.exonCount trec = 1)
                          then "mono-exon" else "multi-exon")%string
                         (QT.set_str_class fusion (QT.set_transcripts ["novel"%string] h))))
      = Some h1 → QT.str_class h1 ≠ moreJunctions).
    { intros E. destruct (py_max_list _) as [m|] eqn:Em; simpl in E; [|done].
      apply py_max_list_zeros in Em as ->.
      - simpl in E. inv_some. simpl. discriminate.
      - apply Forall_fmap, Forall_forall. intros j _. simpl.
        apply py_count_all_ref_junctions. }
    destruct genes as [|g [|g' genes']]; [exact Hmulti | | exact Hmulti].
    intros E. destruct (jbg !! g); simpl in E; [|done].
    match type of E with (?m ≫= _) = _ => destruct m as [[]|] end;
      simpl in E; [| |done]; inv_some; simpl; discriminate. }
  inv_some. by destruct ir.
Qed.

(** C2, at the two-gene input where both genes hold the query junction
    (200,300): the refinement answers fusion, not moreJunctions. *)
Theorem shared_junction_classified_as_fusion :
  (idx ← reference_parser 200 false [line_T1; line_T2b; line_T2a];
   Some (gene_has_junction idx "G1" (200, 300) &&
         gene_has_junction idx "G2" (200, 300))) = Some true ∧
  ∃ h, classify_lines [line_T1; line_T2b; line_T2a] line_F = Some h ∧
       QT.genes h = ["G1"; "G2"]%string ∧
       QT.str_class h = fusion ∧ QT.subtype h = "multi-exon"%string.
Proof.
  split; [vm_compute; reflexivity|].
  eexists. split; [vm_compute; reflexivity|]. repeat split.
Qed.

(** ** Refinement of queries without a gene *)

(** C5, at a single-exon query (250,350) that lies inside the known intron
    (200,500) and overlaps no gene on either strand: the category stays
    intergenic, because the scan starts after the pairs that begin before
    the query. *)
Theorem query_inside_intron_stays_intergenic :
  ∃ idx c h,
    reference_parser 200 false [line_H] = Some idx ∧
    junctions_by_chr idx !! "chr1"%string = Some c ∧
    da_pairs c = [(200, 500)] ∧
    classify_lines [line_H] line_in_intron = Some h ∧
    QT.genes h = [] ∧ QT.AS_genes h = ∅ ∧
    QT.str_class h = intergenic.
Proof.
  eexists _, _, _.
  split; [vm_compute; reflexivity|].
  split; [vm_compute; reflexivity|].
  split; [reflexivity|].
  split; [vm_compute; reflexivity|].
  repeat split.
Qed.

(** On a chromosome without any reference junction, a query that overlaps
    no gene on either strand is called antisense, with no gene. *)
Lemma no_reference_junction_gives_antisense :
  ∃ h, classify_lines [] line_in_intron = Some h ∧
       QT.str_class h = antisense ∧ QT.genes h = [] ∧ QT.AS_genes h = ∅.
Proof. eexists. split; [vm_compute; reflexivity|]. repeat split. Qed.

(** ** The scenario of a query that extends the last exon *)

(** The scenario is not an incomplete match with subtype 3prime_fragment. *)
Lemma extended_end_is_not_3prime_fragment :
  ¬ ∃ h, classify_lines [line_G] line_Q = Some h ∧
         QT.str_class h = incomplete_splice_match ∧
         QT.subtype h = "3prime_fragment"%string.
Proof.
  intros (h & H & Hc & _). vm_compute in H. inv_some. discriminate Hc.
Qed.

(** C6 (as the code has it): for reference G with exons (100,200),(300,400)
    and the plus-strand query with exons (100,200),(300,450), the junction
    lists are equal, so the result is a full_splice_match of subtype
    multi-exon with transcript G.1, a TSS distance of 0 and a TTS distance
    of -50. *)
Theorem extended_end_is_full_splice_match :
  ∃ h, classify_lines [line_G] line_Q = Some h ∧
       QT.str_class h = full_splice_match ∧
       QT.subtype h = "multi-exon"%string ∧
       QT.genes h = ["G"%string] ∧
       QT.transcripts h = ["G.1"%string] ∧
       QT.tss_diff h = Int 0 ∧ QT.tts_diff h = Int (-50).
Proof. eexists. split; [vm_compute; reflexivity|]. repeat split. Qed.

(** Had the comparison answered subset, the subtype would be complete:
    the first and the last junction both agree. *)
Lemma extended_end_subtype_if_subset :
  (q ← genePredRecord_init line_Q; g ← genePredRecord_init line_G;
   categorize_incomplete_matches q g) = Some "complete"%string.
Proof. vm_compute. reflexivity. Qed.

(** Whatever [compare_junctions] answers on the scenario, the result is
    never an incomplete match of subtype 3prime_fragment. *)
Lemma extended_end_never_3prime_fragment cj h :
  (idx ← reference_parser 200 false [line_G];
   rec ← genePredRecord_init line_Q;
   classify cj sort_genes_by_inclusion no_A_downstream idx rec) = Some h →
  ¬ (QT.str_class h = incomplete_splice_match ∧ QT.subtype h = "3prime_fragment"%string).
Proof.
  intros H [Hc Hs].
  destruct (reference_parser 200 false [line_G]) as [idx|] eqn:E1; [|by vm_compute in E1].
  destruct (genePredRecord_init line_Q) as [rec|] eqn:E2; [|by vm_compute in E2].
  vm_compute in E1, E2. inv_some. vm_compute in H.
  match type of H with context [cj ?a ?b] => destruct (cj a b) end;
    vm_compute in H; inv_some; discriminate.
Qed.

(** ** The cross-gene merge *)

Lemma set_genes_genes g h : QT.genes (QT.set_genes g h) = g.
Proof. reflexivity. Qed.

Lemma set_genes_set_genes g g' h :
  QT.set_genes g (QT.set_genes g' h) = QT.set_genes g h.
Proof. reflexivity. Qed.

Lemma set_genes_id h : QT.set_genes (QT.genes h) h = h.
Proof. by destruct h. Qed.

(** The merge loop returns the primary hit with some of the remaining
    gene names appended, in their order. *)
Lemma absorb_genes_frame h cur_start cur_end rest h' :
  absorb_genes h cur_start cur_end rest = Some h' →
  ∃ extra, h' = QT.set_genes (QT.genes h ++ extra) h ∧
           extra `sublist_of` (rGene <$> rest).
Proof.
  revert h cur_start cur_end. induction rest as [|t rest IH]; intros h cs ce H; simpl in H.
  - inv_some. exists []. rewrite app_nil_r, set_genes_id. split; [done|constructor].
  - case_bool_decide.
    { inv_some. exists []. rewrite app_nil_r, set_genes_id.
      split; [done|]. apply sublist_nil_l. }
    destruct (calc_overlap cs ce (rStart t) (rEnd t)) as [ov|]; simpl in H; [|done].
    case_bool_decide.
    + destruct (py_min cs (rStart t)) as [s|]; simpl in H; [|done].
      destruct (py_max ce (rEnd t)) as [e|]; simpl in H; [|done].
      apply IH in H as (extra & -> & Hsub).
      exists (rGene t :: extra). rewrite set_genes_genes, set_genes_set_genes, <- app_assoc.
      split; [done|]. simpl. by constructor.
    + apply IH in H as (extra & -> & Hsub).
      exists extra. split; [done|]. simpl. by constructor.
Qed.

(** One step of the loop: a gene of positive rank whose span does not
    overlap the running span is appended to the gene list, and the running
    span grows to cover it. *)
Lemma absorb_genes_step h cs ce s e ov t rest :
  score t ≠ 0 → rStart t = Int s → rEnd t = Int e →
  calc_overlap (Int cs) (Int ce) (Int s) (Int e) = Some ov → ov ≤ 0 →
  absorb_genes h (Int cs) (Int ce) (t :: rest) =
  absorb_genes (QT.set_genes (QT.genes h ++ [rGene t]) h)
               (Int (Z.min cs s)) (Int (Z.max ce e)) rest.
Proof.
  intros Hs Es Ee Hov Hle. rewrite <- Es, <- Ee in Hov.
  cbn [absorb_genes]. rewrite bool_decide_false by done.
  rewrite Hov. cbn [mbind option_bind]. rewrite bool_decide_true by done.
  by rewrite Es, Ee.
Qed.

(** C10: the merge loop changes nothing but the gene list.  Whatever genes
    it absorbs, the result is the primary hit with gene names of the
    remaining candidates appended: category, subtype, transcripts, TSS and
    TTS distances, reference length and exon count, splice-site hits and
    exon overlap are those of the primary gene's best hit. *)
Theorem merge_only_appends_genes h cur_start cur_end rest h' :
  absorb_genes h cur_start cur_end rest = Some h' →
  (∃ extra, QT.genes h' = QT.genes h ++ extra ∧ extra `sublist_of` (rGene <$> rest)) ∧
  QT.str_class h' = QT.str_class h ∧
  QT.subtype h' = QT.subtype h ∧
  QT.transcripts h' = QT.transcripts h ∧
  QT.tss_diff h' = QT.tss_diff h ∧
  QT.tts_diff h' = QT.tts_diff h ∧
  QT.refLen h' = QT.refLen h ∧
  QT.refExons h' = QT.refExons h ∧
  QT.q_splicesite_hit h' = QT.q_splicesite_hit h ∧
  QT.q_exon_overlap h' = QT.q_exon_overlap h ∧
  h' = QT.set_genes (QT.genes h') h.
Proof.
  intros H. apply absorb_genes_frame in H as (extra & -> & Hsub).
  split; [by exists extra|]. repeat split.
Qed.

Lemma merge_only_appends_genes_witness :
  absorb_genes hit_G1 (Int 100) (Int 400)
    [mkGeneHit 3 (Int 500) (Int 800) "G2" hit_G2] =
    Some (QT.set_genes ["G1"; "G2"]%string hit_G1) ∧
  QT.str_class (QT.set_genes ["G1"; "G2"]%string hit_G1) = QT.str_class hit_G1.
Proof.
  assert (H : absorb_genes hit_G1 (Int 100) (Int 400)
                [mkGeneHit 3 (Int 500) (Int 800) "G2" hit_G2] =
              Some (QT.set_genes ["G1"; "G2"]%string hit_G1)) by reflexivity.
  split; [exact H|].
  exact (proj1 (proj2 (merge_only_appends_genes _ _ _ _ _ H))).
Defined.

(** ** The cross-gene sort *)

Lemma key_lt_spec k1 k2 :
  key_lt k1 k2 = true ↔ k1.1 < k2.1 ∨ (k1.1 = k2.1 ∧ (k1.2 < k2.2)%Q).
Proof.
  unfold key_lt. rewrite orb_true_iff, andb_true_iff, !bool_decide_eq_true, Qlt_alt.
  destruct (Qcompare k1.2 k2.2); intuition congruence.
Qed.


Lemma key_lt_asym a b : key_lt a b = true → key_lt b a = true → False.
Proof.
  rewrite !key_lt_spec. intros [H1|[H1 Q1]] [H2|[H2 Q2]]; try lia.
  apply (Qlt_irrefl a.2). by eapply Qlt_trans.
Qed.


Lemma insert_desc_Permutation {A} (x : (Z * Q) * A) l : insert_desc x l ≡ₚ x :: l.
Proof.
  induction l as [|y l IH]; simpl; [done|].
  destruct (key_lt x.1 y.1); [|done]. rewrite IH. apply perm_swap.
Qed.

Lemma sort_desc_Permutation {A} (l : list ((Z * Q) * A)) : sort_desc l ≡ₚ l.
Proof.
  induction l as [|x l IH]; simpl; [done|].
  change (foldr insert_desc [] l) with (sort_desc l).
  by rewrite insert_desc_Permutation, IH.
Qed.

#[local] Instance key_gt_antisymm {A} : AntiSymm (=) (@key_gt A).
Proof. intros x y H1 H2. exfalso. by eapply key_lt_asym. Qed.








(** ** The best hit within one gene *)

Section GeneLoop.

Variable cj : genePredRecord → genePredRecord → match_type.
Variable trec : genePredRecord.
Variable polyA : string * string.

Lemma hit_inv_fresh : hit_inv cj trec [] (fresh_hit trec polyA).
Proof.
  split; simpl; try done. intros H. inversion H.
Qed.

Lemma hit_inv_AS seen a h : hit_inv cj trec seen h → hit_inv cj trec seen (QT.set_AS_genes a h).
Proof. intros []. by split. Qed.

Lemma hit_inv_skip seen h r :
  hit_inv cj trec seen h → ¬ exact_ref cj trec r → hit_inv cj trec (seen ++ [r]) h.
Proof.
  intros [Hrank Hnone Href Hism Hex Hfsm] Hr. constructor.
  - exact Hrank.
  - exact Hnone.
  - intros Hc. destruct (Href Hc) as (r0 & ? & ?). exists r0.
    split; [apply elem_of_app; by left | done].
  - exact Hism.
  - intros He. apply Hex. apply Exists_app in He as [He|He]; [done|].
    apply Exists_cons in He as [He|He]; [done | inversion He].
  - intros Hc. destruct (Hfsm Hc) as (r0 & ? & ? & ? & ? & Hmin). exists r0.
    split; [apply elem_of_app; by left|]. split_and!; try done.
    intros r' Hr' He'. apply elem_of_app in Hr' as [Hr'|Hr']; [by apply Hmin|].
    apply list_elem_of_singleton in Hr' as ->. done.
Qed.

Lemma hit_inv_total seen h :
  hit_inv cj trec seen h → QT.str_class h = full_splice_match →
  ∃ r, r ∈ seen ∧ QT.get_total_diff h = Some (total_diff trec r) ∧
       ∀ r', r' ∈ seen → exact_ref cj trec r' → total_diff trec r ≤ total_diff trec r'.
Proof.
  intros [Hrank Hnone Href Hism Hex Hfsm] Hc.
  destruct (Hfsm Hc) as (r0 & ? & ? & ? & (_ & Ht1 & Ht2) & Hmin).
  exists r0. split_and!; try done.
  unfold QT.get_total_diff. by rewrite Ht1, Ht2.
Qed.

Lemma hit_inv_keep seen h r td :
  hit_inv cj trec seen h → QT.str_class h = full_splice_match →
  QT.get_total_diff h = Some td → ¬ total_diff trec r < td →
  hit_inv cj trec (seen ++ [r]) h.
Proof.
  intros Hinv Hc Htd Hge.
  destruct (hit_inv_total _ _ Hinv Hc) as (r0 & Hr0 & Htd0 & Hmin0).
  rewrite Htd in Htd0. inv_some.
  destruct Hinv as [Hrank Hnone Href Hism Hex Hfsm]. constructor.
  - exact Hrank.
  - exact Hnone.
  - intros Hn. destruct (Href Hn) as (r1 & ? & ?). exists r1.
    split; [apply elem_of_app; by left | done].
  - exact Hism.
  - done.
  - intros _. destruct (Hfsm Hc) as (r1 & ? & ? & ? & Hf & Hmin). exists r1.
    split; [apply elem_of_app; by left|]. split_and!; try done.
    intros r' Hr' He'. apply elem_of_app in Hr' as [Hr'|Hr']; [by apply Hmin|].
    apply list_elem_of_singleton in Hr' as ->.
    destruct Hf as (_ & Ht1 & Ht2). unfold QT.get_total_diff in Htd.
    rewrite Ht1, Ht2 in Htd. simpl in Htd. inv_some. unfold total_diff in *. lia.
Qed.

Lemma hit_inv_new_fsm seen h r sp :
  hit_inv cj trec seen h → exact_ref cj trec r →
  (QT.str_class h ≠ full_splice_match ∨
   ∃ td, QT.get_total_diff h = Some td ∧ total_diff trec r < td) →
  hit_inv cj trec (seen ++ [r])
    (ref_hit trec polyA r (Int (get_diff_tss_tts trec r).1)
       (Int (get_diff_tss_tts trec r).2) full_splice_match "multi-exon" [GP.id r] sp).
Proof.
  intros Hinv Hr Hb. constructor; simpl.
  - by eexists.
  - done.
  - intros _. exists r. split; [apply elem_of_app; right; by left | done].
  - done.
  - done.
  - intros _. exists r. split; [apply elem_of_app; right; by left|].
    split_and!; try done.
    intros r' Hr' He'. apply elem_of_app in Hr' as [Hr'|Hr'].
    + assert (Hc : QT.str_class h = full_splice_match).
      { apply (inv_exact _ _ _ _ Hinv). apply Exists_exists. eauto. }
      destruct Hb as [Hn|(td & Htd & Hlt)]; [done|].
      destruct (hit_inv_total _ _ Hinv Hc) as (r0 & _ & Htd0 & Hmin).
      rewrite Htd in Htd0. inv_some. specialize (Hmin r' Hr' He'). lia.
    + apply list_elem_of_singleton in Hr' as ->. done.
Qed.

(** A hit of a lower class replaces a hit that is not a full match. *)
Lemma hit_inv_new_other seen h r tss tts cls st ts sp :
  hit_inv cj trec seen h → ¬ exact_ref cj trec r → QT.str_class h ≠ full_splice_match →
  cls ∈ [incomplete_splice_match; anyKnownJunction; anyKnownSpliceSite; geneOverlap] →
  (cls = incomplete_splice_match → ∃ a b, tss = Int a ∧ tts = Int b) →
  hit_inv cj trec (seen ++ [r]) (ref_hit trec polyA r tss tts cls st ts sp).
Proof.
  intros Hinv Hr Hn Hcls Hd. constructor; simpl.
  - set_unfold. destruct Hcls as [->|[->|[->|[->|[]]]]]; by eexists.
  - intros ->. set_unfold. naive_solver.
  - intros _. exists r. split; [apply elem_of_app; right; by left | done].
  - exact Hd.
  - intros He. exfalso. apply Hn. apply (inv_exact _ _ _ _ Hinv).
    apply Exists_app in He as [He|He]; [done|].
    apply Exists_cons in He as [He|He]; [done | inversion He].
  - intros ->. set_unfold. naive_solver.
Qed.

Lemma categorize_is_Some r :
  GP.junctions trec ≠ [] → GP.junctions r ≠ [] →
  is_Some (categorize_incomplete_matches trec r).
Proof.
  intros Hq Hr. unfold categorize_incomplete_matches.
  destruct (covers_many_ref_exons trec r); [by eexists|].
  destruct (GP.junctions trec) as [|j js] eqn:E1; [done|].
  destruct (GP.junctions r) as [|j' js'] eqn:E2; [done|].
  simpl. destruct (last (j :: js)) eqn:L1; [|by apply last_None in L1].
  destruct (last (j' :: js')) eqn:L2; [|by apply last_None in L2].
  simpl. by eexists.
Qed.

Ltac finish_other Hinv Ec :=
  first [ by apply hit_inv_skip
        | eapply hit_inv_new_other;
          [exact Hinv | done | congruence
          | apply list_elem_of_In; simpl; tauto
          | let H := fresh in intros H; first [discriminate H | by eauto] ] ].

Ltac class_cases h Hrank :=
  let Ec := fresh "Ec" in
  destruct (QT.str_class h) eqn:Ec; try (by destruct Hrank).

Lemma score_ref_inv seen h r :
  hit_inv cj trec seen h → GP.junctions trec ≠ [] →
  (cj trec r = subset → GP.junctions r ≠ []) →
  ∃ h', score_ref cj trec polyA h r = Some h' ∧ hit_inv cj trec (seen ++ [r]) h'.
Proof.
  intros Hinv Hq Hsub. unfold score_ref.
  case_bool_decide as Hs.
  { eexists. split; [done|]. apply hit_inv_AS, hit_inv_skip; [done|]. by intros [? _]. }

  case_bool_decide as He1.
  { assert (Hne : ¬ exact_ref cj trec r) by (by intros (_ & ? & _)).
    case_bool_decide; [|eexists; split; [done|]; by apply hit_inv_skip].
    pose proof (inv_rank _ _ _ _ Hinv) as Hrank.
    class_cases h Hrank; simpl; eexists; (split; [reflexivity|]).
    all: try (by apply hit_inv_skip).
    eapply hit_inv_new_other; [exact Hinv|done|congruence|apply list_elem_of_In; simpl; tauto|done]. }
  pose proof (inv_rank _ _ _ _ Hinv) as Hrank.
  destruct (cj trec r) eqn:Ecj.
  - (* exact *)
    assert (Hex : exact_ref cj trec r) by done.
    class_cases h Hrank; simpl.
    all: try (eexists; split; [reflexivity|];
              eapply hit_inv_new_fsm; [exact Hinv|done|left; congruence]).
    destruct (hit_inv_total _ _ Hinv Ec) as (r0 & _ & Htd & _).
    rewrite Htd. simpl. eexists. split; [reflexivity|].
    case_bool_decide.
    + eapply hit_inv_new_fsm; [exact Hinv|done|right; eauto].
    + eapply hit_inv_keep; eauto.
  - (* subset *)
    assert (Hne : ¬ exact_ref cj trec r) by (intros (_ & _ & ?); congruence).
    destruct (categorize_is_Some r Hq (Hsub eq_refl)) as [st ->]. simpl.
    class_cases h Hrank; simpl.
    all: try (eexists; split; [reflexivity|]; finish_other Hinv Ec).
    destruct (inv_ism _ _ _ _ Hinv Ec) as (a & b & Ha & Hb).
    unfold QT.get_total_diff. rewrite Ha, Hb. simpl.
    eexists. split; [reflexivity|]. case_bool_decide; finish_other Hinv Ec.
  - (* partial *)
    assert (Hne : ¬ exact_ref cj trec r) by (intros (_ & _ & ?); congruence).
    class_cases h Hrank; simpl.
    all: try (eexists; split; [reflexivity|]; finish_other Hinv Ec).
    destruct (inv_ref _ _ _ _ Hinv ltac:(congruence)) as (r0 & _ & _ & _ & _ & Hre).
    rewrite Hre. simpl.
    repeat case_bool_decide; simpl; eexists; (split; [reflexivity|]);
      finish_other Hinv Ec.
  - (* concordant *)
    assert (Hne : ¬ exact_ref cj trec r) by (intros (_ & _ & ?); congruence).
    class_cases h Hrank; simpl.
    all: try (eexists; split; [reflexivity|]; finish_other Hinv Ec).
    destruct (inv_ref _ _ _ _ Hinv ltac:(congruence)) as (r0 & _ & _ & _ & _ & Hre).
    rewrite Hre. simpl.
    repeat case_bool_decide; simpl; eexists; (split; [reflexivity|]);
      finish_other Hinv Ec.
  - (* super *)
    assert (Hne : ¬ exact_ref cj trec r) by (intros (_ & _ & ?); congruence).
    class_cases h Hrank; simpl.
    all: try (eexists; split; [reflexivity|]; finish_other Hinv Ec).
    destruct (inv_ref _ _ _ _ Hinv ltac:(congruence)) as (r0 & _ & _ & _ & _ & Hre).
    rewrite Hre. simpl.
    repeat case_bool_decide; simpl; eexists; (split; [reflexivity|]);
      finish_other Hinv Ec.
  - (* nomatch *)
    assert (Hne : ¬ exact_ref cj trec r) by (intros (_ & _ & ?); congruence).
    class_cases h Hrank; simpl.
    all: repeat case_bool_decide; simpl; try rewrite Ec; simpl;
      repeat case_bool_decide; simpl.
    all: try (eexists; split; [reflexivity|]; finish_other Hinv Ec).
Qed.
Lemma score_refs_inv seen h rs :
  hit_inv cj trec seen h → GP.junctions trec ≠ [] →
  (∀ r, r ∈ rs → cj trec r = subset → GP.junctions r ≠ []) →
  ∃ h', score_refs cj trec polyA h rs = Some h' ∧ hit_inv cj trec (seen ++ rs) h'.
Proof.
  intros Hinv Hq. revert seen h Hinv.
  induction rs as [|r rs IH]; intros seen h Hinv Hsub; simpl.
  - exists h. by rewrite app_nil_r.
  - destruct (score_ref_inv seen h r Hinv Hq) as (h1 & -> & Hinv1).
    { apply Hsub. by left. }
    simpl. destruct (IH (seen ++ [r]) h1 Hinv1) as (h' & -> & Hinv').
    { intros r' Hr'. apply Hsub. by right. }
    exists h'. split; [done|]. by rewrite <- app_assoc in Hinv'.
Qed.

End GeneLoop.

(** ** Grouping the candidates by gene *)

Lemma hits_add_keys g x hits :
  (hits_add g x hits).*1 = if bool_decide (g ∈ hits.*1) then hits.*1 else hits.*1 ++ [g].
Proof.
  induction hits as [|[g' rs] hits IH]; [done|]. cbn [hits_add].
  destruct (decide (g' = g)) as [->|Hne].
  - rewrite (bool_decide_true (g = g)) by done.
    rewrite !fmap_cons. simpl. rewrite bool_decide_true by (by left). done.
  - rewrite (bool_decide_false (g' = g)) by done.
    rewrite !fmap_cons, IH. simpl. destruct (decide (g ∈ hits.*1)) as [Hin|Hin].
    + rewrite !bool_decide_true; [done | by right | done].
    + rewrite !bool_decide_false; [done | | done].
      intros Hc. apply elem_of_cons in Hc as [->|Hc]; done.
Qed.

Lemma hits_add_sound g x hits g' rs' r :
  (g', rs') ∈ hits_add g x hits → r ∈ rs' →
  (r = x ∧ g' = g) ∨ ∃ rs, (g', rs) ∈ hits ∧ r ∈ rs.
Proof.
  induction hits as [|[g0 rs0] hits IH]; simpl; intros Hin Hr.
  - apply list_elem_of_singleton in Hin. inversion Hin; subst.
    apply list_elem_of_singleton in Hr. by left.
  - case_bool_decide as Hg.
    + subst. apply elem_of_cons in Hin as [Hin|Hin].
      * inversion Hin; subst. apply elem_of_app in Hr as [Hr|Hr].
        -- right. exists rs0. split; [by left | done].
        -- apply list_elem_of_singleton in Hr. by left.
      * right. exists rs'. split; [by right | done].
    + apply elem_of_cons in Hin as [Hin|Hin].
      * inversion Hin; subst. right. exists rs0. split; [by left | done].
      * destruct (IH Hin Hr) as [?|(rs & ? & ?)]; [by left|].
        right. exists rs. split; [by right | done].
Qed.

Lemma hits_add_mono g x hits g' rs r :
  (g', rs) ∈ hits → r ∈ rs → ∃ rs', (g', rs') ∈ hits_add g x hits ∧ r ∈ rs'.
Proof.
  induction hits as [|[g0 rs0] hits IH]; simpl; intros Hin Hr.
  - by apply elem_of_nil in Hin.
  - apply elem_of_cons in Hin as [Hin|Hin].
    + inversion Hin; subst. case_bool_decide.
      * exists (rs0 ++ [x]). split; [by left | apply elem_of_app; by left].
      * exists rs0. split; [by left | done].
    + case_bool_decide.
      * exists rs. split; [by right | done].
      * destruct (IH Hin Hr) as (rs' & ? & ?). exists rs'. split; [by right | done].
Qed.

Lemma hits_add_here g x hits : ∃ rs', (g, rs') ∈ hits_add g x hits ∧ x ∈ rs'.
Proof.
  induction hits as [|[g0 rs0] hits IH]; simpl.
  - exists [x]. split; by left.
  - case_bool_decide.
    + subst. exists (rs0 ++ [x]). split; [by left|]. apply elem_of_app. right. by left.
    + destruct IH as (rs' & ? & ?). exists rs'. split; [by right | done].
Qed.

Lemma group_hits_spec refs :
  NoDup (group_hits refs).*1 ∧
  (∀ g rs r, (g, rs) ∈ group_hits refs → r ∈ rs → r ∈ refs ∧ GP.gene r = g) ∧
  (∀ r, r ∈ refs → ∃ rs, (GP.gene r, rs) ∈ group_hits refs ∧ r ∈ rs).
Proof.
  unfold group_hits. induction refs as [|x refs IH] using rev_ind; simpl.
  - split; [constructor|]. split.
    + intros g rs r H. by apply elem_of_nil in H.
    + intros r H. by apply elem_of_nil in H.
  - rewrite foldl_snoc. destruct IH as (Hnd & Hs & Hc).
    set (hits := foldl _ [] refs) in *. split_and!.
    + rewrite hits_add_keys. case_bool_decide as Hin; [done|].
      apply NoDup_app. split_and!; [done | | apply NoDup_singleton].
      intros g Hg Hg'. apply list_elem_of_singleton in Hg' as ->. done.
    + intros g rs r Hin Hr.
      destruct (hits_add_sound _ _ _ _ _ _ Hin Hr) as [[-> ->]|(rs0 & Hin0 & Hr0)].
      * split; [|done]. apply elem_of_app. right. by left.
      * destruct (Hs _ _ _ Hin0 Hr0). split; [|done]. apply elem_of_app. by left.
    + intros r Hr. apply elem_of_app in Hr as [Hr|Hr].
      * destruct (Hc r Hr) as (rs & Hin & Hrs). by eapply hits_add_mono.
      * apply list_elem_of_singleton in Hr as ->. apply hits_add_here.
Qed.

Lemma NoDup_keys_unique {A B} (l : list (A * B)) k v v' :
  NoDup l.*1 → (k, v) ∈ l → (k, v') ∈ l → v = v'.
Proof.
  induction l as [|[k0 v0] l IH]; simpl; intros Hnd H1 H2.
  - by apply elem_of_nil in H1.
  - apply NoDup_cons in Hnd as [Hk Hnd].
    apply elem_of_cons in H1 as [H1|H1], H2 as [H2|H2].
    + congruence.
    + inversion H1; subst. exfalso. apply Hk.
      apply list_elem_of_fmap. by exists (k0, v').
    + inversion H2; subst. exfalso. apply Hk.
      apply list_elem_of_fmap. by exists (k0, v).
    + by apply IH.
Qed.

(** The entry of a gene holds every candidate of that gene. *)
Lemma group_hits_complete refs g rs r :
  (g, rs) ∈ group_hits refs → r ∈ refs → GP.gene r = g → r ∈ rs.
Proof.
  intros Hin Hr <-. destruct (group_hits_spec refs) as (Hnd & _ & Hc).
  destruct (Hc r Hr) as (rs' & Hin' & Hr').
  by rewrite (NoDup_keys_unique _ _ _ _ Hnd Hin Hin').
Qed.

(** ** The selection across genes *)

Lemma best_hits_inv cj trec polyA groups :
  GP.junctions trec ≠ [] →
  (∀ g rs r, (g, rs) ∈ groups → r ∈ rs → cj trec r = subset → GP.junctions r ≠ []) →
  ∃ best, best_hits cj trec polyA groups = Some best ∧
          Forall2 (λ gr gh, gh.1 = gr.1 ∧ hit_inv cj trec gr.2 gh.2) groups best.
Proof.
  intros Hq. unfold best_hits.
  induction groups as [|[g rs] groups IH]; intros Hsub; simpl.
  - exists []. split; [done | constructor].
  - destruct (score_refs_inv cj trec polyA [] (fresh_hit trec polyA) rs
                (hit_inv_fresh cj trec polyA) Hq) as (h & -> & Hinv).
    { intros r Hr. apply (Hsub g rs); [by left | done]. }
    simpl. destruct IH as (best & -> & Hbest).
    { intros g' rs' r Hin. apply (Hsub g' rs'). by right. }
    simpl. eexists. split; [done|]. constructor; [|done]. by split.
Qed.

Lemma gene_hit_tuples_Some best :
  Forall (λ gh, is_Some (cat_ranking (QT.str_class gh.2))) best →
  gene_hit_tuples best = Some (tuple_of <$> best).
Proof.
  unfold gene_hit_tuples. induction 1 as [|gh best [s Hs] _ IH]; simpl; [done|].
  rewrite Hs, IH. simpl. unfold tuple_of. by rewrite Hs.
Qed.

Lemma rank_le_5 c s : cat_ranking c = Some s → 0 ≤ s ≤ 5.
Proof. destruct c; simpl; intros; inv_some; lia. Qed.

Lemma rank_5_fsm c : cat_ranking c = Some 5 → c = full_splice_match.
Proof. by destruct c. Qed.

Lemma rank_pos_class c s : cat_ranking c = Some s → 0 < s → c ≠ no_class.
Proof. intros H Hs ->. simpl in H. inv_some. lia. Qed.

(** The head of the sorted list has the highest score. *)
Lemma sort_desc_head_max {A} (l : list ((Z * Q) * A)) x rest :
  sort_desc l = x :: rest → Forall (λ y, y.1.1 ≤ x.1.1) rest.
Proof.
  revert x rest. induction l as [|a l IH]; intros x rest; simpl; [done|].
  change (foldr insert_desc [] l) with (sort_desc l).
  destruct (sort_desc l) as [|y r] eqn:E; simpl.
  - intros H. inversion H; subst. constructor.
  - specialize (IH y r eq_refl).
    destruct (key_lt a.1 y.1) eqn:Hlt; intros H; inversion H; subst.
    + rewrite insert_desc_Permutation. constructor; [|done].
      apply key_lt_spec in Hlt. lia.
    + assert (Hya : y.1.1 ≤ x.1.1).
      { destruct (decide (y.1.1 ≤ x.1.1)); [done|]. exfalso.
        assert (key_lt x.1 y.1 = true); [|congruence].
        apply key_lt_spec. left. lia. }
      constructor; [done|]. eapply Forall_impl; [exact IH|]. simpl. intros; lia.
Qed.

Lemma absorb_genes_is_Some h cs ce rest :
  Forall (λ t, ∃ s e, rStart t = Int s ∧ rEnd t = Int e) rest →
  is_Some (absorb_genes h (Int cs) (Int ce) rest).
Proof.
  intros H. revert h cs ce. induction H as [|t rest (s & e & Hs & He) _ IH];
    intros h cs ce; simpl; [by eexists|].
  case_bool_decide; [by eexists|].
  rewrite Hs, He. simpl. case_bool_decide; simpl;
    repeat case_bool_decide; simpl; apply IH.
Qed.

Lemma get_gene_diff_is_Some m trec h :
  Forall (λ g, is_Some (m !! g)) (QT.genes h) →
  ∃ a b, get_gene_diff_tss_tts m trec h = Some (QT.set_gene_diffs a b h).
Proof.
  intros Hg. unfold get_gene_diff_tss_tts.
  assert (Hf : ∀ acc, ∃ ne,
    foldl (λ acc g, '(ns, ne) ← acc; b ← m !! g;
             Some (foldl (nearer (GP.txStart trec)) ns (elements (b_begin b)),
                   foldl (nearer (GP.txEnd trec)) ne (elements (b_end b))))
          (Some acc) (QT.genes h) = Some ne).
  { induction Hg as [|g genes [b Hb] _ IH]; intros acc; simpl; [by eexists|].
    destruct acc as [ns ne]. simpl. rewrite Hb. simpl. apply IH. }
  destruct (Hf (None, None)) as (ne & ->). simpl.
  case_bool_decide; by eexists _, _.
Qed.

Lemma sort_key_score trec x k : sort_key trec x = Some k → k.1 = score x.
Proof.
  unfold sort_key. intros H.
  repeat match type of H with
         | (?m ≫= _) = Some _ => destruct m; simpl in H; [|done]
         end.
  by inv_some.
Qed.

Lemma py_div_Some a b : b ≠ 0 → py_div a b = Some (inject_Z a / inject_Z b)%Q.
Proof. intros H. unfold py_div. by rewrite bool_decide_false. Qed.

Lemma calc_overlap_Int a b c d : ∃ ov, calc_overlap (Int a) (Int b) (Int c) (Int d) = Some ov.
Proof. simpl. case_bool_decide; by eexists. Qed.

Lemma sort_key_is_Some trec gh :
  sumZ ((λ e, i_end e - i_start e) <$> GP.exons trec) ≠ 0 →
  rankable gh.2 → 0 < score (tuple_of gh) →
  is_Some (sort_key trec (tuple_of gh)).
Proof.
  intros Hlen [[s Hs] Hr] Hpos. unfold tuple_of in *. cbn [score] in Hpos.
  rewrite Hs in Hpos. simpl in Hpos.
  destruct (Hr (rank_pos_class _ _ Hs Hpos)) as (a & b & n & Ha & Hb & Hab & Hn).
  unfold sort_key. cbn [score rStart rEnd iso_hit].
  rewrite (py_div_Some _ _ Hlen). cbn [mbind option_bind].
  rewrite Ha, Hb, Hn.
  destruct (calc_overlap_Int a b (GP.txStart trec) (GP.txEnd trec)) as [ov ->].
  cbn [mbind option_bind as_int].
  rewrite py_div_Some by lia. cbn [mbind option_bind]. by eexists.
Qed.

Lemma select_best_fsm trec fallback best :
  sumZ ((λ e, i_end e - i_start e) <$> GP.exons trec) ≠ 0 →
  Forall (λ gh, rankable gh.2) best →
  Exists (λ gh, QT.str_class gh.2 = full_splice_match) best →
  ∃ gh extra,
    select_best trec fallback best =
      Some (inr (QT.set_genes (QT.genes gh.2 ++ extra) gh.2)) ∧
    gh ∈ best ∧ QT.str_class gh.2 = full_splice_match ∧
    extra ⊆ best.*1.
Proof.
  intros Hlen Hbest Hfsm. unfold select_best.
  rewrite gene_hit_tuples_Some by (eapply Forall_impl; [exact Hbest|]; by intros ? []).
  simpl. apply Exists_exists in Hfsm as (ghf & Hinf & Hcf).
  assert (Hposf : 0 < score (tuple_of ghf)).
  { unfold tuple_of. simpl. rewrite Hcf. simpl. lia. }
  assert (Hmem : tuple_of ghf ∈ filter (λ x, 0 < score x) (tuple_of <$> best)).
  { apply list_elem_of_filter. split; [done|]. apply list_elem_of_fmap. eauto. }
  destruct (filter (λ x, 0 < score x) (tuple_of <$> best)) as [|c cs] eqn:Ef;
    [by apply elem_of_nil in Hmem|].
  unfold keyed_candidates. rewrite Ef.
  assert (Hcands : ∀ x, x ∈ c :: cs → ∃ gh, gh ∈ best ∧ x = tuple_of gh ∧ 0 < score x).
  { intros x Hx. rewrite <- Ef in Hx. apply list_elem_of_filter in Hx as [Hpos Hx].
    apply list_elem_of_fmap in Hx as (gh & -> & Hgh). eauto. }
  destruct (mapM (λ x, k ← sort_key trec x; Some (k, x)) (c :: cs)) as [keyed|] eqn:Ek.
  2:{ apply mapM_None_1, Exists_exists in Ek as (x & Hx & Hnone).
      destruct (Hcands x Hx) as (gh & Hgh & -> & Hpos).
      rewrite Forall_forall in Hbest.
      destruct (sort_key_is_Some trec gh Hlen (Hbest gh Hgh) Hpos) as [k Hk].
      rewrite Hk in Hnone. done. }
  apply mapM_Some_1 in Ek. simpl.
  assert (Hkeyed : ∀ kx, kx ∈ keyed →
            kx.2 ∈ c :: cs ∧ kx.1.1 = score kx.2).
  { intros kx Hkx. apply list_elem_of_lookup in Hkx as [i Hi].
    destruct (Forall2_lookup_r _ _ _ _ _ Ek Hi) as (x & Hx & Hkey).
    destruct (sort_key trec x) as [k|] eqn:Es; simpl in Hkey; [|done]. inv_some. simpl.
    split; [by eapply list_elem_of_lookup_2 | by eapply sort_key_score]. }
  assert (Hkf : ∃ kf, kf ∈ keyed ∧ kf.2 = tuple_of ghf).
  { apply list_elem_of_lookup in Hmem as [i Hi].
    destruct (Forall2_lookup_l _ _ _ _ _ Ek Hi) as (kx & Hkx & Hkey).
    destruct (sort_key trec (tuple_of ghf)) as [k|]; simpl in Hkey; [|done]. inv_some.
    eexists. split; [by eapply list_elem_of_lookup_2 | done]. }
  destruct Hkf as (kf & Hkf & Hkf2).
  pose proof (sort_desc_Permutation keyed) as Hperm.
  destruct (sort_desc keyed) as [|top rest] eqn:Esort.
  { rewrite <- Hperm in Hkf. by apply elem_of_nil in Hkf. }
  pose proof (sort_desc_head_max keyed top rest Esort) as Hmax.
  assert (Htop : top ∈ keyed) by (rewrite <- Hperm; by left).
  assert (Hrest : ∀ y, y ∈ rest → y ∈ keyed) by (intros y Hy; rewrite <- Hperm; by right).
  destruct (Hkeyed top Htop) as [Htc Hts].
  destruct (Hcands _ Htc) as (ght & Hght & Htop2 & Htpos).
  assert (H5 : 5 ≤ score top.2).
  { rewrite <- Hts. rewrite <- Hperm in Hkf. apply elem_of_cons in Hkf as [->|Hkf].
    - rewrite Hts, Hkf2. unfold tuple_of. simpl. rewrite Hcf. simpl. lia.
    - rewrite Forall_forall in Hmax. specialize (Hmax kf Hkf).
      destruct (Hkeyed kf (Hrest kf Hkf)) as [_ Hks]. rewrite Hks, Hkf2 in Hmax.
      unfold tuple_of in Hmax. simpl in Hmax. rewrite Hcf in Hmax. simpl in Hmax. lia. }
  rewrite Forall_forall in Hbest.
  destruct (Hbest ght Hght) as [[s Hs] Hspan].
  assert (Hct : QT.str_class ght.2 = full_splice_match).
  { rewrite Htop2 in H5. unfold tuple_of in H5. simpl in H5. rewrite Hs in H5. simpl in H5.
    pose proof (rank_le_5 _ _ Hs). apply rank_5_fsm. rewrite Hs. f_equal. lia. }
  destruct (Hspan ltac:(by rewrite Hct)) as (a & b & n & Ha & Hb & _ & _).
  simpl. rewrite Htop2. simpl. rewrite Ha, Hb.
  assert (Hrs : Forall (λ t, ∃ s e, rStart t = Int s ∧ rEnd t = Int e) (snd <$> rest)).
  { apply Forall_fmap, Forall_forall. intros y Hy. simpl.
    destruct (Hkeyed y (Hrest y Hy)) as [Hyc _].
    destruct (Hcands _ Hyc) as (gh & Hgh & -> & Hpos).
    destruct (Hbest gh Hgh) as [[s' Hs'] Hspan'].
    unfold tuple_of in Hpos. simpl in Hpos. rewrite Hs' in Hpos. simpl in Hpos.
    destruct (Hspan' (rank_pos_class _ _ Hs' Hpos)) as (a' & b' & ? & ? & ? & _).
    unfold tuple_of. simpl. eauto. }
  destruct (absorb_genes_is_Some ght.2 a b _ Hrs) as [h' Hh'].
  change (list_fmap (Z * Q * geneHitTuple)%type geneHitTuple snd rest)
    with (snd <$> rest).
  rewrite Hh'. simpl.
  apply absorb_genes_frame in Hh' as (extra & -> & Hsub).
  exists ght, extra. split_and!; try done.
  intros g Hg. apply (elem_of_sublist _ _ _ Hg) in Hsub.
  apply list_elem_of_fmap in Hsub as (t & -> & Ht).
  apply list_elem_of_fmap in Ht as (y & -> & Hy).
  destruct (Hkeyed y (Hrest y Hy)) as [Hyc _].
  destruct (Hcands _ Hyc) as (gh & Hgh & -> & _).
  unfold tuple_of. simpl. apply list_elem_of_fmap. eauto.
Qed.

(** ** Exact junction matches *)

Lemma spans_sum ss es :
  sumZ ((λ e, i_end e - i_start e) <$> zip_with mkInterval ss es) =
  sumZ (zip_with (λ s e, e - s) ss es).
Proof.
  revert es. induction ss as [|s ss IH]; intros [|e es]; simpl; try done.
  by rewrite IH.
Qed.

Lemma constructed_spans r :
  constructed r → sumZ ((λ e, i_end e - i_start e) <$> GP.exons r) = GP.length r.
Proof.
  intros [l H]. unfold genePredRecord_init in H.
  destruct (junctions_upto _ _ _); simpl in H; [|done]. inv_some. simpl.
  apply spans_sum.
Qed.

Lemma constructed_multi_exon_lists r :
  constructed r → 2 ≤ GP.exonCount r →
  GP.junctions r ≠ [] ∧ is_Some (last (GP.exonEnds r)) ∧ is_Some (head (GP.exonStarts r)).
Proof.
  intros Hc Hm. pose proof (constructed_junctions_length r Hc) as Hlen.
  destruct Hc as [l H]. unfold genePredRecord_init in H.
  destruct (junctions_upto _ _ _) as [js|] eqn:E; simpl in H; [|done]. inv_some.
  simpl in *. split; [destruct js; simpl in Hlen; [lia | done]|].
  assert (Hs : is_Some (junctions_upto (l_exonStarts l) (l_exonEnds l)
                          (seq 0 (Z.to_nat (l_exonCount l - 1))))) by (by eexists).
  apply junctions_upto_is_Some in Hs. rewrite seq_in_range in Hs.
  destruct (Hs 0%nat ltac:(lia)) as [He Hst]. split.
  - destruct (l_exonEnds l) as [|e es] eqn:Ee; [simpl in He; lia|].
    destruct (last (e :: es)) eqn:El; [by eexists | by apply last_None in El].
  - destruct (l_exonStarts l); [simpl in Hst; lia | by eexists].
Qed.

Lemma Forall2_elem_of_r {A B} (P : A → B → Prop) l k y :
  Forall2 P l k → y ∈ k → ∃ x, x ∈ l ∧ P x y.
Proof.
  induction 1 as [|x y' l k Hxy _ IH]; intros Hy.
  - by apply elem_of_nil in Hy.
  - apply elem_of_cons in Hy as [->|Hy].
    + exists x. split; [by left | done].
    + destruct (IH Hy) as (x' & ? & ?). exists x'. split; [by right | done].
Qed.

Lemma Forall2_elem_of_l {A B} (P : A → B → Prop) l k x :
  Forall2 P l k → x ∈ l → ∃ y, y ∈ k ∧ P x y.
Proof.
  induction 1 as [|x' y l k Hxy _ IH]; intros Hx.
  - by apply elem_of_nil in Hx.
  - apply elem_of_cons in Hx as [->|Hx].
    + exists y. split; [by left | done].
    + destruct (IH Hx) as (y' & ? & ?). exists y'. split; [by right | done].
Qed.

Lemma spliced_match_groups cj sg refs_1exon refs_exons start_ends trec polyA :
  group_hits (candidates refs_1exon refs_exons trec) ≠ [] →
  spliced_match cj sg refs_1exon refs_exons start_ends trec polyA =
  (best ← best_hits cj trec polyA (group_hits (candidates refs_1exon refs_exons trec));
   sel ← select_best trec (default (fresh_hit trec polyA) (snd <$> last best)) best;
   match sel with
   | inl h => Some h
   | inr h => finish_hit sg start_ends trec h
   end).
Proof.
  unfold spliced_match, candidates. by destruct (group_hits _).
Qed.

Lemma group_hits_nonempty refs g rs :
  (g, rs) ∈ group_hits refs → ∃ r, r ∈ rs.
Proof.
  unfold group_hits. induction refs as [|x refs IH] using rev_ind; simpl.
  - intros H. by apply elem_of_nil in H.
  - rewrite foldl_snoc. set (hits := foldl _ [] refs) in *. clearbody hits.
    revert IH. induction hits as [|[g0 rs0] hits IHh]; simpl; intros IH Hin.
    + apply list_elem_of_singleton in Hin. inversion Hin; subst. exists x. by left.
    + case_bool_decide.
      * apply elem_of_cons in Hin as [Hin|Hin].
        -- inversion Hin; subst. exists x. apply elem_of_app. right. by left.
        -- apply IH. by right.
      * apply elem_of_cons in Hin as [Hin|Hin].
        -- inversion Hin; subst. apply IH. by left.
        -- apply IHh; [|done]. intros Hin'. apply IH. by right.
Qed.

(** The search over given trees: when a same-strand candidate has the
    junction list of the multi-exon query, the result is a
    full_splice_match whose transcript is an exact match with the least
    |tss_diff| + |tts_diff| among the exact matches of its gene. *)
Lemma exact_match_among_candidates
    cj sg dA refs_1exon refs_exons start_ends trec ref :
  constructed trec → 2 ≤ GP.exonCount trec → GP.length trec ≠ 0 →
  (∀ pos, is_Some (dA trec pos)) →
  (∀ r, GP.junctions r = GP.junctions trec → cj trec r = exact) →
  (∀ r, cj trec r = subset → GP.junctions r ≠ []) →
  (∀ r, r ∈ candidates refs_1exon refs_exons trec →
        GP.txStart r ≠ GP.txEnd r ∧ is_Some (start_ends !! GP.gene r)) →
  ref ∈ find_refs refs_exons trec → constructed ref →
  GP.strand ref = GP.strand trec → GP.junctions ref = GP.junctions trec →
  ∃ h r,
    transcriptsKnownSpliceSites cj sg dA refs_1exon refs_exons start_ends trec = Some h ∧
    QT.str_class h = full_splice_match ∧
    r ∈ candidates refs_1exon refs_exons trec ∧ exact_ref cj trec r ∧
    QT.transcripts h = [GP.id r] ∧
    QT.tss_diff h = Int (get_diff_tss_tts trec r).1 ∧
    QT.tts_diff h = Int (get_diff_tss_tts trec r).2 ∧
    ∀ r', r' ∈ candidates refs_1exon refs_exons trec → GP.gene r' = GP.gene r →
          exact_ref cj trec r' → total_diff trec r ≤ total_diff trec r'.
Proof.
  intros Hct Hmulti Hlen HdA Hexact Hsubset Hcands Href Hcref Hstrand Hjunc.
  destruct (constructed_multi_exon_lists trec Hct Hmulti) as (Hq & [pe Hpe] & [ps Hps]).
  pose proof (constructed_spans trec Hct) as Hsum.
  unfold transcriptsKnownSpliceSites.
  assert (Hpos : ∃ pos, (if bool_decide (GP.strand trec = "+"%string)
                         then last (GP.exonEnds trec) else head (GP.exonStarts trec))
                        = Some pos).
  { case_bool_decide; eauto. }
  destruct Hpos as [pos ->]. simpl. destruct (HdA pos) as [polyA ->]. simpl.
  rewrite bool_decide_true by done.
  set (cands := candidates refs_1exon refs_exons trec) in *.
  assert (Hrefc : ref ∈ cands) by (apply elem_of_app; by left).
  destruct (group_hits_spec cands) as (Hnd & Hsound & Hcomplete).
  destruct (Hcomplete ref Hrefc) as (rs_ref & Hgrp & Hrs).
  assert (Hex_ref : exact_ref cj trec ref).
  { split_and!; [done | | by apply Hexact].
    destruct (GP.junctions ref) as [|j js] eqn:Ej; [congruence|].
    pose proof (constructed_multi_exon ref j Hcref ltac:(rewrite Ej; by left)). lia. }
  destruct (best_hits_inv cj trec polyA (group_hits cands) Hq) as (best & Hbest & Hall).
  { intros g rs r _ _. apply Hsubset. }
  rewrite (spliced_match_groups cj sg refs_1exon refs_exons start_ends trec polyA)
    by (fold cands; intros Hnil; rewrite Hnil in Hgrp; by apply elem_of_nil in Hgrp).
  fold cands.
  rewrite Hbest. simpl.
  (* every best hit is rankable and comes from the candidates of its gene *)
  assert (Hinfo : ∀ gh, gh ∈ best →
            ∃ rs, (gh.1, rs) ∈ group_hits cands ∧ hit_inv cj trec rs gh.2).
  { intros gh Hgh. destruct (Forall2_elem_of_r _ _ _ _ Hall Hgh) as ([g rs] & Hin & Hg & Hinv).
    simpl in *. exists rs. by rewrite Hg. }
  assert (Hrankable : Forall (λ gh, rankable gh.2) best).
  { apply Forall_forall. intros gh Hgh. destruct (Hinfo gh Hgh) as (rs & Hin & Hinv).
    split; [by apply (inv_rank _ _ _ _ Hinv)|]. intros Hc.
    destruct (inv_ref _ _ _ _ Hinv Hc) as (r & Hr & _ & Hs & He & Hn).
    destruct (Hsound _ _ _ Hin Hr) as [Hrc _]. destruct (Hcands r Hrc) as [Hne _].
    eauto 10. }
  assert (Hfsm : Exists (λ gh, QT.str_class gh.2 = full_splice_match) best).
  { destruct (Forall2_elem_of_l _ _ _ _ Hall Hgrp) as (gh & Hgh & _ & Hinv). simpl in Hinv.
    apply Exists_exists. exists gh. split; [done|].
    apply (inv_exact _ _ _ _ Hinv). apply Exists_exists. eauto. }
  rewrite <- Hsum in Hlen.
  destruct (select_best_fsm trec (default (fresh_hit trec polyA) (snd <$> last best))
              best Hlen Hrankable Hfsm) as (ght & extra & -> & Hght & Hct' & Hextra).
  simpl. destruct (Hinfo ght Hght) as (rs_t & Hin_t & Hinv_t).
  destruct (inv_fsm _ _ _ _ Hinv_t Hct') as (r & Hr & Hexr & Hfrom & (Htr & Htss & Htts) & Hmin).
  destruct (Hsound _ _ _ Hin_t Hr) as [Hrc Hrg].
  unfold finish_hit.
  destruct (get_gene_diff_is_Some start_ends trec
              (QT.set_genes (QT.genes ght.2 ++ extra) ght.2)) as (a & b & ->).
  { simpl. apply Forall_app. split.
    - destruct Hfrom as (-> & _). constructor; [|constructor]. by apply Hcands.
    - apply Forall_forall. intros g Hg. apply Hextra in Hg.
      apply list_elem_of_fmap in Hg as (gh & -> & Hgh).
      destruct (Hinfo gh Hgh) as (rs & Hin & Hinv).
      destruct (group_hits_nonempty cands gh.1 rs Hin) as (r0 & Hr0).
      destruct (Hsound _ _ _ Hin Hr0) as [Hr0c <-]. by apply Hcands. }
  simpl. eexists _, r. split; [reflexivity|]. simpl.
  split_and!; try done.
  intros r' Hr' Hg' Hex'. apply Hmin; [|done].
  eapply group_hits_complete; [exact Hin_t | done | congruence].
Qed.

Lemma compare_junctions_spec_exact q r :
  GP.junctions r = GP.junctions q → compare_junctions_spec q r = exact.
Proof. intros H. unfold compare_junctions_spec. by rewrite bool_decide_true. Qed.

Lemma contiguous_in_nil q : contiguous_in q [] = true → q = [].
Proof.
  simpl. rewrite orb_false_r. intros H. apply bool_decide_eq_true in H.
  by apply prefix_nil_inv in H.
Qed.

Lemma compare_junctions_spec_subset q r :
  GP.junctions q ≠ [] → compare_junctions_spec q r = subset → GP.junctions r ≠ [].
Proof.
  unfold compare_junctions_spec. intros Hq H Hr.
  case_bool_decide; [done|].
  destruct (contiguous_in (GP.junctions q) (GP.junctions r)) eqn:E.
  - rewrite Hr in E. by apply contiguous_in_nil in E.
  - by case_bool_decide.
Qed.

(** ** Exact junction matches against the parsed reference *)

Lemma in_tree_insert s e v k m c x :
  in_tree (dd_update [] (tree_insert s e v) k m) c x ↔
  in_tree m c x ∨ (k = c ∧ x = (s, e, v)).
Proof.
  unfold in_tree, dd_update, IntervalTree in *. destruct (decide (k = c)) as [->|Hne].
  - rewrite lookup_insert_eq. split.
    + intros (t & Ht & Hx). inv_some. rewrite tree_insert_Permutation in Hx.
      apply elem_of_cons in Hx as [->|Hx]; [by right|]. left.
      destruct (m !! c) as [t|] eqn:E; simpl in Hx.
      * exists t. by split.
      * by apply elem_of_nil in Hx.
    + intros [(t & Ht & Hx)|[_ ->]].
      * exists (tree_insert s e v t). rewrite Ht. split; [done|].
        rewrite tree_insert_Permutation. by right.
      * eexists. split; [done|]. rewrite tree_insert_Permutation. by left.
  - rewrite lookup_insert_ne by done. split; [tauto|]. by intros [?|[? _]].
Qed.

Lemma in_tree_empty c x : ¬ in_tree ∅ c x.
Proof. intros (t & Ht & _). by rewrite lookup_empty in Ht. Qed.

Lemma find_refs_spec m trec r :
  r ∈ find_refs m trec ↔
  ∃ s e, in_tree m (GP.chrom trec) (s, e, r) ∧ s < GP.txEnd trec ∧ GP.txStart trec < e.
Proof.
  unfold find_refs, in_tree, tree_find. split.
  - intros H. destruct (m !! GP.chrom trec) as [t|]; [|by apply elem_of_nil in H].
    apply list_elem_of_fmap in H as ([[s e] r'] & -> & Hx).
    apply list_elem_of_filter in Hx as [[? ?] Hx]. simpl in *. eauto 10.
  - intros (s & e & (t & -> & Hx) & Hs & He).
    apply list_elem_of_fmap. exists (s, e, r). split; [done|].
    apply list_elem_of_filter. by split.
Qed.

Lemma index_record_kept min_ref_len is_fusion b r :
  kept min_ref_len is_fusion r →
  index_record min_ref_len is_fusion b r =
  if bool_decide (GP.exonCount r = 1) then
    mkBuild
      (dd_update [] (tree_insert (GP.txStart r) (GP.txEnd r) r) (GP.chrom r) (bd_1exon b))
      (bd_exons b) (bd_junc_chr b) (bd_junc_gene b)
      (add_bounds r (bd_bounds b))
  else
    let b2 := foldl (add_junction (GP.chrom r) (GP.gene r))
      (mkBuild (bd_1exon b)
        (dd_update [] (tree_insert (GP.txStart r) (GP.txEnd r) r) (GP.chrom r) (bd_exons b))
        (bd_junc_chr b) (bd_junc_gene b) (bd_bounds b)) (GP.junctions r) in
    mkBuild (bd_1exon b2) (bd_exons b2) (bd_junc_chr b2) (bd_junc_gene b2)
      (add_bounds r (bd_bounds b2)).
Proof.
  intros Hk. unfold index_record.
  replace (bool_decide (GP.length r < min_ref_len) && negb is_fusion) with false; [done|].
  symmetry. destruct Hk as [->|Hk]; [by rewrite andb_false_r|].
  by rewrite bool_decide_false by lia.
Qed.

(** What one record adds to the trees and to the gene bounds. *)
Lemma index_record_exons min_ref_len is_fusion b r c x :
  in_tree (bd_exons (index_record min_ref_len is_fusion b r)) c x ↔
  in_tree (bd_exons b) c x ∨
  (kept min_ref_len is_fusion r ∧ GP.exonCount r ≠ 1 ∧ c = GP.chrom r ∧
   x = (GP.txStart r, GP.txEnd r, r)).
Proof.
  destruct (decide (kept min_ref_len is_fusion r)) as [Hk|Hk].
  2:{ rewrite index_record_skip by done. tauto. }
  rewrite index_record_kept by done. case_bool_decide; simpl.
  - split; [tauto|]. intros [?|(_ & ? & _)]; done.
  - destruct (add_junctions_trees (GP.chrom r) (GP.gene r)
      (mkBuild (bd_1exon b)
         (dd_update [] (tree_insert (GP.txStart r) (GP.txEnd r) r) (GP.chrom r) (bd_exons b))
         (bd_junc_chr b) (bd_junc_gene b) (bd_bounds b)) (GP.junctions r))
      as (_ & -> & _). simpl.
    rewrite in_tree_insert. split.
    + intros [?|[<- ->]]; [by left | by right].
    + intros [?|(_ & _ & -> & ->)]; [by left | by right].
Qed.

Lemma index_record_1exon min_ref_len is_fusion b r c x :
  in_tree (bd_1exon (index_record min_ref_len is_fusion b r)) c x ↔
  in_tree (bd_1exon b) c x ∨
  (kept min_ref_len is_fusion r ∧ GP.exonCount r = 1 ∧ c = GP.chrom r ∧
   x = (GP.txStart r, GP.txEnd r, r)).
Proof.
  destruct (decide (kept min_ref_len is_fusion r)) as [Hk|Hk].
  2:{ rewrite index_record_skip by done. tauto. }
  rewrite index_record_kept by done. case_bool_decide; simpl.
  - rewrite in_tree_insert. split.
    + intros [?|[<- ->]]; [by left | by right].
    + intros [?|(_ & _ & -> & ->)]; [by left | by right].
  - destruct (add_junctions_trees (GP.chrom r) (GP.gene r)
      (mkBuild (bd_1exon b)
         (dd_update [] (tree_insert (GP.txStart r) (GP.txEnd r) r) (GP.chrom r) (bd_exons b))
         (bd_junc_chr b) (bd_junc_gene b) (bd_bounds b)) (GP.junctions r))
      as (-> & _ & _). simpl.
    split; [tauto|]. intros [?|(_ & ? & _)]; done.
Qed.

Lemma index_record_bounds min_ref_len is_fusion b r g :
  is_Some (bd_bounds (index_record min_ref_len is_fusion b r) !! g) ↔
  is_Some (bd_bounds b !! g) ∨ (kept min_ref_len is_fusion r ∧ g = GP.gene r).
Proof.
  destruct (decide (kept min_ref_len is_fusion r)) as [Hk|Hk].
  2:{ rewrite index_record_skip by done. tauto. }
  rewrite index_record_kept by done.
  assert (Hadd : ∀ m, is_Some (add_bounds r m !! g) ↔ is_Some (m !! g) ∨ g = GP.gene r).
  { intros m. unfold add_bounds, dd_update.
    destruct (decide (GP.gene r = g)) as [<-|Hne].
    - rewrite lookup_insert_eq. split; [by right | by eexists].
    - rewrite lookup_insert_ne by done. split; [tauto|]. by intros [?|?]. }
  case_bool_decide; simpl.
  - rewrite Hadd. tauto.
  - destruct (add_junctions_trees (GP.chrom r) (GP.gene r)
      (mkBuild (bd_1exon b)
         (dd_update [] (tree_insert (GP.txStart r) (GP.txEnd r) r) (GP.chrom r) (bd_exons b))
         (bd_junc_chr b) (bd_junc_gene b) (bd_bounds b)) (GP.junctions r))
      as (_ & _ & ->). simpl. rewrite Hadd. tauto.
Qed.

Lemma index_fold_exons min_ref_len is_fusion recs b c x :
  in_tree (bd_exons (foldl (index_record min_ref_len is_fusion) b recs)) c x ↔
  in_tree (bd_exons b) c x ∨
  ∃ r, r ∈ recs ∧ kept min_ref_len is_fusion r ∧ GP.exonCount r ≠ 1 ∧
       c = GP.chrom r ∧ x = (GP.txStart r, GP.txEnd r, r).
Proof.
  revert b. induction recs as [|y recs IH]; intros b; simpl.
  - split; [tauto|]. intros [?|(r & Hr & _)]; [done | by apply elem_of_nil in Hr].
  - rewrite IH, index_record_exons. split.
    + intros [[?|?]|(r & ? & ?)]; [by left | | ].
      * right. exists y. split; [by left | done].
      * right. exists r. split; [by right | done].
    + intros [?|(r & Hr & ?)]; [by do 2 left|].
      apply elem_of_cons in Hr as [->|Hr]; [left; by right | right; eauto].
Qed.

Lemma index_fold_1exon min_ref_len is_fusion recs b c x :
  in_tree (bd_1exon (foldl (index_record min_ref_len is_fusion) b recs)) c x ↔
  in_tree (bd_1exon b) c x ∨
  ∃ r, r ∈ recs ∧ kept min_ref_len is_fusion r ∧ GP.exonCount r = 1 ∧
       c = GP.chrom r ∧ x = (GP.txStart r, GP.txEnd r, r).
Proof.
  revert b. induction recs as [|y recs IH]; intros b; simpl.
  - split; [tauto|]. intros [?|(r & Hr & _)]; [done | by apply elem_of_nil in Hr].
  - rewrite IH, index_record_1exon. split.
    + intros [[?|?]|(r & ? & ?)]; [by left | | ].
      * right. exists y. split; [by left | done].
      * right. exists r. split; [by right | done].
    + intros [?|(r & Hr & ?)]; [by do 2 left|].
      apply elem_of_cons in Hr as [->|Hr]; [left; by right | right; eauto].
Qed.

Lemma index_fold_bounds min_ref_len is_fusion recs b g :
  is_Some (bd_bounds (foldl (index_record min_ref_len is_fusion) b recs) !! g) ↔
  is_Some (bd_bounds b !! g) ∨
  ∃ r, r ∈ recs ∧ kept min_ref_len is_fusion r ∧ g = GP.gene r.
Proof.
  revert b. induction recs as [|y recs IH]; intros b; simpl.
  - split; [tauto|]. intros [?|(r & Hr & _)]; [done | by apply elem_of_nil in Hr].
  - rewrite IH, index_record_bounds. split.
    + intros [[?|?]|(r & ? & ?)]; [by left | | ].
      * right. exists y. split; [by left | done].
      * right. exists r. split; [by right | done].
    + intros [?|(r & Hr & ?)]; [by do 2 left|].
      apply elem_of_cons in Hr as [->|Hr]; [left; by right | right; eauto].
Qed.

(** The candidates that the parsed index offers to a query: kept records
    of its chromosome whose span overlaps the query span. *)
Lemma index_candidates min_ref_len is_fusion recs trec r :
  r ∈ candidates (refs_1exon_by_chr (index_records min_ref_len is_fusion recs))
                 (refs_exons_by_chr (index_records min_ref_len is_fusion recs)) trec ↔
  r ∈ recs ∧ kept min_ref_len is_fusion r ∧ GP.chrom r = GP.chrom trec ∧
  GP.txStart r < GP.txEnd trec ∧ GP.txStart trec < GP.txEnd r.
Proof.
  unfold candidates, index_records. simpl.
  rewrite elem_of_app, !find_refs_spec.
  setoid_rewrite index_fold_exons. setoid_rewrite index_fold_1exon. split.
  - intros [(s & e & [H|(r' & Hr' & Hk & _ & Hc & Hx)] & Hs & He)
           |(s & e & [H|(r' & Hr' & Hk & _ & Hc & Hx)] & Hs & He)];
      try (by apply in_tree_empty in H); inversion Hx; subst; done.
  - intros (Hr & Hk & Hc & Hs & He).
    destruct (decide (GP.exonCount r = 1)); [right | left];
      exists (GP.txStart r), (GP.txEnd r); (split; [|done]); right; exists r; done.
Qed.

(** C1: let the reference be parsed into the index, and let a multi-exon
    query have the junction list of an indexed reference record of the
    same chromosome and strand whose span overlaps the query span.  Then
    [transcriptsKnownSpliceSites] returns a full_splice_match, and the
    reported transcript is an exact match that minimises
    |tss_diff| + |tts_diff| among the exact matches of its gene.  The
    junction comparison is a parameter that answers exact on equal
    junction lists and subset only for references with junctions; records
    come from the constructor, reference spans and the query length are
    not zero, and the genome covers the query. *)
Theorem exact_junctions_full_splice_match
    cj sg dA min_ref_len is_fusion lines recs trec ref :
  genePredReader lines = Some recs →
  (∀ r, r ∈ recs → GP.txStart r < GP.txEnd r) →
  constructed trec → 2 ≤ GP.exonCount trec → GP.length trec ≠ 0 →
  (∀ pos, is_Some (dA trec pos)) →
  (∀ r, GP.junctions r = GP.junctions trec → cj trec r = exact) →
  (∀ r, cj trec r = subset → GP.junctions r ≠ []) →
  ref ∈ recs → (is_fusion = true ∨ min_ref_len ≤ GP.length ref) →
  GP.chrom ref = GP.chrom trec → GP.strand ref = GP.strand trec →
  GP.txStart ref < GP.txEnd trec → GP.txStart trec < GP.txEnd ref →
  GP.junctions ref = GP.junctions trec →
  ∃ idx h r,
    reference_parser min_ref_len is_fusion lines = Some idx ∧
    transcriptsKnownSpliceSites cj sg dA (refs_1exon_by_chr idx) (refs_exons_by_chr idx)
      (known_5_3_by_gene idx) trec = Some h ∧
    QT.str_class h = full_splice_match ∧
    indexed idx r ∧ exact_ref cj trec r ∧
    QT.transcripts h = [GP.id r] ∧
    QT.tss_diff h = Int (get_diff_tss_tts trec r).1 ∧
    QT.tts_diff h = Int (get_diff_tss_tts trec r).2 ∧
    ∀ r', indexed idx r' → GP.chrom r' = GP.chrom trec →
          GP.txStart r' < GP.txEnd trec → GP.txStart trec < GP.txEnd r' →
          GP.gene r' = GP.gene r → exact_ref cj trec r' →
          total_diff trec r ≤ total_diff trec r'.
Proof.
  intros Hread Hspans Hct Hmulti Hlen HdA Hexact Hsubset Href Hkept Hchrom Hstrand
         Hov1 Hov2 Hjunc.
  unfold reference_parser. rewrite Hread. simpl.
  set (idx := index_records min_ref_len is_fusion recs).
  pose proof (genePredReader_constructed _ _ Hread) as Hcons.
  rewrite Forall_forall in Hcons.
  assert (Hne1 : GP.exonCount ref ≠ 1).
  { destruct (constructed_multi_exon_lists trec Hct Hmulti) as (Hq & _).
    destruct (GP.junctions ref) as [|j js] eqn:Ej; [congruence|].
    pose proof (constructed_multi_exon ref j (Hcons ref Href) ltac:(rewrite Ej; by left)).
    lia. }
  destruct (exact_match_among_candidates cj sg dA
              (refs_1exon_by_chr idx) (refs_exons_by_chr idx) (known_5_3_by_gene idx)
              trec ref) as (h & r & Hh & Hc & Hr & Hex & Ht & Htss & Htts & Hmin);
    try done.
  - intros r Hr. apply index_candidates in Hr as (Hr & Hk & _).
    split; [specialize (Hspans r Hr); lia|].
    unfold idx, index_records. simpl. apply index_fold_bounds. right. eauto.
  - apply find_refs_spec. exists (GP.txStart ref), (GP.txEnd ref).
    split; [|done]. unfold idx, index_records. simpl.
    apply index_fold_exons. right. exists ref. by rewrite Hchrom.
  - by apply Hcons.
  - exists idx, h, r. split; [done|]. split; [exact Hh|]. split; [exact Hc|].
    pose proof Hr as Hr'. apply index_candidates in Hr' as (Hrr & Hrk & _).
    split; [by apply index_records_indexed|].
    split_and!; try done.
    intros r' Hi' Hc' Hs' He' Hg' Hex'. apply Hmin; [|done|done].
    apply index_candidates. apply index_records_indexed in Hi' as [? ?]. done.
Qed.

Lemma exact_junctions_full_splice_match_witness :
  ∃ idx h,
    reference_parser 200 false [line_G] = Some idx ∧
    transcriptsKnownSpliceSites compare_junctions_spec sort_genes_by_inclusion
      no_A_downstream (refs_1exon_by_chr idx) (refs_exons_by_chr idx)
      (known_5_3_by_gene idx) rec_Q = Some h ∧
    QT.str_class h = full_splice_match.
Proof.
  destruct (exact_junctions_full_splice_match compare_junctions_spec
              sort_genes_by_inclusion no_A_downstream 200 false
              [line_G] [rec_G] rec_Q rec_G)
    as (idx & h & r & Hidx & Hh & Hc & _).
  - reflexivity.
  - intros r Hr. apply list_elem_of_singleton in Hr as ->. simpl. lia.
  - by exists line_Q.
  - simpl. lia.
  - simpl. lia.
  - intros pos. by eexists.
  - intros r. apply compare_junctions_spec_exact.
  - intros r. by apply compare_junctions_spec_subset.
  - by left.
  - right. simpl. lia.
  - reflexivity.
  - reflexivity.
  - simpl. lia.
  - simpl. lia.
  - reflexivity.
  - by exists idx, h.
Defined.

(** ** Binary search *)

Lemma bisect_left_aux_spec {A} (lt : A → A → bool) (a : list A) x fuel lo hi :
  weak_order lt → ascending lt a →
  (lo ≤ hi)%nat → (hi ≤ length a)%nat → (hi - lo < fuel)%nat →
  (∀ j y, (j < lo)%nat → a !! j = Some y → lt y x = true) →
  (∀ j y, (hi ≤ j)%nat → a !! j = Some y → lt y x = false) →
  let i := bisect_left_aux lt a x fuel lo hi in
  (i ≤ length a)%nat ∧
  (∀ j y, (j < i)%nat → a !! j = Some y → lt y x = true) ∧
  (∀ j y, (i ≤ j)%nat → a !! j = Some y → lt y x = false).
Proof.
  intros Hw Hs. revert lo hi.
  induction fuel as [|fuel IH]; intros lo hi Hle Hhi Hfuel Hlo Hge; [lia|].
  cbn [bisect_left_aux]. case_bool_decide as Hlt.
  2:{ assert (lo = hi) by lia. subst. split; [lia|]. split; auto. }
  assert (Hmid : (lo ≤ (lo + hi) / 2 < hi)%nat).
  { split.
    - apply Nat.div_le_lower_bound; lia.
    - apply Nat.Div0.div_lt_upper_bound; lia. }
  set (mid := ((lo + hi) / 2)%nat) in *. clearbody mid.
  destruct (a !! mid) as [y|] eqn:Ey.
  2:{ apply lookup_ge_None in Ey. lia. }
  destruct (lt y x) eqn:Eyx.
  - apply IH; try lia; [|done].
    intros j u Hj Hu. destruct (decide (j = mid)) as [->|Hne].
    + by rewrite Ey in Hu; inv_some.
    + apply (Hw u y x); [|done]. apply (Hs j mid); [lia|done|done].
  - apply IH; try lia; [done|].
    intros j v Hj Hv. destruct (decide (j = mid)) as [->|Hne].
    + by rewrite Ey in Hv; inv_some.
    + destruct (lt v x) eqn:Evx; [|done]. exfalso.
      assert (lt y x = true); [|congruence].
      apply (Hw y v x); [|done]. apply (Hs mid j); [lia|done|done].
Qed.

(** On an ascending list [bisect_left] returns the insertion point: the
    entries before it are below [x], the entries from it on are not. *)
Lemma bisect_left_spec {A} (lt : A → A → bool) (a : list A) x :
  weak_order lt → ascending lt a →
  (bisect_left lt a x ≤ length a)%nat ∧
  (∀ j y, (j < bisect_left lt a x)%nat → a !! j = Some y → lt y x = true) ∧
  (∀ j y, (bisect_left lt a x ≤ j)%nat → a !! j = Some y → lt y x = false).
Proof.
  intros Hw Hs. unfold bisect_left.
  apply bisect_left_aux_spec; try done; try lia.
  intros j y Hj Hy. apply lookup_lt_Some in Hy. lia.
Qed.

Lemma Z_lt_weak_order : weak_order Z_lt.
Proof.
  intros u v x. unfold Z_lt. rewrite bool_decide_eq_false, !bool_decide_eq_true. lia.
Qed.

Lemma pair_lt_weak_order : weak_order pair_lt.
Proof.
  intros [u1 u2] [v1 v2] [x1 x2]. unfold pair_lt. simpl.
  rewrite bool_decide_eq_false, !bool_decide_eq_true. lia.
Qed.

(** From [StronglySorted] to the index form. *)
Lemma StronglySorted_lookup {A} (R : relation A) (l : list A) i j u v :
  StronglySorted R l → (i < j)%nat → l !! i = Some u → l !! j = Some v → R u v.
Proof.
  intros Hs. revert i j. induction Hs as [|x l Hs IH Hall]; intros i j Hij Hu Hv; [done|].
  destruct j as [|j]; [lia|]. simpl in Hv.
  destruct i as [|i]; simpl in Hu.
  - inv_some. rewrite Forall_forall in Hall. apply Hall. by eapply list_elem_of_lookup_2.
  - apply (IH i j); [lia|done|done].
Qed.

Lemma sorted_Z_ascending (l : list Z) : StronglySorted Z.le l → ascending Z_lt l.
Proof.
  intros Hs i j u v Hij Hu Hv. unfold Z_lt. apply bool_decide_eq_false.
  pose proof (StronglySorted_lookup _ _ _ _ _ _ Hs Hij Hu Hv). lia.
Qed.

Lemma sorted_pairs_ascending (l : list (Z * Z)) :
  StronglySorted pair_le l → ascending pair_lt l.
Proof.
  intros Hs i j u v Hij Hu Hv. unfold pair_lt. apply bool_decide_eq_false.
  pose proof (StronglySorted_lookup _ _ _ _ _ _ Hs Hij Hu Hv) as H.
  unfold pair_le in H. lia.
Qed.

Lemma find_closest_in_list_cases (lst : list Z) (pos : Z) :
  StronglySorted Z.le lst → lst ≠ [] →
  ∃ x, x ∈ lst ∧ find_closest_in_list lst pos = Some (x - pos) ∧
       ∀ y, y ∈ lst → Z.abs (x - pos) ≤ Z.abs (y - pos).
Proof.
  intros Hs Hne.
  destruct (bisect_left_spec Z_lt lst pos Z_lt_weak_order (sorted_Z_ascending _ Hs))
    as (Hlen & Hlo & Hhi).
  unfold find_closest_in_list. set (i := bisect_left Z_lt lst pos) in *. clearbody i.
  assert (Hlow : ∀ j y, (j < i)%nat → lst !! j = Some y → y < pos).
  { intros j y Hj Hy. specialize (Hlo j y Hj Hy). unfold Z_lt in Hlo.
    by apply bool_decide_eq_true in Hlo. }
  assert (Hhigh : ∀ j y, (i ≤ j)%nat → lst !! j = Some y → pos ≤ y).
  { intros j y Hj Hy. specialize (Hhi j y Hj Hy). unfold Z_lt in Hhi.
    apply bool_decide_eq_false in Hhi. lia. }
  clear Hlo Hhi.
  assert (Hle : ∀ j k u v, (j ≤ k)%nat → lst !! j = Some u → lst !! k = Some v → u ≤ v).
  { intros j k u v Hjk Hu Hv. destruct (decide (j = k)) as [->|Hn].
    - rewrite Hu in Hv. inv_some. lia.
    - apply (StronglySorted_lookup Z.le lst j k); [done|lia|done|done]. }
  case_bool_decide as Hi0.
  { subst i. destruct lst as [|x lst']; [done|]. simpl. exists x.
    split; [by left|]. split; [done|]. intros y Hy.
    apply list_elem_of_lookup in Hy as [k Hk].
    pose proof (Hhigh 0%nat x ltac:(lia) eq_refl).
    pose proof (Hle 0%nat k x y ltac:(lia) eq_refl Hk). lia. }
  case_bool_decide as Hil.
  { subst i. destruct (last lst) as [x|] eqn:El; [|by apply last_None in El].
    simpl. exists x. rewrite last_lookup in El.
    split; [by eapply list_elem_of_lookup_2|]. split; [done|]. intros y Hy.
    apply list_elem_of_lookup in Hy as [k Hk].
    pose proof (lookup_lt_Some _ _ _ Hk). pose proof (lookup_lt_Some _ _ _ El).
    pose proof (Hlow (pred (length lst)) x ltac:(lia) El).
    pose proof (Hlow k y ltac:(lia) Hk).
    pose proof (Hle k (pred (length lst)) y x ltac:(lia) Hk El). lia. }
  destruct (lst !! pred i) as [x|] eqn:Ex.
  2:{ apply lookup_ge_None in Ex. lia. }
  destruct (lst !! i) as [y|] eqn:Ey.
  2:{ apply lookup_ge_None in Ey. lia. }
  simpl.
  pose proof (Hlow (pred i) x ltac:(lia) Ex). pose proof (Hhigh i y ltac:(lia) Ey).
  assert (Hall : ∀ z, z ∈ lst → z ≤ x ∨ y ≤ z).
  { intros z Hz. apply list_elem_of_lookup in Hz as [k Hk].
    destruct (decide (k < i)%nat).
    - left. apply (Hle k (pred i)); [lia|done|done].
    - right. apply (Hle i k); [lia|done|done]. }
  case_bool_decide.
  - exists x. split; [by eapply list_elem_of_lookup_2|]. split; [done|].
    intros z Hz. destruct (Hall z Hz); lia.
  - exists y. split; [by eapply list_elem_of_lookup_2|]. split; [done|].
    intros z Hz. destruct (Hall z Hz); lia.
Qed.

(** ** What the reference index records *)

Lemma add_junction_gene c g b j g' j' :
  gene_junction (bd_junc_gene (add_junction c g b j)) g' j' ↔
  gene_junction (bd_junc_gene b) g' j' ∨ (g' = g ∧ j' = j).
Proof.
  unfold gene_junction, add_junction, dd_update. simpl.
  destruct (decide (g = g')) as [<-|Hne].
  - rewrite lookup_insert_eq. split.
    + intros (s & Hs & Hj). inv_some.
      apply elem_of_union in Hj as [Hj|Hj]; [right; split; [done|set_solver]|].
      left. destruct (bd_junc_gene b !! g) as [s|]; simpl in Hj; [eauto|set_solver].
    + intros [(s & Hs & Hj)|[_ ->]]; (eexists; split; [done|]).
      * rewrite Hs. simpl. set_solver.
      * set_solver.
  - rewrite lookup_insert_ne by done. split; [tauto|]. intros [?|[? _]]; [done|congruence].
Qed.

Lemma add_junction_pair c g b j c' j' :
  chr_pair (bd_junc_chr (add_junction c g b j)) c' j' ↔
  chr_pair (bd_junc_chr b) c' j' ∨ (c' = c ∧ j' = j).
Proof.
  unfold chr_pair, add_junction, dd_update. simpl.
  destruct (decide (c = c')) as [<-|Hne].
  - rewrite lookup_insert_eq. split.
    + intros (s & Hs & Hj). inv_some. simpl in Hj.
      apply elem_of_union in Hj as [Hj|Hj]; [right; split; [done|set_solver]|].
      left. destruct (bd_junc_chr b !! c) as [s|]; simpl in Hj; [eauto|set_solver].
    + intros [(s & Hs & Hj)|[_ ->]]; (eexists; split; [done|]); simpl.
      * rewrite Hs. simpl. set_solver.
      * set_solver.
  - rewrite lookup_insert_ne by done. split; [tauto|]. intros [?|[? _]]; [done|congruence].
Qed.

Lemma add_junction_sites c g b j :
  sites_of_pairs (bd_junc_chr b) → sites_of_pairs (bd_junc_chr (add_junction c g b j)).
Proof.
  intros Hb c' cs Hcs. unfold add_junction, dd_update in Hcs. simpl in Hcs.
  destruct (decide (c = c')) as [<-|Hne].
  2:{ rewrite lookup_insert_ne in Hcs by done. by apply (Hb c' cs). }
  rewrite lookup_insert_eq in Hcs. inv_some. simpl. destruct j as [d0 a0]. simpl.
  destruct (bd_junc_chr b !! c) as [cs|] eqn:E; simpl.
  - destruct (Hb c cs E) as (Hd & Ha & _). split_and!.
    + intros d. rewrite elem_of_union, elem_of_singleton, Hd. split.
      * intros [->|[a Ha']]; [exists a0 | exists a]; set_solver.
      * intros [a Ha']. apply elem_of_union in Ha' as [Ha'|Ha'];
          [left; set_solver | right; eauto].
    + intros a. rewrite elem_of_union, elem_of_singleton, Ha. split.
      * intros [->|[d Hd']]; [exists d0 | exists d]; set_solver.
      * intros [d Hd']. apply elem_of_union in Hd' as [Hd'|Hd'];
          [left; set_solver | right; eauto].
    + set_solver.
  - split_and!.
    + intros d. split; [intros Hd; exists a0; set_solver | intros [a Ha]; set_solver].
    + intros a. split; [intros Ha; exists d0; set_solver | intros [d Hd]; set_solver].
    + set_solver.
Qed.

Lemma add_junctions_gene c g b js g' j' :
  gene_junction (bd_junc_gene (foldl (add_junction c g) b js)) g' j' ↔
  gene_junction (bd_junc_gene b) g' j' ∨ (g' = g ∧ j' ∈ js).
Proof.
  revert b. induction js as [|j js IH]; intros b; simpl.
  - rewrite elem_of_nil. tauto.
  - rewrite IH, add_junction_gene, elem_of_cons. tauto.
Qed.

Lemma add_junctions_pair c g b js c' j' :
  chr_pair (bd_junc_chr (foldl (add_junction c g) b js)) c' j' ↔
  chr_pair (bd_junc_chr b) c' j' ∨ (c' = c ∧ j' ∈ js).
Proof.
  revert b. induction js as [|j js IH]; intros b; simpl.
  - rewrite elem_of_nil. tauto.
  - rewrite IH, add_junction_pair, elem_of_cons. tauto.
Qed.

Lemma add_junctions_sites c g b js :
  sites_of_pairs (bd_junc_chr b) →
  sites_of_pairs (bd_junc_chr (foldl (add_junction c g) b js)).
Proof.
  revert b. induction js as [|j js IH]; intros b Hb; simpl; [done|].
  by apply IH, add_junction_sites.
Qed.

Lemma index_record_gene min_ref_len is_fusion b r g j :
  gene_junction (bd_junc_gene (index_record min_ref_len is_fusion b r)) g j ↔
  gene_junction (bd_junc_gene b) g j ∨
  (kept min_ref_len is_fusion r ∧ GP.exonCount r ≠ 1 ∧ g = GP.gene r ∧ j ∈ GP.junctions r).
Proof.
  destruct (decide (kept min_ref_len is_fusion r)) as [Hk|Hk].
  2:{ rewrite index_record_skip by done. tauto. }
  rewrite index_record_kept by done. case_bool_decide; simpl.
  - split; [tauto|]. intros [?|(_ & ? & _)]; done.
  - rewrite add_junctions_gene. simpl. tauto.
Qed.

Lemma index_record_pair min_ref_len is_fusion b r c j :
  chr_pair (bd_junc_chr (index_record min_ref_len is_fusion b r)) c j ↔
  chr_pair (bd_junc_chr b) c j ∨
  (kept min_ref_len is_fusion r ∧ GP.exonCount r ≠ 1 ∧ c = GP.chrom r ∧ j ∈ GP.junctions r).
Proof.
  destruct (decide (kept min_ref_len is_fusion r)) as [Hk|Hk].
  2:{ rewrite index_record_skip by done. tauto. }
  rewrite index_record_kept by done. case_bool_decide; simpl.
  - split; [tauto|]. intros [?|(_ & ? & _)]; done.
  - rewrite add_junctions_pair. simpl. tauto.
Qed.

Lemma index_record_sites min_ref_len is_fusion b r :
  sites_of_pairs (bd_junc_chr b) →
  sites_of_pairs (bd_junc_chr (index_record min_ref_len is_fusion b r)).
Proof.
  intros Hb. unfold index_record.
  destruct (bool_decide (GP.length r < min_ref_len) && negb is_fusion); [done|].
  case_bool_decide; [done|]. simpl. by apply add_junctions_sites.
Qed.

Lemma index_fold_gene min_ref_len is_fusion recs b g j :
  gene_junction (bd_junc_gene (foldl (index_record min_ref_len is_fusion) b recs)) g j ↔
  gene_junction (bd_junc_gene b) g j ∨
  ∃ r, r ∈ recs ∧ kept min_ref_len is_fusion r ∧ GP.exonCount r ≠ 1 ∧
       g = GP.gene r ∧ j ∈ GP.junctions r.
Proof.
  revert b. induction recs as [|y recs IH]; intros b; simpl.
  - split; [tauto|]. intros [?|(r & Hr & _)]; [done | by apply elem_of_nil in Hr].
  - rewrite IH, index_record_gene. split.
    + intros [[?|?]|(r & ? & ?)]; [by left | | ].
      * right. exists y. split; [by left | done].
      * right. exists r. split; [by right | done].
    + intros [?|(r & Hr & ?)]; [by do 2 left|].
      apply elem_of_cons in Hr as [->|Hr]; [left; by right | right; eauto].
Qed.

Lemma index_fold_pair min_ref_len is_fusion recs b c j :
  chr_pair (bd_junc_chr (foldl (index_record min_ref_len is_fusion) b recs)) c j ↔
  chr_pair (bd_junc_chr b) c j ∨
  ∃ r, r ∈ recs ∧ kept min_ref_len is_fusion r ∧ GP.exonCount r ≠ 1 ∧
       c = GP.chrom r ∧ j ∈ GP.junctions r.
Proof.
  revert b. induction recs as [|y recs IH]; intros b; simpl.
  - split; [tauto|]. intros [?|(r & Hr & _)]; [done | by apply elem_of_nil in Hr].
  - rewrite IH, index_record_pair. split.
    + intros [[?|?]|(r & ? & ?)]; [by left | | ].
      * right. exists y. split; [by left | done].
      * right. exists r. split; [by right | done].
    + intros [?|(r & Hr & ?)]; [by do 2 left|].
      apply elem_of_cons in Hr as [->|Hr]; [left; by right | right; eauto].
Qed.

Lemma index_fold_sites min_ref_len is_fusion recs b :
  sites_of_pairs (bd_junc_chr b) →
  sites_of_pairs (bd_junc_chr (foldl (index_record min_ref_len is_fusion) b recs)).
Proof.
  revert b. induction recs as [|y recs IH]; intros b Hb; simpl; [done|].
  by apply IH, index_record_sites.
Qed.

Lemma empty_build_sites : sites_of_pairs (bd_junc_chr empty_build).
Proof. intros c cs H. simpl in H. by rewrite lookup_empty in H. Qed.

(** The transcript starts and ends of a gene. *)
Lemma add_bounds_begin r m g x :
  gene_begin (add_bounds r m) g x ↔ gene_begin m g x ∨ (g = GP.gene r ∧ x = GP.txStart r).
Proof.
  unfold gene_begin, add_bounds, dd_update.
  destruct (decide (GP.gene r = g)) as [<-|Hne].
  - rewrite lookup_insert_eq. split.
    + intros (s & Hs & Hj). inv_some. simpl in Hj.
      apply elem_of_union in Hj as [Hj|Hj]; [right; split; [done|set_solver]|].
      left. destruct (m !! GP.gene r) as [s|]; simpl in Hj; [eauto|set_solver].
    + intros [(s & Hs & Hj)|[_ ->]]; (eexists; split; [done|]); simpl.
      * rewrite Hs. simpl. set_solver.
      * set_solver.
  - rewrite lookup_insert_ne by done. split; [tauto|]. intros [?|[? _]]; [done|congruence].
Qed.

Lemma add_bounds_end r m g y :
  gene_end (add_bounds r m) g y ↔ gene_end m g y ∨ (g = GP.gene r ∧ y = GP.txEnd r).
Proof.
  unfold gene_end, add_bounds, dd_update.
  destruct (decide (GP.gene r = g)) as [<-|Hne].
  - rewrite lookup_insert_eq. split.
    + intros (s & Hs & Hj). inv_some. simpl in Hj.
      apply elem_of_union in Hj as [Hj|Hj]; [right; split; [done|set_solver]|].
      left. destruct (m !! GP.gene r) as [s|]; simpl in Hj; [eauto|set_solver].
    + intros [(s & Hs & Hj)|[_ ->]]; (eexists; split; [done|]); simpl.
      * rewrite Hs. simpl. set_solver.
      * set_solver.
  - rewrite lookup_insert_ne by done. split; [tauto|]. intros [?|[? _]]; [done|congruence].
Qed.

Lemma index_record_bounds_map min_ref_len is_fusion b r :
  bd_bounds (index_record min_ref_len is_fusion b r) =
  if bool_decide (GP.length r < min_ref_len) && negb is_fusion then bd_bounds b
  else add_bounds r (bd_bounds b).
Proof.
  unfold index_record.
  destruct (bool_decide (GP.length r < min_ref_len) && negb is_fusion) eqn:E; [done|].
  destruct (bool_decide (GP.exonCount r = 1)); [reflexivity|]. cbv zeta.
  destruct (add_junctions_trees (GP.chrom r) (GP.gene r)
      (mkBuild (bd_1exon b)
         (dd_update [] (tree_insert (GP.txStart r) (GP.txEnd r) r) (GP.chrom r) (bd_exons b))
         (bd_junc_chr b) (bd_junc_gene b) (bd_bounds b)) (GP.junctions r))
      as (_ & _ & Hb).
  cbn [bd_bounds]. by rewrite Hb.
Qed.

Lemma kept_filter min_ref_len is_fusion r :
  bool_decide (GP.length r < min_ref_len) && negb is_fusion = false ↔
  kept min_ref_len is_fusion r.
Proof.
  unfold kept. rewrite andb_false_iff, bool_decide_eq_false, negb_false_iff. split.
  - intros [?|?]; [right; lia | by left].
  - intros [?|?]; [by right | left; lia].
Qed.

Lemma index_fold_begin min_ref_len is_fusion recs b g x :
  gene_begin (bd_bounds (foldl (index_record min_ref_len is_fusion) b recs)) g x ↔
  gene_begin (bd_bounds b) g x ∨
  ∃ r, r ∈ recs ∧ kept min_ref_len is_fusion r ∧ g = GP.gene r ∧ x = GP.txStart r.
Proof.
  revert b. induction recs as [|y recs IH]; intros b; simpl.
  - split; [tauto|]. intros [?|(r & Hr & _)]; [done | by apply elem_of_nil in Hr].
  - rewrite IH, index_record_bounds_map.
    destruct (bool_decide (GP.length y < min_ref_len) && negb is_fusion) eqn:E.
    + assert (¬ kept min_ref_len is_fusion y).
      { rewrite <- kept_filter. congruence. }
      split.
      * intros [?|(r & ? & ?)]; [by left|]. right. exists r. split; [by right|done].
      * intros [?|(r & Hr & Hk & ?)]; [by left|].
        apply elem_of_cons in Hr as [->|Hr]; [done|]. right; eauto.
    + apply kept_filter in E. rewrite add_bounds_begin. split.
      * intros [[?|[-> ->]]|(r & ? & ?)]; [by left | | ].
        -- right. exists y. split; [by left | done].
        -- right. exists r. split; [by right | done].
      * intros [?|(r & Hr & Hk & -> & ->)]; [by do 2 left|].
        apply elem_of_cons in Hr as [->|Hr]; [left; by right | right; eauto].
Qed.

Lemma index_fold_end min_ref_len is_fusion recs b g x :
  gene_end (bd_bounds (foldl (index_record min_ref_len is_fusion) b recs)) g x ↔
  gene_end (bd_bounds b) g x ∨
  ∃ r, r ∈ recs ∧ kept min_ref_len is_fusion r ∧ g = GP.gene r ∧ x = GP.txEnd r.
Proof.
  revert b. induction recs as [|y recs IH]; intros b; simpl.
  - split; [tauto|]. intros [?|(r & Hr & _)]; [done | by apply elem_of_nil in Hr].
  - rewrite IH, index_record_bounds_map.
    destruct (bool_decide (GP.length y < min_ref_len) && negb is_fusion) eqn:E.
    + assert (¬ kept min_ref_len is_fusion y).
      { rewrite <- kept_filter. congruence. }
      split.
      * intros [?|(r & ? & ?)]; [by left|]. right. exists r. split; [by right|done].
      * intros [?|(r & Hr & Hk & ?)]; [by left|].
        apply elem_of_cons in Hr as [->|Hr]; [done|]. right; eauto.
    + apply kept_filter in E. rewrite add_bounds_end. split.
      * intros [[?|[-> ->]]|(r & ? & ?)]; [by left | | ].
        -- right. exists y. split; [by left | done].
        -- right. exists r. split; [by right | done].
      * intros [?|(r & Hr & Hk & -> & ->)]; [by do 2 left|].
        apply elem_of_cons in Hr as [->|Hr]; [left; by right | right; eauto].
Qed.

#[local] Instance pair_le_trans : Transitive pair_le.
Proof. intros [a b] [c d] [e f]. unfold pair_le. simpl. lia. Qed.

#[local] Instance pair_le_total : Total pair_le.
Proof. intros [a b] [c d]. unfold pair_le. simpl. lia. Qed.

Lemma sort_chr_sets_sorted cs :
  (StronglySorted Z.le (donors (sort_chr_sets cs)) ∧ NoDup (donors (sort_chr_sets cs))) ∧
  (StronglySorted Z.le (acceptors (sort_chr_sets cs)) ∧
     NoDup (acceptors (sort_chr_sets cs))) ∧
  (StronglySorted pair_le (da_pairs (sort_chr_sets cs)) ∧
     NoDup (da_pairs (sort_chr_sets cs))).
Proof.
  unfold sort_chr_sets. simpl.
  split_and!; try apply StronglySorted_merge_sort; try apply _;
    rewrite merge_sort_Permutation; apply NoDup_elements.
Qed.

Lemma reference_parser_inv min_ref_len is_fusion lines idx :
  reference_parser min_ref_len is_fusion lines = Some idx →
  ∃ recs, genePredReader lines = Some recs ∧
          idx = index_records min_ref_len is_fusion recs.
Proof.
  unfold reference_parser. intros H.
  destruct (genePredReader lines) as [recs|]; simpl in H; [|done].
  inv_some. by exists recs.
Qed.

Lemma index_chr_lookup min_ref_len is_fusion recs c cj :
  junctions_by_chr (index_records min_ref_len is_fusion recs) !! c = Some cj →
  ∃ cs, bd_junc_chr (foldl (index_record min_ref_len is_fusion) empty_build recs) !! c
          = Some cs ∧ cj = sort_chr_sets cs.
Proof.
  unfold index_records, finish_build. simpl. rewrite lookup_fmap. intros H.
  destruct (bd_junc_chr _ !! c) as [cs|]; simpl in H; [|done]. inv_some. by exists cs.
Qed.

(** The sorted lists of a chromosome of the parsed index. *)
Lemma index_records_sorted min_ref_len is_fusion recs c cj :
  junctions_by_chr (index_records min_ref_len is_fusion recs) !! c = Some cj →
  (StronglySorted Z.le (donors cj) ∧ NoDup (donors cj)) ∧
  (StronglySorted Z.le (acceptors cj) ∧ NoDup (acceptors cj)) ∧
  (StronglySorted pair_le (da_pairs cj) ∧ NoDup (da_pairs cj)).
Proof.
  intros H. apply index_chr_lookup in H as (cs & _ & ->). apply sort_chr_sets_sorted.
Qed.

(** Donors and acceptors are the components of the pairs, and an entry
    holds at least one pair. *)
Lemma index_records_sites min_ref_len is_fusion recs c cj :
  junctions_by_chr (index_records min_ref_len is_fusion recs) !! c = Some cj →
  (∀ d, d ∈ donors cj ↔ ∃ a, (d, a) ∈ da_pairs cj) ∧
  (∀ a, a ∈ acceptors cj ↔ ∃ d, (d, a) ∈ da_pairs cj) ∧
  da_pairs cj ≠ [].
Proof.
  intros H. apply index_chr_lookup in H as (cs & Hcs & ->).
  destruct (index_fold_sites min_ref_len is_fusion recs empty_build
              empty_build_sites c cs Hcs) as (Hd & Ha & Hne).
  unfold sort_chr_sets. simpl. split_and!.
  - intros d. rewrite elem_of_merge_sort, elem_of_elements, Hd.
    by setoid_rewrite elem_of_merge_sort; setoid_rewrite elem_of_elements.
  - intros a. rewrite elem_of_merge_sort, elem_of_elements, Ha.
    by setoid_rewrite elem_of_merge_sort; setoid_rewrite elem_of_elements.
  - intros Hnil. apply Hne. apply leibniz_equiv, elements_empty_inv.
    pose proof (merge_sort_Permutation pair_le (elements (s_da_pairs cs))) as Hp.
    rewrite Hnil in Hp. by apply Permutation.Permutation_nil in Hp.
Qed.

Lemma index_records_pairs min_ref_len is_fusion recs c j :
  (∃ cj, junctions_by_chr (index_records min_ref_len is_fusion recs) !! c = Some cj ∧
         j ∈ da_pairs cj) ↔
  ∃ r, r ∈ recs ∧ kept min_ref_len is_fusion r ∧ GP.exonCount r ≠ 1 ∧
       c = GP.chrom r ∧ j ∈ GP.junctions r.
Proof.
  pose proof (index_fold_pair min_ref_len is_fusion recs empty_build c j) as Hf.
  assert (He : ¬ chr_pair (bd_junc_chr empty_build) c j).
  { intros (cs & Hcs & _). simpl in Hcs. by rewrite lookup_empty in Hcs. }
  transitivity (chr_pair (bd_junc_chr
                  (foldl (index_record min_ref_len is_fusion) empty_build recs)) c j);
    [|tauto].
  unfold chr_pair, index_records, finish_build. simpl. split.
  - intros (cj & Hcj & Hj). rewrite lookup_fmap in Hcj.
    destruct (bd_junc_chr _ !! c) as [cs|]; simpl in Hcj; [|done]. inv_some.
    simpl in Hj. apply elem_of_merge_sort, elem_of_elements in Hj. eauto.
  - intros (cs & Hcs & Hj). exists (sort_chr_sets cs). rewrite lookup_fmap, Hcs.
    split; [done|]. simpl. by apply elem_of_merge_sort, elem_of_elements.
Qed.

(** X1: in the index returned by [reference_parser], the donor, acceptor
    and pair lists of every chromosome are in ascending order and free of
    duplicates. *)
Theorem reference_parser_sites_sorted min_ref_len is_fusion lines idx c cj :
  reference_parser min_ref_len is_fusion lines = Some idx →
  junctions_by_chr idx !! c = Some cj →
  (StronglySorted Z.le (donors cj) ∧ NoDup (donors cj)) ∧
  (StronglySorted Z.le (acceptors cj) ∧ NoDup (acceptors cj)) ∧
  (StronglySorted pair_le (da_pairs cj) ∧ NoDup (da_pairs cj)).
Proof.
  intros H Hc. apply reference_parser_inv in H as (recs & _ & ->).
  by eapply index_records_sorted.
Qed.

Lemma reference_parser_sites_sorted_witness :
  reference_parser 200 false [line_G] = Some idx_G ∧
  junctions_by_chr idx_G !! "chr1"%string = Some chr1_G ∧
  StronglySorted pair_le (da_pairs chr1_G).
Proof.
  assert (H1 : reference_parser 200 false [line_G] = Some idx_G) by (vm_compute; reflexivity).
  assert (H2 : junctions_by_chr idx_G !! "chr1"%string = Some chr1_G)
    by (vm_compute; reflexivity).
  split; [exact H1|]. split; [exact H2|].
  exact (proj1 (proj2 (proj2 (reference_parser_sites_sorted _ _ _ _ _ _ H1 H2)))).
Defined.

(** X2: in every chromosome entry of the parsed index the donors are
    exactly the first components of the donor-acceptor pairs, the
    acceptors exactly the second components, and there is at least one
    pair: a chromosome without reference junctions has no entry. *)
Theorem reference_parser_sites_of_pairs min_ref_len is_fusion lines idx c cj :
  reference_parser min_ref_len is_fusion lines = Some idx →
  junctions_by_chr idx !! c = Some cj →
  (∀ d, d ∈ donors cj ↔ ∃ a, (d, a) ∈ da_pairs cj) ∧
  (∀ a, a ∈ acceptors cj ↔ ∃ d, (d, a) ∈ da_pairs cj) ∧
  da_pairs cj ≠ [].
Proof.
  intros H Hc. apply reference_parser_inv in H as (recs & _ & ->).
  by eapply index_records_sites.
Qed.

Lemma reference_parser_sites_of_pairs_witness :
  reference_parser 200 false [line_G] = Some idx_G ∧
  junctions_by_chr idx_G !! "chr1"%string = Some chr1_G ∧
  da_pairs chr1_G ≠ [].
Proof.
  assert (H1 : reference_parser 200 false [line_G] = Some idx_G) by (vm_compute; reflexivity).
  assert (H2 : junctions_by_chr idx_G !! "chr1"%string = Some chr1_G)
    by (vm_compute; reflexivity).
  split; [exact H1|]. split; [exact H2|].
  exact (proj2 (proj2 (reference_parser_sites_of_pairs _ _ _ _ _ _ H1 H2))).
Defined.

(** X3: the junctions recorded by [reference_parser] are exactly those of
    the records that pass the length filter and whose exon count is not 1:
    a junction is in the set of gene [g] iff such a record of [g] has it,
    and it is among the pairs of chromosome [c] iff such a record of [c]
    has it. *)
Theorem reference_parser_junctions_exact min_ref_len is_fusion lines idx :
  reference_parser min_ref_len is_fusion lines = Some idx →
  ∃ recs, genePredReader lines = Some recs ∧
    (∀ g j, (∃ s, junctions_by_gene idx !! g = Some s ∧ j ∈ s) ↔
            ∃ r, r ∈ recs ∧ (is_fusion = true ∨ min_ref_len ≤ GP.length r) ∧
                 GP.exonCount r ≠ 1 ∧ g = GP.gene r ∧ j ∈ GP.junctions r) ∧
    (∀ c j, (∃ cj, junctions_by_chr idx !! c = Some cj ∧ j ∈ da_pairs cj) ↔
            ∃ r, r ∈ recs ∧ (is_fusion = true ∨ min_ref_len ≤ GP.length r) ∧
                 GP.exonCount r ≠ 1 ∧ c = GP.chrom r ∧ j ∈ GP.junctions r).
Proof.
  intros H. apply reference_parser_inv in H as (recs & Hr & ->).
  exists recs. split; [done|]. split.
  - intros g j.
    pose proof (index_fold_gene min_ref_len is_fusion recs empty_build g j) as Hf.
    assert (He : ¬ gene_junction (bd_junc_gene empty_build) g j).
    { intros (s & Hs & _). simpl in Hs. by rewrite lookup_empty in Hs. }
    unfold gene_junction, kept in *. simpl in *. tauto.
  - intros c j. apply index_records_pairs.
Qed.

Lemma reference_parser_junctions_exact_witness :
  reference_parser 200 false [line_G; line_short] =
    Some (index_records 200 false [rec_G]) ∧
  ∃ s, junctions_by_gene (index_records 200 false [rec_G]) !! "G"%string = Some s ∧
       (200, 300) ∈ s.
Proof.
  assert (H1 : reference_parser 200 false [line_G; line_short] =
               Some (index_records 200 false [rec_G])) by (vm_compute; reflexivity).
  split; [exact H1|].
  destruct (reference_parser_junctions_exact _ _ _ _ H1) as (recs & Hr & Hg & _).
  apply Hg. vm_compute in Hr. inv_some.
  exists rec_G. split; [by left|]. split; [right; simpl; lia|].
  split; [done|]. split; [done|]. by left.
Defined.

(** X4: the transcript starts and ends recorded for a gene are exactly
    those of its records that pass the length filter, whatever their exon
    count. *)
Theorem reference_parser_gene_bounds min_ref_len is_fusion lines idx :
  reference_parser min_ref_len is_fusion lines = Some idx →
  ∃ recs, genePredReader lines = Some recs ∧
    (∀ g x, (∃ bs, known_5_3_by_gene idx !! g = Some bs ∧ x ∈ b_begin bs) ↔
            ∃ r, r ∈ recs ∧ (is_fusion = true ∨ min_ref_len ≤ GP.length r) ∧
                 g = GP.gene r ∧ x = GP.txStart r) ∧
    (∀ g y, (∃ bs, known_5_3_by_gene idx !! g = Some bs ∧ y ∈ b_end bs) ↔
            ∃ r, r ∈ recs ∧ (is_fusion = true ∨ min_ref_len ≤ GP.length r) ∧
                 g = GP.gene r ∧ y = GP.txEnd r).
Proof.
  intros H. apply reference_parser_inv in H as (recs & Hr & ->).
  exists recs. split; [done|]. split.
  - intros g x.
    pose proof (index_fold_begin min_ref_len is_fusion recs empty_build g x) as Hf.
    assert (He : ¬ gene_begin (bd_bounds empty_build) g x).
    { intros (s & Hs & _). simpl in Hs. by rewrite lookup_empty in Hs. }
    unfold gene_begin, kept in *. simpl in *. tauto.
  - intros g y.
    pose proof (index_fold_end min_ref_len is_fusion recs empty_build g y) as Hf.
    assert (He : ¬ gene_end (bd_bounds empty_build) g y).
    { intros (s & Hs & _). simpl in Hs. by rewrite lookup_empty in Hs. }
    unfold gene_end, kept in *. simpl in *. tauto.
Qed.

Lemma reference_parser_gene_bounds_witness :
  reference_parser 200 false [line_G; line_short] =
    Some (index_records 200 false [rec_G]) ∧
  ∃ bs, known_5_3_by_gene (index_records 200 false [rec_G]) !! "G"%string = Some bs ∧
        100 ∈ b_begin bs.
Proof.
  assert (H1 : reference_parser 200 false [line_G; line_short] =
               Some (index_records 200 false [rec_G])) by (vm_compute; reflexivity).
  split; [exact H1|].
  destruct (reference_parser_gene_bounds _ _ _ _ H1) as (recs & Hr & Hb & _).
  apply Hb. vm_compute in Hr. inv_some.
  exists rec_G. split; [by left|]. split; [right; simpl; lia|]. done.
Defined.

(** X5: the two interval trees split the records that pass the length
    filter by exon count: the single-exon tree of a chromosome holds
    exactly its records with [exonCount = 1], the other tree exactly those
    with any other exon count, each under the interval
    [(txStart, txEnd)]. *)
Theorem reference_parser_trees min_ref_len is_fusion lines idx :
  reference_parser min_ref_len is_fusion lines = Some idx →
  ∃ recs, genePredReader lines = Some recs ∧
    (∀ c x, in_tree (refs_1exon_by_chr idx) c x ↔
            ∃ r, r ∈ recs ∧ (is_fusion = true ∨ min_ref_len ≤ GP.length r) ∧
                 GP.exonCount r = 1 ∧ c = GP.chrom r ∧
                 x = (GP.txStart r, GP.txEnd r, r)) ∧
    (∀ c x, in_tree (refs_exons_by_chr idx) c x ↔
            ∃ r, r ∈ recs ∧ (is_fusion = true ∨ min_ref_len ≤ GP.length r) ∧
                 GP.exonCount r ≠ 1 ∧ c = GP.chrom r ∧
                 x = (GP.txStart r, GP.txEnd r, r)).
Proof.
  intros H. apply reference_parser_inv in H as (recs & Hr & ->).
  exists recs. split; [done|]. split; intros c x.
  - pose proof (index_fold_1exon min_ref_len is_fusion recs empty_build c x) as Hf.
    pose proof (in_tree_empty c x) as He.
    unfold index_records, kept in *. simpl in *. tauto.
  - pose proof (index_fold_exons min_ref_len is_fusion recs empty_build c x) as Hf.
    pose proof (in_tree_empty c x) as He.
    unfold index_records, kept in *. simpl in *. tauto.
Qed.

Lemma reference_parser_trees_witness :
  reference_parser 200 false [line_G; line_short] =
    Some (index_records 200 false [rec_G]) ∧
  in_tree (refs_exons_by_chr (index_records 200 false [rec_G])) "chr1" (100, 400, rec_G).
Proof.
  assert (H1 : reference_parser 200 false [line_G; line_short] =
               Some (index_records 200 false [rec_G])) by (vm_compute; reflexivity).
  split; [exact H1|].
  destruct (reference_parser_trees _ _ _ _ H1) as (recs & Hr & _ & Hb).
  apply Hb. vm_compute in Hr. inv_some.
  exists rec_G. split; [by left|]. split; [right; simpl; lia|]. done.
Defined.

Lemma find_closest_in_list_zero (lst : list Z) (pos : Z) :
  StronglySorted Z.le lst →
  find_closest_in_list lst pos = Some 0 ↔ pos ∈ lst.
Proof.
  intros Hs. destruct lst as [|x0 lst'] eqn:El.
  { split; [done|]. intros H. by apply elem_of_nil in H. }
  rewrite <- El in *. assert (Hne : lst ≠ []) by (by rewrite El).
  destruct (find_closest_in_list_cases lst pos Hs Hne) as (x & Hx & -> & Hmin). split.
  - intros H. inv_some. by replace pos with x by lia.
  - intros Hp. specialize (Hmin pos Hp). f_equal. lia.
Qed.

Section JunctionRows.

Variable get_splice_site : genePredRecord → nat → option string.

(** Each row is computed from the junction at its own position. *)
Lemma write_junctionInfo_rows trec jbc sites c rows :
  jbc !! GP.chrom trec = Some c →
  write_junctionInfo get_splice_site trec jbc sites = Some rows →
  length rows = length (GP.junctions trec) ∧
  ∀ i j, GP.junctions trec !! i = Some j →
    ∃ row, rows !! i = Some row ∧
           junction_info get_splice_site trec c sites i j = Some row.
Proof.
  intros Hc H. unfold write_junctionInfo in H. rewrite Hc in H.
  apply mapM_Some_1 in H. split.
  - apply Forall2_length in H. by rewrite length_imap in H.
  - intros i j Hj.
    assert (Hi : imap (λ i j, (i, j)) (GP.junctions trec) !! i = Some (i, j)).
    { by rewrite list_lookup_imap, Hj. }
    destruct (Forall2_lookup_l _ _ _ _ _ H Hi) as (row & Hrow & Hf). eauto.
Qed.


Lemma known_iff (P : Prop) `{Decision P} :
  (if bool_decide P then "known" else "novel")%string = "known"%string ↔ P.
Proof. case_bool_decide; split; intros; try done. Qed.

(** What a row says about its junction, when the site lists are
    sorted. *)
Lemma junction_info_spec trec c sites i j row :
  StronglySorted Z.le (donors c) → StronglySorted Z.le (acceptors c) →
  junction_info get_splice_site trec c sites i j = Some row →
  junction_number row = Z.of_nat i + 1 ∧
  genomic_start_coord row = j.1 + 1 ∧ genomic_end_coord row = j.2 ∧
  (junction_category row = "known"%string ↔ j ∈ da_pairs c) ∧
  (start_site_category row = "known"%string ↔ j.1 ∈ donors c) ∧
  (end_site_category row = "known"%string ↔ j.2 ∈ acceptors c) ∧
  (∃ d, d ∈ donors c ∧ diff_to_Ref_start_site row = j.1 - d ∧
        ∀ d', d' ∈ donors c → Z.abs (j.1 - d) ≤ Z.abs (j.1 - d')) ∧
  (∃ a, a ∈ acceptors c ∧ diff_to_Ref_end_site row = a - j.2 ∧
        ∀ a', a' ∈ acceptors c → Z.abs (a - j.2) ≤ Z.abs (a' - j.2)).
Proof.
  intros Hsd Hsa H. unfold junction_info in H.
  destruct (find_closest_in_list (donors c) j.1) as [s|] eqn:Es; simpl in H; [|done].
  destruct (find_closest_in_list (acceptors c) j.2) as [e|] eqn:Ee; simpl in H; [|done].
  destruct (get_splice_site trec i) as [site|]; simpl in H; [|done]. inv_some. simpl.
  split; [done|]. split; [done|]. split; [done|].
  split; [apply known_iff|].
  assert (Hd : donors c ≠ []) by (intros Hn; by rewrite Hn in Es).
  assert (Ha : acceptors c ≠ []) by (intros Hn; by rewrite Hn in Ee).
  split.
  { rewrite known_iff, <- (find_closest_in_list_zero (donors c) j.1 Hsd), Es.
    split; [intros; f_equal; lia | intros; inv_some; lia]. }
  split.
  { rewrite known_iff, <- (find_closest_in_list_zero (acceptors c) j.2 Hsa), Ee.
    split; [intros; f_equal; lia | intros; inv_some; lia]. }
  destruct (find_closest_in_list_cases (donors c) j.1 Hsd Hd) as (x & Hx & Hxe & Hxm).
  destruct (find_closest_in_list_cases (acceptors c) j.2 Hsa Ha) as (y & Hy & Hye & Hym).
  rewrite Es in Hxe. rewrite Ee in Hye. inv_some. split.
  - exists x. split; [done|]. split; [lia|]. intros d' Hd'. specialize (Hxm d' Hd'). lia.
  - exists y. split; [done|]. split; [done|]. done.
Qed.

End JunctionRows.

(** ** The intron test of [associationOverlapping] *)

Lemma intron_scan_from_insertion_point (l : list (Z * Z)) (s e : Z) :
  StronglySorted pair_le l → s ≤ e →
  intron_scan s (drop (bisect_left pair_lt l (s, e)) l) = true ↔
  ∃ a, (s, a) ∈ l ∧ e ≤ a.
Proof.
  intros Hs Hse.
  destruct (bisect_left_spec pair_lt l (s, e) pair_lt_weak_order
              (sorted_pairs_ascending _ Hs)) as (Hlen & Hlo & Hhi).
  set (i := bisect_left pair_lt l (s, e)) in *. clearbody i.
  assert (Hbelow : ∀ k a, l !! k = Some (s, a) → e ≤ a → (i ≤ k)%nat).
  { intros k a Hk Ha. destruct (decide (i ≤ k)%nat); [done|]. exfalso.
    specialize (Hlo k (s, a) ltac:(lia) Hk). unfold pair_lt in Hlo.
    apply bool_decide_eq_true in Hlo. simpl in Hlo. lia. }
  destruct (drop i l) as [|p rest] eqn:Ed; simpl.
  - split; [done|]. intros (a & Ha & Hea).
    apply list_elem_of_lookup in Ha as [k Hk].
    pose proof (Hbelow k a Hk Hea). pose proof (lookup_lt_Some _ _ _ Hk).
    assert (length (drop i l) = 0%nat) by (by rewrite Ed).
    rewrite length_drop in *. lia.
  - assert (Hp : l !! i = Some p).
    { rewrite <- (Nat.add_0_r i), <- lookup_drop, Ed. done. }
    specialize (Hhi i p ltac:(lia) Hp). unfold pair_lt in Hhi.
    apply bool_decide_eq_false in Hhi. simpl in Hhi. destruct p as [d a]. simpl in *.
    case_bool_decide as Hd.
    + rewrite bool_decide_true by lia. split; [|done]. intros _.
      exists a. assert (d = s) by lia. subst d.
      split; [by eapply list_elem_of_lookup_2 | lia].
    + split; [done|]. intros (a' & Ha' & Hea).
      apply list_elem_of_lookup in Ha' as [k Hk].
      pose proof (Hbelow k a' Hk Hea).
      destruct (decide (i = k)) as [->|Hne].
      * rewrite Hp in Hk. inv_some. lia.
      * pose proof (StronglySorted_lookup pair_le l i k _ _ Hs ltac:(lia) Hp Hk) as Hle.
        unfold pair_le in Hle. simpl in Hle. lia.
Qed.

(** X6: for a query that no gene claims on either strand, on a chromosome
    of the parsed index: the category becomes genic_intron exactly when
    some reference junction starts at the query's [txStart] and ends at or
    after its [txEnd]; otherwise it stays intergenic. *)
Theorem associationOverlapping_genic_intron
    min_ref_len is_fusion lines idx h trec c :
  reference_parser min_ref_len is_fusion lines = Some idx →
  junctions_by_chr idx !! GP.chrom trec = Some c →
  QT.genes h = [] → QT.AS_genes h = ∅ →
  GP.txStart trec ≤ GP.txEnd trec →
  (QT.str_class (associationOverlapping h trec (junctions_by_chr idx)) = genic_intron ↔
   ∃ a, (GP.txStart trec, a) ∈ da_pairs c ∧ GP.txEnd trec ≤ a) ∧
  (QT.str_class (associationOverlapping h trec (junctions_by_chr idx)) = genic_intron ∨
   QT.str_class (associationOverlapping h trec (junctions_by_chr idx)) = intergenic).
Proof.
  intros Hidx Hc Hg Ha Hse.
  destruct (reference_parser_inv _ _ _ _ Hidx) as (recs & _ & ->).
  destruct (index_records_sorted _ _ _ _ _ Hc) as (_ & _ & Hs & _).
  pose proof (intron_scan_from_insertion_point (da_pairs c) _ _ Hs Hse) as Hscan.
  unfold associationOverlapping. cbn [QT.genes QT.set_subtype QT.set_transcripts
    QT.set_str_class QT.AS_genes]. rewrite Hg, Ha, Hc.
  rewrite !bool_decide_true by done.
  destruct (intron_scan _ _); simpl.
  - split; [|by left]. split; [intros _; by apply Hscan | done].
  - split; [|by right]. split; [done|]. intros H. apply Hscan in H. done.
Qed.

Lemma associationOverlapping_genic_intron_witness :
  QT.str_class
    (associationOverlapping (fresh_hit rec_at_donor ("0.0", "")%string) rec_at_donor
       (junctions_by_chr (index_records 200 false [rec_H]))) = genic_intron.
Proof.
  apply (associationOverlapping_genic_intron 200 false [line_H]
           (index_records 200 false [rec_H]) (fresh_hit rec_at_donor ("0.0", "")%string)
           rec_at_donor (mkChrJunctions [200] [500] [(200, 500)])).
  - vm_compute. reflexivity.
  - vm_compute. reflexivity.
  - reflexivity.
  - reflexivity.
  - simpl. lia.
  - exists 500. split; [simpl; by left | simpl; lia].
Defined.

(** ** Outcomes of [novelIsoformsKnownGenes] *)

Lemma novel_branch_fusion jbg genes trec (h h1 : myQueryTranscripts) :
  (py_max_list ((λ j, py_count (all_ref_junctions jbg genes) (PyTuple j))
                  <$> GP.junctions trec) ≫=
   λ m, Some (if bool_decide (m > 1)
              then QT.set_str_class moreJunctions h
              else QT.set_subtype
                     (if bool_decide (GP.exonCount trec = 1)
                      then "mono-exon" else "multi-exon")%string
                     (QT.set_str_class fusion h))) = Some h1 →
  h1 = QT.set_subtype (if bool_decide (GP.exonCount trec = 1)
                       then "mono-exon" else "multi-exon")%string
         (QT.set_str_class fusion h).
Proof.
  intros E. destruct (py_max_list _) as [m|] eqn:Em; simpl in E; [|done].
  apply py_max_list_zeros in Em as ->.
  - simpl in E. by inv_some.
  - apply Forall_fmap, Forall_forall. intros j _. simpl.
    apply py_count_all_ref_junctions.
Qed.

Lemma novel_refinement_outcome h trec jbc jbg r :
  novelIsoformsKnownGenes h trec jbc jbg = Some r →
  (QT.str_class r = novel_in_catalog ∨ QT.str_class r = novel_not_in_catalog ∨
   QT.str_class r = fusion) ∧
  (QT.str_class r = fusion ↔ size (list_to_set (QT.genes h) : gset string) ≠ 1%nat) ∧
  QT.transcripts r = ["novel"%string] ∧
  QT.genes r = QT.genes h ∧
  QT.tss_diff r = QT.tss_diff h ∧ QT.tts_diff r = QT.tts_diff h ∧
  QT.refLen r = QT.refLen h ∧ QT.refExons r = QT.refExons h ∧
  QT.q_splicesite_hit r = QT.q_splicesite_hit h ∧
  QT.q_exon_overlap r = QT.q_exon_overlap h.
Proof.
  unfold novelIsoformsKnownGenes. intros H.
  match type of H with (?m ≫= _) = _ => destruct m as [h1|] eqn:E1 end;
    simpl in H; [|done].
  destruct (has_intron_retention jbc trec) as [ir|]; simpl in H; [|done].
  assert (Hr : r = h1 ∨ r = QT.set_subtype "intron_retention" h1)
    by (destruct ir; inv_some; auto).
  clear H. revert E1. unfold size, set_size. simpl.
  set (genes := elements _). intros E1.
  assert (Hh1 : ∃ cls st, h1 = QT.set_subtype st
                            (QT.set_str_class cls (QT.set_transcripts ["novel"%string] h)) ∧
            (cls = novel_in_catalog ∨ cls = novel_not_in_catalog ∨ cls = fusion) ∧
            (cls = fusion ↔ length genes ≠ 1%nat)).
  { destruct genes as [|g [|g' genes']].
    - apply novel_branch_fusion in E1. eexists _, _. split; [exact E1|].
      split; [auto|]. simpl. split; [lia|done].
    - destruct (jbg !! g); simpl in E1; [|done].
      match type of E1 with (?m ≫= _) = _ => destruct m as [[]|] end;
        simpl in E1; [| |done]; inv_some; eexists _, _; (split; [reflexivity|]);
        simpl; (split; [auto|]); split; (done || lia).
    - apply novel_branch_fusion in E1. eexists _, _. split; [exact E1|].
      split; [auto|]. simpl. split; [lia|done]. }
  destruct Hh1 as (cls & st & -> & Hcls & Hf).
  destruct Hr as [->| ->]; simpl; split_and!; done.
Qed.

(** X7: whenever [novelIsoformsKnownGenes] returns, the category is
    novel_in_catalog, novel_not_in_catalog or fusion, never moreJunctions;
    it is fusion exactly when the hit does not name exactly one distinct
    gene.  The transcript list becomes ["novel"]; genes, distances and
    reference figures are those of the incoming hit. *)
Theorem novelIsoformsKnownGenes_outcome h trec jbc jbg r :
  novelIsoformsKnownGenes h trec jbc jbg = Some r →
  (QT.str_class r = novel_in_catalog ∨ QT.str_class r = novel_not_in_catalog ∨
   QT.str_class r = fusion) ∧
  (QT.str_class r = fusion ↔ size (list_to_set (QT.genes h) : gset string) ≠ 1%nat) ∧
  QT.transcripts r = ["novel"%string] ∧
  QT.genes r = QT.genes h ∧
  QT.tss_diff r = QT.tss_diff h ∧ QT.tts_diff r = QT.tts_diff h ∧
  QT.refLen r = QT.refLen h ∧ QT.refExons r = QT.refExons h ∧
  QT.q_splicesite_hit r = QT.q_splicesite_hit h ∧
  QT.q_exon_overlap r = QT.q_exon_overlap h.
Proof. apply novel_refinement_outcome. Qed.

Lemma novelIsoformsKnownGenes_outcome_witness :
  QT.str_class
    (QT.set_subtype "multi-exon"
       (QT.set_str_class fusion
          (QT.set_transcripts ["novel"%string]
             (QT.set_genes ["G1"; "G2"]%string hit_G1)))) = fusion.
Proof.
  apply (novelIsoformsKnownGenes_outcome (QT.set_genes ["G1"; "G2"]%string hit_G1) rec_F
           (junctions_by_chr (index_records 200 false [rec_G]))
           (junctions_by_gene (index_records 200 false [rec_G]))).
  - vm_compute. reflexivity.
  - vm_compute. lia.
Defined.

(** ** The intron-retention test *)

(** The entry at the insertion point is the least entry not below [x]. *)
Lemma insertion_point_least (l : list (Z * Z)) (x p : Z * Z) :
  StronglySorted pair_le l →
  l !! bisect_left pair_lt l x = Some p ↔
  p ∈ l ∧ pair_le x p ∧ ∀ q, q ∈ l → pair_le x q → pair_le p q.
Proof.
  intros Hs.
  destruct (bisect_left_spec pair_lt l x pair_lt_weak_order
              (sorted_pairs_ascending _ Hs)) as (Hlen & Hlo & Hhi).
  set (i := bisect_left pair_lt l x) in *. clearbody i.
  assert (Hge : ∀ k q, l !! k = Some q → pair_le x q → (i ≤ k)%nat).
  { intros k q Hk Hq. destruct (decide (i ≤ k)%nat); [done|]. exfalso.
    specialize (Hlo k q ltac:(lia) Hk). unfold pair_lt in Hlo.
    apply bool_decide_eq_true in Hlo. unfold pair_le in Hq. lia. }
  assert (Hat : ∀ q, l !! i = Some q → pair_le x q).
  { intros q Hq. specialize (Hhi i q ltac:(lia) Hq). unfold pair_lt in Hhi.
    apply bool_decide_eq_false in Hhi. unfold pair_le.
    destruct x, q; simpl in *. lia. }
  split.
  - intros Hp. split; [by eapply list_elem_of_lookup_2|]. split; [by apply Hat|].
    intros q Hq Hxq. apply list_elem_of_lookup in Hq as [k Hk].
    pose proof (Hge k q Hk Hxq). destruct (decide (i = k)) as [->|Hne].
    + rewrite Hp in Hk. inv_some. unfold pair_le. lia.
    + apply (StronglySorted_lookup pair_le l i k); [done|lia|done|done].
  - intros (Hp & Hxp & Hmin). apply list_elem_of_lookup in Hp as [k Hk].
    pose proof (Hge k p Hk Hxp). pose proof (lookup_lt_Some _ _ _ Hk).
    destruct (l !! i) as [q|] eqn:Eq.
    2:{ apply lookup_ge_None in Eq. lia. }
    f_equal. pose proof (Hmin q ltac:(by eapply list_elem_of_lookup_2) (Hat q eq_refl)) as H1.
    destruct (decide (i = k)) as [->|Hne]; [congruence|].
    pose proof (StronglySorted_lookup pair_le l i k _ _ Hs ltac:(lia) Eq Hk) as H2.
    unfold pair_le in *. destruct p, q; simpl in *. f_equal; lia.
Qed.

(** X8: on a chromosome of the parsed index, [has_intron_retention]
    answers true exactly when, for some query exon, the least reference
    junction that is not below the pair (exon start, exon end) lies
    strictly inside that exon.  So only one junction is examined per
    exon: the first one at or after the exon start. *)
Theorem has_intron_retention_first_junction
    min_ref_len is_fusion lines idx trec c :
  reference_parser min_ref_len is_fusion lines = Some idx →
  junctions_by_chr idx !! GP.chrom trec = Some c →
  has_intron_retention (junctions_by_chr idx) trec = Some true ↔
  ∃ e p, e ∈ GP.exons trec ∧ p ∈ da_pairs c ∧
         pair_le (i_start e, i_end e) p ∧
         (∀ q, q ∈ da_pairs c → pair_le (i_start e, i_end e) q → pair_le p q) ∧
         p.1 < p.2 ∧ p.2 < i_end e.
Proof.
  intros Hidx Hc.
  destruct (reference_parser_inv _ _ _ _ Hidx) as (recs & _ & ->).
  destruct (index_records_sorted _ _ _ _ _ Hc) as (_ & _ & Hs & _).
  unfold has_intron_retention. rewrite Hc.
  destruct (GP.exons trec) as [|e0 es] eqn:Ee.
  { split; [done|]. intros (e & p & He & _). by apply elem_of_nil in He. }
  rewrite <- Ee. clear Ee. simpl.
  split.
  - intros H. inv_some. match goal with H : existsb _ _ = true |- _ =>
      apply existsb_exists in H as (e & He & Ht) end.
    apply list_elem_of_In in He.
    destruct (da_pairs c !! _) as [p|] eqn:Ep; [|done].
    apply bool_decide_eq_true in Ht as (H1 & H2 & H3).
    apply insertion_point_least in Ep as (Hp & Hle & Hmin); [|done].
    exists e, p. done.
  - intros (e & p & He & Hp & Hle & Hmin & H2 & H3). f_equal.
    apply existsb_exists. exists e. split; [by apply list_elem_of_In|].
    assert (Ep : da_pairs c !! bisect_left pair_lt (da_pairs c) (i_start e, i_end e) = Some p).
    { by apply insertion_point_least. }
    rewrite Ep. apply bool_decide_eq_true. unfold pair_le in Hle. simpl in Hle. lia.
Qed.

Lemma has_intron_retention_first_junction_witness :
  has_intron_retention (junctions_by_chr (index_records 200 false [rec_G])) rec_retained
  = Some true.
Proof.
  apply (has_intron_retention_first_junction 200 false [line_G]
           (index_records 200 false [rec_G]) rec_retained
           (mkChrJunctions [200] [300] [(200, 300)])).
  - vm_compute. reflexivity.
  - vm_compute. reflexivity.
  - exists (mkInterval 100 400), (200, 300). split; [by left|]. split; [by left|].
    split; [unfold pair_le; simpl; lia|]. split; [|simpl; lia].
    intros q Hq _. apply list_elem_of_singleton in Hq as ->. unfold pair_le. simpl. lia.
Defined.

(** X9: on a non-empty list in ascending order [find_closest_in_list]
    returns the signed offset from [pos] to a nearest element; on the
    empty list it raises. *)
Theorem find_closest_in_list_nearest (lst : list Z) (pos : Z) :
  StronglySorted Z.le lst →
  (lst = [] → find_closest_in_list lst pos = None) ∧
  (lst ≠ [] →
   ∃ x, x ∈ lst ∧ find_closest_in_list lst pos = Some (x - pos) ∧
        ∀ y, y ∈ lst → Z.abs (x - pos) ≤ Z.abs (y - pos)).
Proof.
  intros Hs. split; [by intros ->|]. by apply find_closest_in_list_cases.
Qed.

Lemma find_closest_in_list_nearest_witness :
  ∃ x, x ∈ [10; 20; 40] ∧ find_closest_in_list [10; 20; 40] 27 = Some (x - 27) ∧
       ∀ y, y ∈ [10; 20; 40] → Z.abs (x - 27) ≤ Z.abs (y - 27).
Proof.
  apply (find_closest_in_list_nearest [10; 20; 40] 27); [|done].
  repeat constructor; lia.
Defined.

Section JunctionRowsParsed.

Variable get_splice_site : genePredRecord → nat → option string.


(** X11: in a row written against a parsed index, the junction is known iff
    it is a reference junction of the chromosome; its start site is known
    iff some reference junction of the chromosome has that donor, its end
    site iff some reference junction has that acceptor.  The start
    distance is the query donor minus a nearest reference donor, the end
    distance a nearest reference acceptor minus the query acceptor.  A
    known junction has both sites known, both distances zero, and is no
    bite junction. *)
Theorem junction_row_against_parsed_index
    min_ref_len is_fusion lines idx trec sites c rows i j row :
  reference_parser min_ref_len is_fusion lines = Some idx →
  junctions_by_chr idx !! GP.chrom trec = Some c →
  write_junctionInfo get_splice_site trec (junctions_by_chr idx) sites = Some rows →
  GP.junctions trec !! i = Some j → rows !! i = Some row →
  (junction_category row = "known"%string ↔ j ∈ da_pairs c) ∧
  (start_site_category row = "known"%string ↔ ∃ a, (j.1, a) ∈ da_pairs c) ∧
  (end_site_category row = "known"%string ↔ ∃ d, (d, j.2) ∈ da_pairs c) ∧
  (∃ d, d ∈ donors c ∧ diff_to_Ref_start_site row = j.1 - d ∧
        ∀ d', d' ∈ donors c → Z.abs (j.1 - d) ≤ Z.abs (j.1 - d')) ∧
  (∃ a, a ∈ acceptors c ∧ diff_to_Ref_end_site row = a - j.2 ∧
        ∀ a', a' ∈ acceptors c → Z.abs (a - j.2) ≤ Z.abs (a' - j.2)) ∧
  (junction_category row = "known"%string →
     start_site_category row = "known"%string ∧
     end_site_category row = "known"%string ∧
     diff_to_Ref_start_site row = 0 ∧ diff_to_Ref_end_site row = 0 ∧
     bite_junction row = "FALSE"%string).
Proof.
  intros Hidx Ec Hrows Hj Hrow.
  destruct (reference_parser_inv _ _ _ _ Hidx) as (recs & _ & ->).
  destruct (index_records_sorted _ _ _ _ _ Ec) as ((Hsd & _) & (Hsa & _) & _).
  destruct (index_records_sites _ _ _ _ _ Ec) as (Hd & Ha & Hne).
  destruct (write_junctionInfo_rows get_splice_site trec _ sites c rows Ec Hrows)
    as [_ Hr].
  destruct (Hr i j Hj) as (row' & Hr' & Hinfo). rewrite Hrow in Hr'. inv_some.
  destruct (junction_info_spec get_splice_site trec c sites i j row' Hsd Hsa Hinfo)
    as (_ & _ & _ & Hk & Hks & Hke & Hns & Hne').
  split; [done|]. split; [by rewrite Hks, Hd|]. split; [by rewrite Hke, Ha|].
  split; [done|]. split; [done|].
  intros Hknown. apply Hk in Hknown.
  assert (H1 : j.1 ∈ donors c) by (apply Hd; exists j.2; by destruct j).
  assert (H2 : j.2 ∈ acceptors c) by (apply Ha; exists j.1; by destruct j).
  split; [by apply Hks|]. split; [by apply Hke|].
  unfold junction_info in Hinfo.
  pose proof (proj2 (find_closest_in_list_zero (donors c) j.1 Hsd) H1) as E1.
  pose proof (proj2 (find_closest_in_list_zero (acceptors c) j.2 Hsa) H2) as E2.
  rewrite E1, E2 in Hinfo. simpl in Hinfo.
  destruct (get_splice_site trec i); simpl in Hinfo; [|done]. by inv_some.
Qed.

End JunctionRowsParsed.


Lemma junction_row_against_parsed_index_witness :
  junction_category row_Q = "known"%string ↔ (200, 300) ∈ [(200, 300)].
Proof.
  apply (junction_row_against_parsed_index all_GTAG 200 false [line_G]
           (index_records 200 false [rec_G]) rec_Q ["GTAG"%string]
           (mkChrJunctions [200] [300] [(200, 300)]) [row_Q] 0%nat (200, 300) row_Q).
  - vm_compute. reflexivity.
  - vm_compute. reflexivity.
  - vm_compute. reflexivity.
  - reflexivity.
  - reflexivity.
Defined.

(** ** Counting shared positions *)

Lemma sum_values_insert k v (m : gmap Z Z) :
  m !! k = None → sum_values (<[k := v]> m) = v + sum_values m.
Proof.
  intros Hk. unfold sum_values. rewrite map_fold_insert_L; [done| |done].
  intros. lia.
Qed.

Lemma sum_values_marked (m : gmap Z Z) :
  (∀ k v, m !! k = Some v → v = 0 ∨ v = 1) →
  sum_values m = Z.of_nat (size (dom (filter (λ kv, kv.2 = 1) m))).
Proof.
  induction m as [|k v m Hk _ IH] using map_first_key_ind; intros Hv.
  - unfold sum_values. rewrite map_fold_empty, map_filter_empty, dom_empty_L, size_empty.
    done.
  - rewrite sum_values_insert by done.
    rewrite IH. 2:{ intros k' v' H'. apply (Hv k' v'). rewrite lookup_insert_ne; [done|].
                    intros ->. congruence. }
    destruct (Hv k v (lookup_insert_eq _ _ _)) as [->| ->].
    + rewrite map_filter_insert_False by (simpl; lia).
      by rewrite delete_id.
    + rewrite map_filter_insert_True by done.
      rewrite dom_insert_L, size_union, size_singleton; [lia|].
      apply disjoint_singleton_l. intros Hd. apply elem_of_dom in Hd as [x Hx].
      apply map_lookup_filter_Some in Hx as [Hx _]. congruence.
Qed.

Lemma zero_keys_lookup (keys : list Z) (m : gmap Z Z) k :
  foldl (λ m b, <[b := 0]> m) m keys !! k =
  if bool_decide (k ∈ keys) then Some 0 else m !! k.
Proof.
  revert m. induction keys as [|b keys IH]; intros m; cbn [foldl].
  - rewrite bool_decide_false; [done|]. apply not_elem_of_nil.
  - rewrite IH. destruct (decide (k ∈ keys)) as [Hin|Hnin].
    + rewrite !bool_decide_true; [done| by right | done].
    + rewrite (bool_decide_false (k ∈ keys)) by done.
      destruct (decide (k = b)) as [->|Hne].
      * rewrite lookup_insert_eq, bool_decide_true; [done|]. by left.
      * rewrite lookup_insert_ne by done. rewrite bool_decide_false; [done|].
        rewrite elem_of_cons. tauto.
Qed.

Lemma mark_keys_lookup (keys : list Z) (m : gmap Z Z) k :
  foldl (λ m b, mark_if_present b m) m keys !! k =
  (λ v, if bool_decide (k ∈ keys) then 1 else v) <$> m !! k.
Proof.
  revert m. induction keys as [|b keys IH]; intros m; cbn [foldl].
  - by destruct (m !! k).
  - rewrite IH. unfold mark_if_present.
    destruct (decide (k = b)) as [->|Hne].
    + destruct (m !! b) as [v|] eqn:Eb.
      * rewrite lookup_insert_eq. simpl.
        rewrite (bool_decide_true (b ∈ b :: keys)) by (by left).
        by destruct (bool_decide (b ∈ keys)).
      * by rewrite Eb.
    + assert (Hm : (match m !! b with Some _ => <[b:=1]> m | None => m end) !! k = m !! k).
      { destruct (m !! b); [by rewrite lookup_insert_ne|done]. }
      rewrite Hm. destruct (m !! k); simpl; [|done]. f_equal.
      destruct (decide (k ∈ keys)).
      * rewrite !bool_decide_true; [done| by right | done].
      * rewrite !bool_decide_false; [done| | done]. rewrite elem_of_cons. tauto.
Qed.

(** Two passes, one that enters the query keys with 0 and one that marks
    the reference keys found among them with 1, count the keys that the
    two lists share. *)
Lemma shared_keys_count (qk rk : list Z) :
  sum_values (foldl (λ m b, mark_if_present b m)
                (foldl (λ m b, <[b := 0]> m) (∅ : gmap Z Z) qk) rk) =
  Z.of_nat (size ((list_to_set qk : gset Z) ∩ list_to_set rk)).
Proof.
  set (m := foldl _ _ rk).
  assert (Hm : ∀ k, m !! k = if bool_decide (k ∈ qk)
                             then Some (if bool_decide (k ∈ rk) then 1 else 0) else None).
  { intros k. unfold m. rewrite mark_keys_lookup, zero_keys_lookup.
    destruct (bool_decide (k ∈ qk)); simpl; [done|]. by rewrite lookup_empty. }
  rewrite sum_values_marked.
  2:{ intros k v Hk. rewrite Hm in Hk. destruct (bool_decide (k ∈ qk)); [|done].
      inv_some. destruct (bool_decide (k ∈ rk)); auto. }
  do 2 f_equal. apply set_eq. intros k.
  rewrite elem_of_dom, elem_of_intersection, !elem_of_list_to_set. split.
  - intros [v Hv]. apply map_lookup_filter_Some in Hv as [Hv H1]. simpl in H1. subst v.
    rewrite Hm in Hv. case_bool_decide; [|done]. case_bool_decide; [done|].
    inversion Hv.
  - intros [Hq Hr]. exists 1. apply map_lookup_filter_Some. split; [|done].
    by rewrite Hm, !bool_decide_true.
Qed.

Lemma foldl_bind {A B C} (g : C → B → C) (f : A → list B) (c : C) (l : list A) :
  foldl (λ m e, foldl g m (f e)) c l = foldl g c (l ≫= f).
Proof.
  revert c. induction l as [|e l IH]; intros c; simpl; [done|].
  by rewrite IH, foldl_app.
Qed.

Lemma calc_exon_overlap_count (q r : list Interval) :
  calc_exon_overlap q r = Z.of_nat (size (covered q ∩ covered r)).
Proof.
  unfold calc_exon_overlap, covered.
  rewrite (foldl_bind (λ m' b, <[b := 0]> m') exon_bases).
  rewrite (foldl_bind (λ m' b, mark_if_present b m') exon_bases).
  apply shared_keys_count.
Qed.

Lemma calc_splicesite_agreement_count (q r : list Interval) :
  calc_splicesite_agreement q r = Z.of_nat (size (boundaries q ∩ boundaries r)).
Proof.
  unfold calc_splicesite_agreement, boundaries.
  rewrite <- shared_keys_count.
  rewrite <- (foldl_bind (λ m' b, <[b := 0]> m') (λ e, [i_start e; i_end e])).
  rewrite <- (foldl_bind (λ m' b, mark_if_present b m') (λ e, [i_start e; i_end e])).
  done.
Qed.

Lemma size_list_to_set_le (l : list Z) :
  (size (list_to_set l : gset Z) ≤ length l)%nat.
Proof.
  induction l as [|x l IH]; [done|]. cbn [list_to_set foldr length].
  rewrite size_union_alt, size_singleton.
  pose proof (subseteq_size ((list_to_set l : gset Z) ∖ {[x]}) (list_to_set l)
                ltac:(set_solver)).
  lia.
Qed.

Lemma elem_of_covered (exons : list Interval) (b : Z) :
  b ∈ covered exons ↔ ∃ e, e ∈ exons ∧ i_start e ≤ b < i_end e.
Proof.
  unfold covered. rewrite elem_of_list_to_set, list_elem_of_bind.
  unfold exon_bases. setoid_rewrite elem_of_seqZ. split.
  - intros (e & Hb & He). exists e. split; [done|lia].
  - intros (e & He & Hb). exists e. split; [lia|done].
Qed.

(** X12: [calc_exon_overlap] is the number of genomic positions that lie in
    an exon of the query and in an exon of the reference; a position
    covered several times counts once.  Hence the count is symmetric in
    its arguments, and it is zero iff no position is shared. *)
Theorem calc_exon_overlap_shared_bases (q r : list Interval) :
  calc_exon_overlap q r = Z.of_nat (size (covered q ∩ covered r)) ∧
  calc_exon_overlap q r = calc_exon_overlap r q ∧
  (calc_exon_overlap q r = 0 ↔
   ¬ ∃ b eq er, eq ∈ q ∧ er ∈ r ∧ i_start eq ≤ b < i_end eq ∧ i_start er ≤ b < i_end er).
Proof.
  split; [apply calc_exon_overlap_count|]. split.
  - rewrite !calc_exon_overlap_count. do 2 f_equal. set_solver.
  - rewrite calc_exon_overlap_count. split.
    + intros H (b & eq & er & Hq & Hr & Hbq & Hbr).
      assert (Hb : b ∈ covered q ∩ covered r).
      { apply elem_of_intersection. rewrite !elem_of_covered. split; eauto. }
      assert (Hs : size (covered q ∩ covered r) = 0%nat) by lia.
      apply size_empty_inv in Hs. set_solver.
    + intros H. destruct (size (covered q ∩ covered r)) eqn:Es; [done|]. exfalso.
      assert (Hne : covered q ∩ covered r ≢ ∅).
      { intros He. apply size_empty_iff in He. lia. }
      apply set_choose in Hne as [b Hb]. apply elem_of_intersection in Hb as [Hq Hr].
      apply elem_of_covered in Hq as (eq & ? & ?). apply elem_of_covered in Hr as (er & ? & ?).
      apply H. eauto 10.
Qed.

(** X13: [calc_splicesite_agreement] is the number of distinct exon
    boundaries of the query (starts and ends alike) that are also exon
    boundaries of the reference.  It is symmetric, and it is at most twice
    the number of query exons. *)
Theorem calc_splicesite_agreement_shared_boundaries (q r : list Interval) :
  calc_splicesite_agreement q r = Z.of_nat (size (boundaries q ∩ boundaries r)) ∧
  calc_splicesite_agreement q r = calc_splicesite_agreement r q ∧
  0 ≤ calc_splicesite_agreement q r ≤ 2 * Z.of_nat (length q).
Proof.
  split; [apply calc_splicesite_agreement_count|]. split.
  - rewrite !calc_splicesite_agreement_count. do 2 f_equal. set_solver.
  - rewrite calc_splicesite_agreement_count. split; [lia|].
    assert (H1 : (size (boundaries q ∩ boundaries r) ≤ size (boundaries q))%nat).
    { apply subseteq_size. set_solver. }
    assert (H2 : (size (boundaries q) ≤ 2 * length q)%nat).
    { unfold boundaries. etransitivity; [apply size_list_to_set_le|].
      clear. induction q as [|e q IH]; [done|].
      rewrite bind_cons, length_app. simpl in *. lia. }
    lia.
Qed.

(** ** Genes co-listed by the merge *)

Lemma absorb_genes_apart h cs ce rest h' :
  cs < ce →
  Forall (λ t, ∃ s e, has_span t s e) rest →
  absorb_genes h (Int cs) (Int ce) rest = Some h' →
  ∃ absorbed,
    absorbed `sublist_of` rest ∧
    QT.genes h' = QT.genes h ++ (rGene <$> absorbed) ∧
    Forall (λ t, score t ≠ 0 ∧ ∃ s e, has_span t s e ∧ (e ≤ cs ∨ ce ≤ s)) absorbed ∧
    (∀ i j t1 t2, (i < j)%nat → absorbed !! i = Some t1 → absorbed !! j = Some t2 →
                  spans_apart t1 t2).
Proof.
  intros Hc Hall. revert h cs ce Hc.
  induction Hall as [|t rest (s & e & Hs & He & Hse) _ IH]; intros h cs ce Hc H.
  - simpl in H. inv_some. exists []. split; [done|]. rewrite app_nil_r.
    split; [done|]. split; [constructor|]. intros i j t1 t2 _ Hi. done.
  - cbn [absorb_genes] in H. case_bool_decide as Hsc.
    { inv_some. exists []. split; [apply sublist_nil_l|]. rewrite app_nil_r.
      split; [done|]. split; [constructor|]. intros i j t1 t2 _ Hi. done. }
    rewrite Hs, He in H. cbn [calc_overlap as_int mbind option_bind] in H.
    assert (Hov : ∀ ov, (if bool_decide (cs > s)
                         then Some (Z.max 0 (Z.min e ce - Z.max s cs))
                         else Some (Z.max 0 (Z.min ce e - Z.max cs s))) = Some ov →
                        (ov ≤ 0 ↔ e ≤ cs ∨ ce ≤ s)).
    { intros ov Hov. case_bool_decide; inv_some; lia. }
    destruct (if bool_decide (cs > s) then _ else _) as [ov|] eqn:Eov;
      [|by case_bool_decide].
    specialize (Hov ov eq_refl). cbn [mbind option_bind] in H.
    case_bool_decide as Hle.
    + cbn [py_min py_max mbind option_bind] in H.
      apply IH in H as (absorbed & Hsub & Hg & Hfa & Hpair); [|lia].
      exists (t :: absorbed). split; [by constructor|].
      split; [by rewrite Hg; cbn; rewrite <- app_assoc|]. split.
      * constructor.
        -- split; [done|]. exists s, e. split; [done|]. by apply Hov.
        -- eapply Forall_impl; [exact Hfa|]. intros t' (Hsc' & s' & e' & Hsp & Hd).
           split; [done|]. exists s', e'. split; [done|]. lia.
      * intros i j t1 t2 Hij H1 H2. destruct j as [|j]; [lia|]. simpl in H2.
        destruct i as [|i]; simpl in H1.
        -- inv_some. rewrite Forall_forall in Hfa.
           destruct (Hfa t2 ltac:(by eapply list_elem_of_lookup_2))
             as (_ & s2 & e2 & Hsp & Hd).
           exists s, e, s2, e2. split; [done|]. split; [done|]. lia.
        -- apply (Hpair i j); [lia|done|done].
    + apply IH in H as (absorbed & Hsub & Hg & Hfa & Hpair); [|lia].
      exists absorbed. split; [by constructor|]. done.
Qed.

(** X14: the genes that the merge loop appends to the primary gene have
    reference spans that share no position with the span of the primary
    gene nor with one another: each absorbed gene lies wholly before or
    wholly after everything absorbed so far. *)
Theorem merged_genes_do_not_overlap h cs ce rest h' :
  cs < ce →
  Forall (λ t, ∃ s e, has_span t s e) rest →
  absorb_genes h (Int cs) (Int ce) rest = Some h' →
  ∃ absorbed,
    absorbed `sublist_of` rest ∧
    QT.genes h' = QT.genes h ++ (rGene <$> absorbed) ∧
    Forall (λ t, score t ≠ 0 ∧ ∃ s e, has_span t s e ∧ (e ≤ cs ∨ ce ≤ s)) absorbed ∧
    (∀ i j t1 t2, (i < j)%nat → absorbed !! i = Some t1 → absorbed !! j = Some t2 →
                  spans_apart t1 t2).
Proof. apply absorb_genes_apart. Qed.

Lemma merged_genes_do_not_overlap_witness :
  ∃ absorbed,
    absorbed `sublist_of` [mkGeneHit 3 (Int 500) (Int 800) "G2" hit_G2] ∧
    QT.genes (QT.set_genes ["G1"; "G2"]%string hit_G1) =
      QT.genes hit_G1 ++ (rGene <$> absorbed) ∧
    Forall (λ t, score t ≠ 0 ∧ ∃ s e, has_span t s e ∧ (e ≤ 100 ∨ 400 ≤ s)) absorbed ∧
    (∀ i j t1 t2, (i < j)%nat → absorbed !! i = Some t1 → absorbed !! j = Some t2 →
                  spans_apart t1 t2).
Proof.
  apply (merged_genes_do_not_overlap hit_G1 100 400
           [mkGeneHit 3 (Int 500) (Int 800) "G2" hit_G2]).
  - lia.
  - constructor; [|constructor]. exists 500, 800. unfold has_span. simpl.
    split; [reflexivity|]. split; [reflexivity|]. lia.
  - reflexivity.
Defined.

(** ** Nearest reference start and end of the hit genes *)

Lemma nearer_fold pos acc xs :
  match foldl (nearer pos) acc xs with
  | Some d =>
      (acc = Some d ∨ ∃ x, x ∈ xs ∧ d = pos - x) ∧
      (∀ x, x ∈ xs → Z.abs d ≤ Z.abs (pos - x)) ∧
      (∀ n, acc = Some n → Z.abs d ≤ Z.abs n)
  | None => acc = None ∧ xs = []
  end.
Proof.
  revert acc. induction xs as [|x xs IH]; intros acc; simpl.
  - destruct acc as [d|]; [|done]. split; [by left|]. split.
    + intros x Hx. by apply elem_of_nil in Hx.
    + intros n Hn. inv_some. lia.
  - specialize (IH (nearer pos acc x)).
    destruct (foldl (nearer pos) (nearer pos acc x) xs) as [d|].
    2:{ destruct IH as [IH _]. unfold nearer in IH. destruct acc; [|done].
        by case_bool_decide. }
    destruct IH as (Hsrc & Hmin & Hacc). split_and!.
    + destruct Hsrc as [Hsrc|(y & Hy & ->)].
      * unfold nearer in Hsrc. destruct acc as [n|].
        -- case_bool_decide; inv_some; [right; exists x; split; [by left|done] | by left].
        -- inv_some. right. exists x. split; [by left|done].
      * right. exists y. split; [by right|done].
    + intros y Hy. apply elem_of_cons in Hy as [->|Hy]; [|by apply Hmin].
      unfold nearer in Hacc. destruct acc as [n|].
      * case_bool_decide.
        -- by apply Hacc.
        -- specialize (Hacc n eq_refl). lia.
      * by apply Hacc.
    + intros n ->. unfold nearer in Hacc. case_bool_decide.
      * specialize (Hacc _ eq_refl). lia.
      * by apply Hacc.
Qed.

Lemma gene_loop_nearest m (s e : Z) genes ns ne :
  Forall (λ g, is_Some (m !! g)) genes →
  foldl (λ acc g,
           '(ns, ne) ← acc;
           b ← m !! g;
           Some (foldl (nearer s) ns (elements (b_begin b)),
                 foldl (nearer e) ne (elements (b_end b))))
        (Some (ns, ne)) genes =
  Some (foldl (nearer s) ns (starts_of m genes), foldl (nearer e) ne (ends_of m genes)).
Proof.
  intros Hg. revert ns ne. induction Hg as [|g genes [b Hb] _ IH]; intros ns ne; [done|].
  cbn [foldl]. rewrite Hb. cbn [mbind option_bind]. rewrite IH.
  unfold starts_of, ends_of. rewrite !bind_cons, !foldl_app, Hb. done.
Qed.

(** X15: when every gene of the hit has recorded starts and ends,
    [get_gene_diff_tss_tts] stores the signed distances to a nearest
    recorded start [x] and a nearest recorded end [y] of those genes: on
    the plus strand [txStart - x] and [txEnd - y]; on the minus strand the
    TSS distance is [y - txEnd] and the TTS distance [x - txStart]. *)
Theorem get_gene_diff_tss_tts_nearest m trec h :
  QT.genes h ≠ [] →
  (∀ g, g ∈ QT.genes h →
     ∃ bs, m !! g = Some bs ∧ b_begin bs ≠ ∅ ∧ b_end bs ≠ ∅) →
  ∃ x y,
    (∃ g bs, g ∈ QT.genes h ∧ m !! g = Some bs ∧ x ∈ b_begin bs) ∧
    (∃ g bs, g ∈ QT.genes h ∧ m !! g = Some bs ∧ y ∈ b_end bs) ∧
    (∀ g bs x', g ∈ QT.genes h → m !! g = Some bs → x' ∈ b_begin bs →
       Z.abs (GP.txStart trec - x) ≤ Z.abs (GP.txStart trec - x')) ∧
    (∀ g bs y', g ∈ QT.genes h → m !! g = Some bs → y' ∈ b_end bs →
       Z.abs (GP.txEnd trec - y) ≤ Z.abs (GP.txEnd trec - y')) ∧
    get_gene_diff_tss_tts m trec h =
      Some (if bool_decide (GP.strand trec = "+"%string)
            then QT.set_gene_diffs (GInt (GP.txStart trec - x)) (GInt (GP.txEnd trec - y)) h
            else QT.set_gene_diffs (GInt (y - GP.txEnd trec)) (GInt (x - GP.txStart trec)) h).
Proof.
  intros Hne Hall. unfold get_gene_diff_tss_tts.
  rewrite gene_loop_nearest.
  2:{ apply Forall_forall. intros g Hg. destruct (Hall g Hg) as (bs & -> & _). by eexists. }
  cbn [mbind option_bind fst snd].
  assert (Hin_s : ∀ x, x ∈ starts_of m (QT.genes h) ↔
            ∃ g bs, g ∈ QT.genes h ∧ m !! g = Some bs ∧ x ∈ b_begin bs).
  { intros x. unfold starts_of. rewrite list_elem_of_bind. split.
    - intros (g & Hx & Hg). destruct (Hall g Hg) as (bs & Hbs & _).
      rewrite Hbs in Hx. simpl in Hx. apply elem_of_elements in Hx. eauto.
    - intros (g & bs & Hg & Hbs & Hx). exists g. rewrite Hbs. simpl.
      split; [by apply elem_of_elements | done]. }
  assert (Hin_e : ∀ y, y ∈ ends_of m (QT.genes h) ↔
            ∃ g bs, g ∈ QT.genes h ∧ m !! g = Some bs ∧ y ∈ b_end bs).
  { intros y. unfold ends_of. rewrite list_elem_of_bind. split.
    - intros (g & Hy & Hg). destruct (Hall g Hg) as (bs & Hbs & _).
      rewrite Hbs in Hy. simpl in Hy. apply elem_of_elements in Hy. eauto.
    - intros (g & bs & Hg & Hbs & Hy). exists g. rewrite Hbs. simpl.
      split; [by apply elem_of_elements | done]. }
  destruct (QT.genes h) as [|g0 gs] eqn:Eg; [done|].
  destruct (Hall g0 ltac:(by left)) as (bs0 & Hbs0 & Hb0 & He0).
  pose proof (nearer_fold (GP.txStart trec) None (starts_of m (g0 :: gs))) as Hs.
  pose proof (nearer_fold (GP.txEnd trec) None (ends_of m (g0 :: gs))) as He.
  destruct (foldl (nearer (GP.txStart trec)) None _) as [ds|].
  2:{ destruct Hs as [_ Hs]. exfalso. apply set_choose_L in Hb0 as [x Hx].
      assert (Hx' : x ∈ starts_of m (g0 :: gs)).
      { apply Hin_s. exists g0, bs0. split; [by left|done]. }
      rewrite Hs in Hx'. by apply elem_of_nil in Hx'. }
  destruct (foldl (nearer (GP.txEnd trec)) None _) as [de|].
  2:{ destruct He as [_ He]. exfalso. apply set_choose_L in He0 as [y Hy].
      assert (Hy' : y ∈ ends_of m (g0 :: gs)).
      { apply Hin_e. exists g0, bs0. split; [by left|done]. }
      rewrite He in Hy'. by apply elem_of_nil in Hy'. }
  destruct Hs as ([Hs|(x & Hx & ->)] & Hsmin & _); [done|].
  destruct He as ([He|(y & Hy & ->)] & Hemin & _); [done|].
  exists x, y. split; [by apply Hin_s|]. split; [by apply Hin_e|].
  split. { intros g bs x' Hg Hbs Hx'. apply Hsmin, Hin_s. eauto. }
  split. { intros g bs y' Hg Hbs Hy'. apply Hemin, Hin_e. eauto. }
  case_bool_decide; [done|]. f_equal. f_equal; f_equal; lia.
Qed.

Lemma get_gene_diff_tss_tts_nearest_witness :
  ∃ x y,
    get_gene_diff_tss_tts (known_5_3_by_gene (index_records 200 false [rec_G])) rec_Q
      (QT.set_genes ["G"%string] (fresh_hit rec_Q ("0.0", "")%string)) =
    Some (QT.set_gene_diffs (GInt (100 - x)) (GInt (450 - y))
            (QT.set_genes ["G"%string] (fresh_hit rec_Q ("0.0", "")%string))).
Proof.
  destruct (get_gene_diff_tss_tts_nearest
              (known_5_3_by_gene (index_records 200 false [rec_G])) rec_Q
              (QT.set_genes ["G"%string] (fresh_hit rec_Q ("0.0", "")%string)))
    as (x & y & _ & _ & _ & _ & H).
  - done.
  - intros g Hg. apply list_elem_of_singleton in Hg as ->.
    exists (mkBounds {[100]} {[400]}). split; [vm_compute; reflexivity|].
    split; simpl; set_solver.
  - exists x, y. exact H.
Defined.

(** ** Position of an incomplete match within its reference *)

Lemma head_block {A} (l1 q l2 : list A) (q0 : A) :
  NoDup (l1 ++ q ++ l2) → head q = Some q0 →
  (head (l1 ++ q ++ l2) = Some q0 ↔ l1 = []).
Proof.
  intros Hnd Hq. destruct q as [|x q]; [done|]. simpl in Hq. inv_some.
  destruct l1 as [|y l1]; simpl; [done|]. split; [|done].
  intros H. inv_some. exfalso.
  apply NoDup_cons in Hnd as [Hnin _]. apply Hnin.
  rewrite !elem_of_app. right. left. by left.
Qed.

Lemma last_block {A} (l1 q l2 : list A) (ql : A) :
  NoDup (l1 ++ q ++ l2) → last q = Some ql →
  (last (l1 ++ q ++ l2) = Some ql ↔ l2 = []).
Proof.
  intros Hnd Hq. rewrite app_assoc. rewrite app_assoc in Hnd.
  destruct l2 as [|y l2 _] using rev_ind.
  - rewrite app_nil_r. split; [done|]. intros _.
    destruct q as [|x q _] using rev_ind; [done|].
    rewrite app_assoc, last_snoc. by rewrite last_snoc in Hq.
  - rewrite app_assoc, last_snoc. split.
    + intros H. inv_some. exfalso.
      rewrite app_assoc in Hnd. apply NoDup_app in Hnd as (_ & Hdis & _).
      apply (Hdis ql); [|by left].
      rewrite !elem_of_app. left. right.
      apply last_Some in Hq as [q' ->]. rewrite elem_of_app. right. by left.
    + intros H. by destruct l2.
Qed.

(** X16: let the junctions of the query be a block [q] of consecutive
    reference junctions, [l1 ++ q ++ l2], the reference junctions being
    pairwise distinct, and let no query exon span two reference exons.
    Then the subtype tells where the block lies: complete when nothing is
    missing, internal_fragment when junctions are missing on both sides;
    when only the downstream junctions [l2] are missing it is
    5prime_fragment on the plus strand and 3prime_fragment otherwise, and
    the other way round when only the upstream junctions [l1] are
    missing. *)
Theorem categorize_incomplete_matches_position trec ref l1 l2 :
  GP.junctions ref = l1 ++ GP.junctions trec ++ l2 →
  GP.junctions trec ≠ [] → NoDup (GP.junctions ref) →
  covers_many_ref_exons trec ref = false →
  categorize_incomplete_matches trec ref =
  Some (match l1, l2 with
        | [], [] => "complete"
        | [], _ :: _ =>
            if bool_decide (GP.strand trec = "+"%string)
            then "5prime_fragment" else "3prime_fragment"
        | _ :: _, [] =>
            if bool_decide (GP.strand trec = "+"%string)
            then "3prime_fragment" else "5prime_fragment"
        | _ :: _, _ :: _ => "internal_fragment"
        end)%string.
Proof.
  intros Hj Hq Hnd Hir. unfold categorize_incomplete_matches. rewrite Hir.
  destruct (head (GP.junctions trec)) as [q0|] eqn:Eh.
  2:{ by destruct (GP.junctions trec). }
  destruct (last (GP.junctions trec)) as [ql|] eqn:El.
  2:{ by apply last_None in El. }
  rewrite Hj in Hnd |- *.
  pose proof (head_block l1 _ l2 q0 Hnd Eh) as Hfront.
  pose proof (last_block l1 _ l2 ql Hnd El) as Hend.
  destruct (head (l1 ++ GP.junctions trec ++ l2)) as [r0|] eqn:Erh.
  2:{ destruct l1; [|done]. destruct (GP.junctions trec); done. }
  destruct (last (l1 ++ GP.junctions trec ++ l2)) as [rl|] eqn:Erl.
  2:{ apply last_None in Erl. destruct l1; [|done]. destruct (GP.junctions trec); done. }
  cbn [mbind option_bind]. f_equal.
  assert (Hf : bool_decide (q0 = r0) = bool_decide (l1 = [])).
  { apply bool_decide_ext. rewrite <- Hfront. split; intros; congruence. }
  assert (He : bool_decide (ql = rl) = bool_decide (l2 = [])).
  { apply bool_decide_ext. rewrite <- Hend. split; intros; congruence. }
  rewrite Hf, He. destruct l1, l2; reflexivity.
Qed.

Lemma categorize_incomplete_matches_position_witness :
  categorize_incomplete_matches rec_front rec_R3 = Some "5prime_fragment"%string.
Proof.
  apply (categorize_incomplete_matches_position rec_front rec_R3 [] [(600, 700)]).
  - reflexivity.
  - discriminate.
  - simpl. apply (bool_decide_unpack _). vm_compute. exact I.
  - vm_compute. reflexivity.
Defined.

(** ** The category that one reference supports *)

Lemma ref_rank_range cj trec r : 0 ≤ ref_rank cj trec r ≤ 5.
Proof.
  unfold ref_rank. destruct (cj trec r); repeat case_bool_decide; lia.
Qed.

Section RankLoop.

Variable cj : genePredRecord → genePredRecord → match_type.
Variable trec : genePredRecord.
Variable polyA : string * string.

Ltac opt_cases H :=
  repeat match type of H with
         | (?m ≫= _) = Some _ =>
             let E := fresh "E" in destruct m eqn:E; simpl in H; [|discriminate H]
         end.

(** One turn of the loop raises the rank of the running hit to the rank
    that the reference supports, and never lowers it. *)
Lemma score_ref_rank h r h' n :
  score_ref cj trec polyA h r = Some h' →
  cat_ranking (QT.str_class h) = Some n →
  cat_ranking (QT.str_class h') = Some (Z.max n (ref_rank cj trec r)).
Proof.
  unfold score_ref, ref_rank. intros H Hn.
  case_bool_decide as Hs.
  { inv_some. simpl. rewrite Hn. f_equal. pose proof (rank_le_5 _ _ Hn). lia. }
  case_bool_decide as He1.
  { case_bool_decide as Hov.
    - unfold rank_lt in H. rewrite Hn in H. simpl in H. inv_some.
      case_bool_decide; simpl; [f_equal; lia|]. rewrite Hn. f_equal. lia.
    - inv_some. rewrite Hn. f_equal. pose proof (rank_le_5 _ _ Hn). lia. }
  pose proof (rank_le_5 _ _ Hn) as Hr5.
  destruct (cj trec r) eqn:Ecj; unfold rank_lt in H; rewrite Hn in H; simpl in H.
  - (* exact *)
    case_bool_decide as Hlt; simpl in H.
    + inv_some. simpl. f_equal. lia.
    + assert (n = 5) by lia. subst n. opt_cases H. inv_some.
      match goal with |- context [if ?b then _ else _] => destruct b end;
        simpl; [done|]. by rewrite Hn.
  - (* subset *)
    opt_cases H. case_bool_decide as Hlt; simpl in H.
    + inv_some. simpl. f_equal. lia.
    + case_bool_decide as Hc.
      * opt_cases H. inv_some. rewrite Hc in Hn. simpl in Hn. inv_some.
        match goal with |- context [if ?b then _ else _] => destruct b end;
          simpl; [done|]. by rewrite Hc.
      * simpl in H. inv_some. rewrite Hn. f_equal. lia.
  - (* partial *)
    case_bool_decide as Hlt; simpl in H.
    + inv_some. simpl. f_equal. lia.
    + assert (Hkeep : cat_ranking (QT.str_class h) = Some (Z.max n 3))
        by (rewrite Hn; f_equal; lia).
      assert (Hnew : QT.str_class h = anyKnownJunction → Some 3 = Some (Z.max n 3)).
      { intros Hc. rewrite Hc in Hn. simpl in Hn. inv_some. done. }
      repeat (case_bool_decide; simpl in H); opt_cases H; inv_some;
        try match goal with |- context [if ?b then _ else _] => destruct b end;
        simpl; auto.
  - (* concordant *)
    case_bool_decide as Hlt; simpl in H.
    + inv_some. simpl. f_equal. lia.
    + assert (Hkeep : cat_ranking (QT.str_class h) = Some (Z.max n 3))
        by (rewrite Hn; f_equal; lia).
      assert (Hnew : QT.str_class h = anyKnownJunction → Some 3 = Some (Z.max n 3)).
      { intros Hc. rewrite Hc in Hn. simpl in Hn. inv_some. done. }
      repeat (case_bool_decide; simpl in H); opt_cases H; inv_some;
        try match goal with |- context [if ?b then _ else _] => destruct b end;
        simpl; auto.
  - (* super *)
    case_bool_decide as Hlt; simpl in H.
    + inv_some. simpl. f_equal. lia.
    + assert (Hkeep : cat_ranking (QT.str_class h) = Some (Z.max n 3))
        by (rewrite Hn; f_equal; lia).
      assert (Hnew : QT.str_class h = anyKnownJunction → Some 3 = Some (Z.max n 3)).
      { intros Hc. rewrite Hc in Hn. simpl in Hn. inv_some. done. }
      repeat (case_bool_decide; simpl in H); opt_cases H; inv_some;
        try match goal with |- context [if ?b then _ else _] => destruct b end;
        simpl; auto.
  - (* nomatch *)
    revert H. unfold rank_lt.
    destruct (QT.str_class h) eqn:Ec; simpl in Hn; inv_some;
      destruct (bool_decide (0 < calc_splicesite_agreement (GP.exons trec) (GP.exons r)));
      destruct (bool_decide (0 < calc_exon_overlap (GP.exons trec) (GP.exons r)));
      simpl; rewrite ?Ec; simpl; intros H; inv_some; simpl; rewrite ?Ec; done.
Qed.

Lemma score_refs_rank h rs h' n :
  score_refs cj trec polyA h rs = Some h' →
  cat_ranking (QT.str_class h) = Some n →
  ∃ n', cat_ranking (QT.str_class h') = Some n' ∧ n ≤ n' ∧
        (∀ r, r ∈ rs → ref_rank cj trec r ≤ n') ∧
        (n' = n ∨ ∃ r, r ∈ rs ∧ ref_rank cj trec r = n').
Proof.
  revert h n. induction rs as [|r rs IH]; intros h n H Hn; simpl in H.
  - inv_some. exists n. split; [done|]. split; [lia|]. split; [|by left].
    intros r Hr. by apply elem_of_nil in Hr.
  - destruct (score_ref cj trec polyA h r) as [h1|] eqn:E1; simpl in H; [|done].
    pose proof (score_ref_rank _ _ _ _ E1 Hn) as Hn1.
    destruct (IH _ _ H Hn1) as (n' & Hn' & Hle & Hall & Hsrc).
    exists n'. split; [done|]. split; [lia|]. split.
    + intros r' Hr'. apply elem_of_cons in Hr' as [->|Hr']; [lia | by apply Hall].
    + destruct Hsrc as [->|(r' & Hr' & Hrr)].
      * destruct (decide (ref_rank cj trec r ≤ n)).
        -- left. lia.
        -- right. exists r. split; [by left | lia].
      * right. exists r'. split; [by right | done].
Qed.

End RankLoop.

(** ** The selection across genes, in general *)

Lemma select_best_none trec fallback best :
  Forall (λ gh, rankable gh.2) best →
  Forall (λ gh, score (tuple_of gh) = 0) best →
  select_best trec fallback best = Some (inl fallback).
Proof.
  intros Hbest Hzero. unfold select_best.
  rewrite gene_hit_tuples_Some by (eapply Forall_impl; [exact Hbest|]; by intros ? []).
  simpl.
  assert (Hf : filter (λ x, 0 < score x) (tuple_of <$> best) = []).
  { clear Hbest. induction Hzero as [|gh best Hz _ IH]; [done|].
    rewrite fmap_cons, filter_cons_False by lia. exact IH. }
  by rewrite Hf.
Qed.

Lemma select_best_top trec fallback best :
  sumZ ((λ e, i_end e - i_start e) <$> GP.exons trec) ≠ 0 →
  Forall (λ gh, rankable gh.2) best →
  Exists (λ gh, 0 < score (tuple_of gh)) best →
  ∃ gh extra,
    select_best trec fallback best =
      Some (inr (QT.set_genes (QT.genes gh.2 ++ extra) gh.2)) ∧
    gh ∈ best ∧ 0 < score (tuple_of gh) ∧
    (∀ gh', gh' ∈ best → score (tuple_of gh') ≤ score (tuple_of gh)) ∧
    extra ⊆ best.*1.
Proof.
  intros Hlen Hbest Hpos. unfold select_best.
  rewrite gene_hit_tuples_Some by (eapply Forall_impl; [exact Hbest|]; by intros ? []).
  simpl. apply Exists_exists in Hpos as (ghf & Hinf & Hposf).
  assert (Hmem : tuple_of ghf ∈ filter (λ x, 0 < score x) (tuple_of <$> best)).
  { apply list_elem_of_filter. split; [done|]. apply list_elem_of_fmap. eauto. }
  destruct (filter (λ x, 0 < score x) (tuple_of <$> best)) as [|c cs] eqn:Ef;
    [by apply elem_of_nil in Hmem|].
  unfold keyed_candidates. rewrite Ef.
  assert (Hcands : ∀ x, x ∈ c :: cs ↔ ∃ gh, gh ∈ best ∧ x = tuple_of gh ∧ 0 < score x).
  { intros x. rewrite <- Ef, list_elem_of_filter, list_elem_of_fmap. split.
    - intros [Hp (gh & -> & Hgh)]. eauto.
    - intros (gh & Hgh & -> & Hp). eauto. }
  destruct (mapM (λ x, k ← sort_key trec x; Some (k, x)) (c :: cs)) as [keyed|] eqn:Ek.
  2:{ apply mapM_None_1, Exists_exists in Ek as (x & Hx & Hnone).
      apply Hcands in Hx as (gh & Hgh & -> & Hp).
      rewrite Forall_forall in Hbest.
      destruct (sort_key_is_Some trec gh Hlen (Hbest gh Hgh) Hp) as [k Hk].
      rewrite Hk in Hnone. done. }
  apply mapM_Some_1 in Ek. simpl.
  assert (Hkeyed : ∀ kx, kx ∈ keyed → kx.2 ∈ c :: cs ∧ kx.1.1 = score kx.2).
  { intros kx Hkx. apply list_elem_of_lookup in Hkx as [i Hi].
    destruct (Forall2_lookup_r _ _ _ _ _ Ek Hi) as (x & Hx & Hkey).
    destruct (sort_key trec x) as [k|] eqn:Es; simpl in Hkey; [|done]. inv_some. simpl.
    split; [by eapply list_elem_of_lookup_2 | by eapply sort_key_score]. }
  assert (Hkeyed' : ∀ x, x ∈ c :: cs → ∃ kx, kx ∈ keyed ∧ kx.2 = x).
  { intros x Hx. apply list_elem_of_lookup in Hx as [i Hi].
    destruct (Forall2_lookup_l _ _ _ _ _ Ek Hi) as (kx & Hkx & Hkey).
    destruct (sort_key trec x) as [k|]; simpl in Hkey; [|done]. inv_some.
    eexists. split; [by eapply list_elem_of_lookup_2 | done]. }
  pose proof (sort_desc_Permutation keyed) as Hperm.
  destruct (sort_desc keyed) as [|top rest] eqn:Esort.
  { destruct (Hkeyed' _ Hmem) as (kf & Hkf & _).
    rewrite <- Hperm in Hkf. by apply elem_of_nil in Hkf. }
  pose proof (sort_desc_head_max keyed top rest Esort) as Hmax.
  assert (Htop : top ∈ keyed) by (rewrite <- Hperm; by left).
  assert (Hrest : ∀ y, y ∈ rest → y ∈ keyed) by (intros y Hy; rewrite <- Hperm; by right).
  destruct (Hkeyed top Htop) as [Htc Hts].
  destruct (proj1 (Hcands _) Htc) as (ght & Hght & Htop2 & Htpos).
  assert (Hmaxall : ∀ gh', gh' ∈ best → score (tuple_of gh') ≤ score (tuple_of ght)).
  { intros gh' Hgh'. rewrite <- Htop2, <- Hts.
    destruct (decide (0 < score (tuple_of gh'))) as [Hp|Hnp]; [|lia].
    assert (Hin : tuple_of gh' ∈ c :: cs) by (apply Hcands; eauto).
    destruct (Hkeyed' _ Hin) as (kx & Hkx & Hkx2).
    destruct (Hkeyed kx Hkx) as [_ Hks]. rewrite <- Hkx2, <- Hks.
    rewrite <- Hperm in Hkx. apply elem_of_cons in Hkx as [->|Hkx]; [lia|].
    rewrite Forall_forall in Hmax. by apply Hmax. }
  assert (Htpos' : 0 < score (tuple_of ght)) by (by rewrite <- Htop2).
  rewrite Forall_forall in Hbest.
  destruct (Hbest ght Hght) as [[s Hs] Hspan].
  assert (Hcls : QT.str_class ght.2 ≠ no_class).
  { rewrite Htop2 in Htpos. unfold tuple_of in Htpos. simpl in Htpos.
    rewrite Hs in Htpos. simpl in Htpos. by eapply rank_pos_class. }
  destruct (Hspan Hcls) as (a & b & n & Ha & Hb & _ & _).
  simpl. rewrite Htop2. simpl. rewrite Ha, Hb.
  assert (Hrs : Forall (λ t, ∃ s e, rStart t = Int s ∧ rEnd t = Int e) (snd <$> rest)).
  { apply Forall_fmap, Forall_forall. intros y Hy. simpl.
    destruct (Hkeyed y (Hrest y Hy)) as [Hyc _].
    destruct (proj1 (Hcands _) Hyc) as (gh & Hgh & -> & Hp).
    destruct (Hbest gh Hgh) as [[s' Hs'] Hspan'].
    unfold tuple_of in Hp. simpl in Hp. rewrite Hs' in Hp. simpl in Hp.
    destruct (Hspan' (rank_pos_class _ _ Hs' Hp)) as (a' & b' & ? & ? & ? & _).
    unfold tuple_of. simpl. eauto. }
  destruct (absorb_genes_is_Some ght.2 a b _ Hrs) as [h' Hh'].
  change (list_fmap (Z * Q * geneHitTuple)%type geneHitTuple snd rest)
    with (snd <$> rest).
  rewrite Hh'. simpl.
  apply absorb_genes_frame in Hh' as (extra & -> & Hsub).
  exists ght, extra. split; [done|]. split; [done|].
  split; [exact Htpos'|]. split; [exact Hmaxall|].
  intros g Hg. apply (elem_of_sublist _ _ _ Hg) in Hsub.
  apply list_elem_of_fmap in Hsub as (t & -> & Ht).
  apply list_elem_of_fmap in Ht as (y & -> & Hy).
  destruct (Hkeyed y (Hrest y Hy)) as [Hyc _].
  destruct (proj1 (Hcands _) Hyc) as (gh & Hgh & -> & _).
  unfold tuple_of. simpl. apply list_elem_of_fmap. eauto.
Qed.

(** ** The category of a multi-exon query *)

Lemma best_hits_rank cj trec polyA groups best :
  best_hits cj trec polyA groups = Some best →
  Forall2 (λ gr gh, gh.1 = gr.1 ∧
             ∃ n, cat_ranking (QT.str_class gh.2) = Some n ∧
                  (∀ r, r ∈ gr.2 → ref_rank cj trec r ≤ n) ∧
                  (n = 0 ∨ ∃ r, r ∈ gr.2 ∧ ref_rank cj trec r = n))
          groups best.
Proof.
  unfold best_hits. intros H. apply mapM_Some_1 in H.
  eapply Forall2_impl; [exact H|]. intros [g rs] gh Hgh. simpl in *.
  destruct (score_refs cj trec polyA (fresh_hit trec polyA) rs) as [h|] eqn:E;
    simpl in Hgh; [|done].
  inv_some. simpl. split; [done|].
  destruct (score_refs_rank cj trec polyA _ _ _ 0 E eq_refl) as (n & Hn & _ & Hall & Hsrc).
  exists n. done.
Qed.

Lemma score_tuple_of gh n :
  cat_ranking (QT.str_class gh.2) = Some n → score (tuple_of gh) = n.
Proof. intros H. unfold tuple_of. simpl. by rewrite H. Qed.

Lemma best_supported_among_candidates
    cj sg dA refs_1exon refs_exons start_ends trec :
  constructed trec → 2 ≤ GP.exonCount trec → GP.length trec ≠ 0 →
  (∀ pos, is_Some (dA trec pos)) →
  (∀ r, cj trec r = subset → GP.junctions r ≠ []) →
  (∀ r, r ∈ candidates refs_1exon refs_exons trec →
        GP.txStart r ≠ GP.txEnd r ∧ is_Some (start_ends !! GP.gene r)) →
  ∃ h n,
    transcriptsKnownSpliceSites cj sg dA refs_1exon refs_exons start_ends trec = Some h ∧
    cat_ranking (QT.str_class h) = Some n ∧
    (∀ r, r ∈ candidates refs_1exon refs_exons trec → ref_rank cj trec r ≤ n) ∧
    (n = 0 ∨ ∃ r, r ∈ candidates refs_1exon refs_exons trec ∧ ref_rank cj trec r = n).
Proof.
  intros Hct Hmulti Hlen HdA Hsubset Hcands.
  destruct (constructed_multi_exon_lists trec Hct Hmulti) as (Hq & [pe Hpe] & [ps Hps]).
  pose proof (constructed_spans trec Hct) as Hsum.
  unfold transcriptsKnownSpliceSites.
  assert (Hpos : ∃ pos, (if bool_decide (GP.strand trec = "+"%string)
                         then last (GP.exonEnds trec) else head (GP.exonStarts trec))
                        = Some pos).
  { case_bool_decide; eauto. }
  destruct Hpos as [pos ->]. simpl. destruct (HdA pos) as [polyA ->]. simpl.
  rewrite bool_decide_true by done.
  set (cands := candidates refs_1exon refs_exons trec) in *.
  destruct (group_hits_spec cands) as (Hnd & Hsound & Hcomplete).
  destruct (group_hits cands) as [|g0 groups0] eqn:Egroups.
  { assert (Hnil : ∀ r, r ∉ cands).
    { intros r Hr. destruct (Hcomplete r Hr) as (rs & Hin & _). by apply elem_of_nil in Hin. }
    unfold spliced_match. fold (candidates refs_1exon refs_exons trec). fold cands.
    rewrite Egroups. exists (fresh_hit trec polyA), 0. split; [done|]. split; [done|].
    split; [|by left]. intros r Hr. by apply Hnil in Hr. }
  rewrite <- Egroups in *.
  rewrite (spliced_match_groups cj sg refs_1exon refs_exons start_ends trec polyA)
    by (fold cands; by rewrite Egroups).
  fold cands.
  destruct (best_hits_inv cj trec polyA (group_hits cands) Hq) as (best & Hbest & Hall).
  { intros g rs r _ _. apply Hsubset. }
  pose proof (best_hits_rank _ _ _ _ _ Hbest) as Hranks.
  rewrite Hbest. simpl.
  assert (Hinfo : ∀ gh, gh ∈ best →
            ∃ rs, (gh.1, rs) ∈ group_hits cands ∧ hit_inv cj trec rs gh.2).
  { intros gh Hgh. destruct (Forall2_elem_of_r _ _ _ _ Hall Hgh) as ([g rs] & Hin & Hg & Hinv).
    simpl in *. exists rs. by rewrite Hg. }
  assert (Hrankable : Forall (λ gh, rankable gh.2) best).
  { apply Forall_forall. intros gh Hgh. destruct (Hinfo gh Hgh) as (rs & Hin & Hinv).
    split; [by apply (inv_rank _ _ _ _ Hinv)|]. intros Hc.
    destruct (inv_ref _ _ _ _ Hinv Hc) as (r & Hr & _ & Hs & He & Hn).
    destruct (Hsound _ _ _ Hin Hr) as [Hrc _]. destruct (Hcands r Hrc) as [Hne _].
    eauto 10. }
  (* every candidate is bounded by the rank of the hit of its gene *)
  assert (Hbound : ∀ r, r ∈ cands → ∃ gh, gh ∈ best ∧ ref_rank cj trec r ≤ score (tuple_of gh)).
  { intros r Hr. destruct (Hcomplete r Hr) as (rs & Hin & Hrs).
    destruct (Forall2_elem_of_l _ _ _ _ Hranks Hin) as (gh & Hgh & _ & n & Hn & Hle & _).
    exists gh. split; [done|]. rewrite (score_tuple_of _ _ Hn). by apply Hle. }
  assert (Hsource : ∀ gh, gh ∈ best → score (tuple_of gh) = 0 ∨
            ∃ r, r ∈ cands ∧ ref_rank cj trec r = score (tuple_of gh)).
  { intros gh Hgh.
    destruct (Forall2_elem_of_r _ _ _ _ Hranks Hgh) as ([g rs] & Hin & _ & n & Hn & _ & Hsrc).
    rewrite (score_tuple_of _ _ Hn). destruct Hsrc as [->|(r & Hr & Hrr)]; [by left|].
    right. exists r. split; [|done]. simpl in Hr. by destruct (Hsound _ _ _ Hin Hr). }
  rewrite <- Hsum in Hlen.
  destruct (decide (Exists (λ gh, 0 < score (tuple_of gh)) best)) as [Hex|Hnex].
  - destruct (select_best_top trec (default (fresh_hit trec polyA) (snd <$> last best))
                best Hlen Hrankable Hex) as (ght & extra & -> & Hght & Hpos & Hmax & Hextra).
    simpl. unfold finish_hit.
    destruct (Hinfo ght Hght) as (rs_t & Hin_t & Hinv_t).
    destruct (get_gene_diff_is_Some start_ends trec
                (QT.set_genes (QT.genes ght.2 ++ extra) ght.2)) as (a & b & ->).
    { simpl. apply Forall_app. split.
      - destruct (inv_rank _ _ _ _ Hinv_t) as [s Hs].
        rewrite (score_tuple_of _ _ Hs) in Hpos.
        destruct (inv_ref _ _ _ _ Hinv_t (rank_pos_class _ _ Hs Hpos))
          as (r & Hr & -> & _).
        constructor; [|constructor].
        destruct (Hsound _ _ _ Hin_t Hr) as [Hrc _]. by apply Hcands.
      - apply Forall_forall. intros g Hg. apply Hextra in Hg.
        apply list_elem_of_fmap in Hg as (gh & -> & Hgh).
        destruct (Hinfo gh Hgh) as (rs & Hin & Hinv).
        destruct (group_hits_nonempty cands gh.1 rs Hin) as (r0 & Hr0).
        destruct (Hsound _ _ _ Hin Hr0) as [Hr0c <-]. by apply Hcands. }
    simpl. destruct (inv_rank _ _ _ _ Hinv_t) as [s Hs].
    rewrite (score_tuple_of _ _ Hs) in *.
    eexists _, s. split; [reflexivity|]. simpl. split; [done|]. split.
    + intros r Hr. destruct (Hbound r Hr) as (gh & Hgh & Hle).
      specialize (Hmax gh Hgh). lia.
    + destruct (Hsource ght Hght) as [Hz|Hsrc].
      * rewrite (score_tuple_of _ _ Hs) in Hz. by left.
      * rewrite (score_tuple_of _ _ Hs) in Hsrc. by right.
  - assert (Hzero : Forall (λ gh, score (tuple_of gh) = 0) best).
    { apply Forall_forall. intros gh Hgh.
      rewrite Forall_forall in Hrankable. destruct (Hrankable gh Hgh) as [[s Hs] _].
      rewrite (score_tuple_of _ _ Hs). pose proof (rank_le_5 _ _ Hs).
      destruct (decide (0 < s)); [|lia]. exfalso. apply Hnex, Exists_exists.
      exists gh. split; [done|]. by rewrite (score_tuple_of _ _ Hs). }
    rewrite select_best_none by done. simpl.
    assert (Hlast : ∃ gh, last best = Some gh).
    { apply Forall2_length in Hall. rewrite Egroups in Hall. simpl in Hall.
      destruct (last best) eqn:El; [by eexists|]. apply last_None in El. subst.
      simpl in Hall. lia. }
    destruct Hlast as [ghl Hl]. rewrite Hl. simpl.
    assert (Hghl : ghl ∈ best).
    { rewrite last_lookup in Hl. by eapply list_elem_of_lookup_2. }
    rewrite Forall_forall in Hzero, Hrankable.
    destruct (Hrankable ghl Hghl) as [[s Hs] _].
    pose proof (Hzero ghl Hghl) as Hz. rewrite (score_tuple_of _ _ Hs) in Hz. subst s.
    exists ghl.2, 0. split; [done|]. split; [done|]. split; [|by left].
    intros r Hr. destruct (Hbound r Hr) as (gh & Hgh & Hle).
    rewrite (Hzero gh Hgh) in Hle. done.
Qed.

(** X17: for a multi-exon query against the parsed reference,
    [transcriptsKnownSpliceSites] returns the best-ranked category that a
    single overlapping reference record supports.  A record of the other
    strand supports nothing; a same-strand single-exon record supports
    geneOverlap when it shares exonic bases; any other same-strand record
    supports full_splice_match, incomplete_splice_match or
    anyKnownJunction according to the junction comparison, and on a
    nomatch anyKnownSpliceSite when it shares an exon boundary, else
    geneOverlap when it shares exonic bases.  With no supporting record
    the hit is returned unclassified.  The junction comparison is a
    parameter that answers subset only for references with junctions;
    records come from the constructor, reference spans and the query
    length are not zero, and the genome covers the query. *)
Theorem multi_exon_category_is_best_supported
    cj sg dA min_ref_len is_fusion lines recs trec :
  genePredReader lines = Some recs →
  (∀ r, r ∈ recs → GP.txStart r < GP.txEnd r) →
  constructed trec → 2 ≤ GP.exonCount trec → GP.length trec ≠ 0 →
  (∀ pos, is_Some (dA trec pos)) →
  (∀ r, cj trec r = subset → GP.junctions r ≠ []) →
  ∃ idx h n,
    reference_parser min_ref_len is_fusion lines = Some idx ∧
    transcriptsKnownSpliceSites cj sg dA (refs_1exon_by_chr idx) (refs_exons_by_chr idx)
      (known_5_3_by_gene idx) trec = Some h ∧
    cat_ranking (QT.str_class h) = Some n ∧
    (∀ r, r ∈ recs → (is_fusion = true ∨ min_ref_len ≤ GP.length r) →
          GP.chrom r = GP.chrom trec →
          GP.txStart r < GP.txEnd trec → GP.txStart trec < GP.txEnd r →
          ref_rank cj trec r ≤ n) ∧
    (n = 0 ∨
     ∃ r, r ∈ recs ∧ (is_fusion = true ∨ min_ref_len ≤ GP.length r) ∧
          GP.chrom r = GP.chrom trec ∧
          GP.txStart r < GP.txEnd trec ∧ GP.txStart trec < GP.txEnd r ∧
          ref_rank cj trec r = n).
Proof.
  intros Hread Hspans Hct Hmulti Hlen HdA Hsubset.
  unfold reference_parser. rewrite Hread. simpl.
  set (idx := index_records min_ref_len is_fusion recs).
  destruct (best_supported_among_candidates cj sg dA
              (refs_1exon_by_chr idx) (refs_exons_by_chr idx) (known_5_3_by_gene idx)
              trec Hct Hmulti Hlen HdA Hsubset) as (h & n & Hh & Hn & Hall & Hsrc).
  - intros r Hr. apply index_candidates in Hr as (Hr & Hk & _).
    split; [specialize (Hspans r Hr); lia|].
    unfold idx, index_records. simpl. apply index_fold_bounds. right. eauto.
  - exists idx, h, n. split; [done|]. split; [done|]. split; [done|]. split.
    + intros r Hr Hk Hc Hs He. apply Hall, index_candidates. done.
    + destruct Hsrc as [->|(r & Hr & Hrr)]; [by left|]. right.
      apply index_candidates in Hr as (? & ? & ? & ? & ?). exists r. done.
Qed.

Lemma multi_exon_category_is_best_supported_witness :
  ∃ idx h n,
    reference_parser 200 false [line_G] = Some idx ∧
    transcriptsKnownSpliceSites compare_junctions_spec sort_genes_by_inclusion
      no_A_downstream (refs_1exon_by_chr idx) (refs_exons_by_chr idx)
      (known_5_3_by_gene idx) rec_Q = Some h ∧
    cat_ranking (QT.str_class h) = Some n ∧
    ref_rank compare_junctions_spec rec_Q rec_G ≤ n.
Proof.
  destruct (multi_exon_category_is_best_supported compare_junctions_spec
              sort_genes_by_inclusion no_A_downstream 200 false
              [line_G] [rec_G] rec_Q)
    as (idx & h & n & Hidx & Hh & Hn & Hall & _).
  - reflexivity.
  - intros r Hr. apply list_elem_of_singleton in Hr as ->. simpl. lia.
  - by exists line_Q.
  - simpl. lia.
  - simpl. lia.
  - intros pos. by eexists.
  - intros r. by apply compare_junctions_spec_subset.
  - exists idx, h, n. split; [exact Hidx|]. split; [exact Hh|]. split; [exact Hn|].
    apply Hall.
    + by left.
    + right. simpl. lia.
    + reflexivity.
    + simpl. lia.
    + simpl. lia.
Defined.

(** ** Queries without a same-strand match *)

Lemma set_AS_genes_twice a b h :
  QT.set_AS_genes a (QT.set_AS_genes b h) = QT.set_AS_genes a h.
Proof. reflexivity. Qed.

Lemma score_refs_opposite cj trec polyA h rs :
  (∀ r, r ∈ rs → GP.strand trec ≠ GP.strand r) →
  score_refs cj trec polyA h rs =
  Some (QT.set_AS_genes (list_to_set (GP.gene <$> rs) ∪ QT.AS_genes h) h).
Proof.
  revert h. induction rs as [|r rs IH]; intros h Hall; simpl.
  - f_equal. rewrite (left_id_L ∅ (∪)). by destruct h.
  - unfold score_ref. rewrite bool_decide_true by (apply Hall; by left). simpl.
    rewrite IH by (intros r' Hr'; apply Hall; by right).
    rewrite set_AS_genes_twice. simpl. do 2 f_equal. set_solver.
Qed.

Lemma mapM_fmap_total {A B} (f : A → option B) (g : A → B) (l : list A) :
  (∀ x, x ∈ l → f x = Some (g x)) → mapM f l = Some (g <$> l).
Proof.
  induction l as [|x l IH]; intros H; simpl; [done|].
  rewrite (H x) by (by left). simpl. rewrite IH by (intros y Hy; apply H; by right).
  done.
Qed.

Lemma spliced_match_opposite cj sg refs_1exon refs_exons start_ends trec polyA :
  candidates refs_1exon refs_exons trec ≠ [] →
  (∀ r, r ∈ candidates refs_1exon refs_exons trec → GP.strand trec ≠ GP.strand r) →
  ∃ r, r ∈ candidates refs_1exon refs_exons trec ∧
       spliced_match cj sg refs_1exon refs_exons start_ends trec polyA =
       Some (QT.set_AS_genes {[GP.gene r]} (fresh_hit trec polyA)).
Proof.
  intros Hne Hopp. set (cands := candidates refs_1exon refs_exons trec) in *.
  destruct (group_hits_spec cands) as (Hnd & Hsound & Hcomplete).
  assert (Hgne : group_hits cands ≠ []).
  { destruct cands as [|r0 cs] eqn:Ec; [done|]. rewrite <- Ec in *.
    destruct (Hcomplete r0 ltac:(rewrite Ec; by left)) as (rs & Hin & _).
    intros Hn. rewrite Hn in Hin. by apply elem_of_nil in Hin. }
  rewrite spliced_match_groups by done. fold cands.
  assert (Hbest : best_hits cj trec polyA (group_hits cands) =
                  Some (opposite_hit trec polyA <$> group_hits cands)).
  { unfold best_hits. apply mapM_fmap_total. intros [g rs] Hin. simpl.
    rewrite score_refs_opposite.
    - done.
    - intros r Hr. apply Hopp. by destruct (Hsound _ _ _ Hin Hr). }
  rewrite Hbest. simpl.
  rewrite select_best_none.
  2:{ apply Forall_fmap, Forall_forall. intros gr _. split; simpl; [by eexists|done]. }
  2:{ apply Forall_fmap, Forall_forall. by intros gr _. }
  simpl. rewrite fmap_last.
  destruct (last (group_hits cands)) as [[g rs]|] eqn:El.
  2:{ by apply last_None in El. }
  simpl.
  assert (Hin : (g, rs) ∈ group_hits cands).
  { rewrite last_lookup in El. by eapply list_elem_of_lookup_2. }
  destruct (group_hits_nonempty cands g rs Hin) as (r & Hr).
  destruct (Hsound _ _ _ Hin Hr) as [Hrc Hrg].
  exists r. split; [done|]. do 2 f_equal.
  apply set_eq. intros x. rewrite elem_of_union, elem_of_list_to_set, list_elem_of_fmap,
    elem_of_singleton. split.
  - intros [(r' & -> & Hr')|Hx]; [|set_solver].
    destruct (Hsound _ _ _ Hin Hr') as [_ ->]. done.
  - intros ->. left. exists r. done.
Qed.

(** X18: a multi-exon query whose overlapping reference records all lie on
    the other strand, and there is at least one, is classified antisense.
    Its gene list holds a single name, novelGene_<g>_AS, for the gene [g]
    of one of those records, even when records of several genes overlap:
    only the antisense set of the gene visited last is kept. *)
Theorem multi_exon_opposite_strand_is_antisense
    cj sg dA min_ref_len is_fusion lines recs trec ref :
  genePredReader lines = Some recs →
  2 ≤ GP.exonCount trec →
  is_Some (last (GP.exonEnds trec)) → is_Some (head (GP.exonStarts trec)) →
  (∀ pos, is_Some (dA trec pos)) →
  ref ∈ recs → (is_fusion = true ∨ min_ref_len ≤ GP.length ref) →
  GP.chrom ref = GP.chrom trec →
  GP.txStart ref < GP.txEnd trec → GP.txStart trec < GP.txEnd ref →
  (∀ r, r ∈ recs → (is_fusion = true ∨ min_ref_len ≤ GP.length r) →
        GP.chrom r = GP.chrom trec →
        GP.txStart r < GP.txEnd trec → GP.txStart trec < GP.txEnd r →
        GP.strand trec ≠ GP.strand r) →
  ∃ idx h r,
    reference_parser min_ref_len is_fusion lines = Some idx ∧
    classify cj sg dA idx trec = Some h ∧
    QT.str_class h = antisense ∧
    r ∈ recs ∧ GP.chrom r = GP.chrom trec ∧ GP.strand trec ≠ GP.strand r ∧
    GP.txStart r < GP.txEnd trec ∧ GP.txStart trec < GP.txEnd r ∧
    QT.genes h = ["novelGene_" +:+ GP.gene r +:+ "_AS"] ∧
    QT.AS_genes h = {[GP.gene r]} ∧
    QT.transcripts h = ["novel"%string] ∧ QT.subtype h = "multi-exon"%string.
Proof.
  intros Hread Hmulti [pe Hpe] [ps Hps] HdA Href Hkept Hchrom Hov1 Hov2 Hopp.
  unfold reference_parser. rewrite Hread. simpl.
  set (idx := index_records min_ref_len is_fusion recs).
  assert (Hpos : ∃ pos, (if bool_decide (GP.strand trec = "+"%string)
                         then last (GP.exonEnds trec) else head (GP.exonStarts trec))
                        = Some pos).
  { case_bool_decide; eauto. }
  destruct Hpos as [pos Hpos]. destruct (HdA pos) as [polyA HpolyA].
  destruct (spliced_match_opposite cj sg (refs_1exon_by_chr idx) (refs_exons_by_chr idx)
              (known_5_3_by_gene idx) trec polyA) as (r & Hr & Hsm).
  - intros Hnil.
    assert (Hin : ref ∈ candidates (refs_1exon_by_chr idx) (refs_exons_by_chr idx) trec).
    { apply index_candidates. done. }
    rewrite Hnil in Hin. by apply elem_of_nil in Hin.
  - intros r Hr. apply index_candidates in Hr as (? & ? & ? & ? & ?). by apply Hopp.
  - apply index_candidates in Hr as (Hrr & Hrk & Hrc & Hrs & Hre).
    assert (Ht : transcriptsKnownSpliceSites cj sg dA (refs_1exon_by_chr idx)
                   (refs_exons_by_chr idx) (known_5_3_by_gene idx) trec =
                 Some (QT.set_AS_genes {[GP.gene r]} (fresh_hit trec polyA))).
    { unfold transcriptsKnownSpliceSites. rewrite Hpos. cbn [mbind option_bind].
      rewrite HpolyA. cbn [mbind option_bind]. by rewrite bool_decide_true. }
    exists idx. eexists. exists r. split; [done|].
    unfold classify. rewrite Ht. cbn [mbind option_bind].
    cbn [QT.str_class QT.set_AS_genes fresh_hit new_hit].
    rewrite bool_decide_false.
    2:{ intros Hin. apply list_elem_of_In in Hin. simpl in Hin.
        destruct Hin as [?|[?|[]]]; discriminate. }
    rewrite bool_decide_true by (by left).
    split; [reflexivity|].
    unfold associationOverlapping.
    cbn [QT.genes QT.set_subtype QT.set_transcripts QT.set_str_class QT.AS_genes
         QT.set_AS_genes fresh_hit new_hit].
    rewrite bool_decide_true by done.
    rewrite (bool_decide_false ({[GP.gene r]} = ∅)).
    2:{ intros He. apply (non_empty_singleton_L (C := gset string) (GP.gene r)). exact He. }
    cbn [QT.str_class QT.set_genes QT.set_str_class QT.genes QT.AS_genes QT.transcripts
         QT.subtype].
    rewrite elements_singleton.
    rewrite bool_decide_false by lia. split_and!; try done. by apply Hopp.
Qed.

Lemma multi_exon_opposite_strand_is_antisense_witness :
  ∃ idx h,
    reference_parser 200 false [line_G] = Some idx ∧
    classify compare_junctions_spec sort_genes_by_inclusion no_A_downstream idx rec_minus
      = Some h ∧
    QT.str_class h = antisense.
Proof.
  destruct (multi_exon_opposite_strand_is_antisense compare_junctions_spec
              sort_genes_by_inclusion no_A_downstream 200 false
              [line_G] [rec_G] rec_minus rec_G)
    as (idx & h & r & Hidx & Hh & Hc & _).
  - reflexivity.
  - simpl. lia.
  - by eexists.
  - by eexists.
  - intros pos. by eexists.
  - by left.
  - right. simpl. lia.
  - reflexivity.
  - simpl. lia.
  - simpl. lia.
  - intros r Hr _ _ _ _. apply list_elem_of_singleton in Hr as ->. discriminate.
  - by exists idx, h.
Defined.

(** ** Queries that overlap no reference record *)

Lemma candidates_nil_spliced cj sg refs_1exon refs_exons start_ends trec polyA :
  candidates refs_1exon refs_exons trec = [] →
  spliced_match cj sg refs_1exon refs_exons start_ends trec polyA =
  Some (fresh_hit trec polyA).
Proof.
  unfold spliced_match, candidates. by intros ->.
Qed.

(** X19: a multi-exon query whose span overlaps no indexed reference record
    of its chromosome has no gene and no antisense gene, transcript
    "novel" and subtype multi-exon.  Its category is intergenic or
    genic_intron when the chromosome has reference junctions; on a
    chromosome without any reference junction it is antisense, with an
    empty gene list. *)
Theorem multi_exon_without_overlap
    cj sg dA min_ref_len is_fusion lines recs trec :
  genePredReader lines = Some recs →
  2 ≤ GP.exonCount trec →
  is_Some (last (GP.exonEnds trec)) → is_Some (head (GP.exonStarts trec)) →
  (∀ pos, is_Some (dA trec pos)) →
  (∀ r, r ∈ recs → (is_fusion = true ∨ min_ref_len ≤ GP.length r) →
        GP.chrom r = GP.chrom trec →
        ¬ (GP.txStart r < GP.txEnd trec ∧ GP.txStart trec < GP.txEnd r)) →
  ∃ idx h,
    reference_parser min_ref_len is_fusion lines = Some idx ∧
    classify cj sg dA idx trec = Some h ∧
    QT.genes h = [] ∧ QT.AS_genes h = ∅ ∧
    QT.transcripts h = ["novel"%string] ∧ QT.subtype h = "multi-exon"%string ∧
    (is_Some (junctions_by_chr idx !! GP.chrom trec) →
       QT.str_class h = intergenic ∨ QT.str_class h = genic_intron) ∧
    (junctions_by_chr idx !! GP.chrom trec = None → QT.str_class h = antisense).
Proof.
  intros Hread Hmulti [pe Hpe] [ps Hps] HdA Hno.
  unfold reference_parser. rewrite Hread. simpl.
  set (idx := index_records min_ref_len is_fusion recs).
  assert (Hpos : ∃ pos, (if bool_decide (GP.strand trec = "+"%string)
                         then last (GP.exonEnds trec) else head (GP.exonStarts trec))
                        = Some pos).
  { case_bool_decide; eauto. }
  destruct Hpos as [pos Hpos]. destruct (HdA pos) as [polyA HpolyA].
  assert (Hnil : candidates (refs_1exon_by_chr idx) (refs_exons_by_chr idx) trec = []).
  { destruct (candidates _ _ trec) as [|r cs] eqn:Ec; [done|]. exfalso.
    assert (Hr : r ∈ candidates (refs_1exon_by_chr idx) (refs_exons_by_chr idx) trec)
      by (rewrite Ec; by left).
    apply index_candidates in Hr as (Hr & Hk & Hc & Hs & He).
    by apply (Hno r Hr Hk Hc). }
  assert (Ht : transcriptsKnownSpliceSites cj sg dA (refs_1exon_by_chr idx)
                 (refs_exons_by_chr idx) (known_5_3_by_gene idx) trec =
               Some (fresh_hit trec polyA)).
  { unfold transcriptsKnownSpliceSites. rewrite Hpos. cbn [mbind option_bind].
    rewrite HpolyA. cbn [mbind option_bind]. rewrite bool_decide_true by done.
    by apply candidates_nil_spliced. }
  exists idx. eexists. split; [done|].
  unfold classify. rewrite Ht. cbn [mbind option_bind].
  cbn [QT.str_class fresh_hit new_hit].
  rewrite bool_decide_false.
  2:{ intros Hin. apply list_elem_of_In in Hin. simpl in Hin.
      destruct Hin as [?|[?|[]]]; discriminate. }
  rewrite bool_decide_true by (by left).
  split; [reflexivity|].
  unfold associationOverlapping.
  cbn [QT.genes QT.set_subtype QT.set_transcripts QT.set_str_class QT.AS_genes].
  rewrite !bool_decide_true by done.
  rewrite (bool_decide_false (GP.exonCount trec = 1)) by lia.
  destruct (junctions_by_chr idx !! GP.chrom trec) as [c|] eqn:Ec.
  - destruct (intron_scan _ _); simpl; split_and!; try done; auto.
  - simpl. split_and!; try done.
Qed.

Lemma multi_exon_without_overlap_witness :
  ∃ idx h,
    reference_parser 200 false [line_G] = Some idx ∧
    classify compare_junctions_spec sort_genes_by_inclusion no_A_downstream idx rec_far
      = Some h ∧
    QT.genes h = [] ∧ QT.AS_genes h = ∅.
Proof.
  destruct (multi_exon_without_overlap compare_junctions_spec
              sort_genes_by_inclusion no_A_downstream 200 false
              [line_G] [rec_G] rec_far)
    as (idx & h & Hidx & Hh & Hg & Ha & _).
  - reflexivity.
  - simpl. lia.
  - by eexists.
  - by eexists.
  - intros pos. by eexists.
  - intros r Hr _ _. apply list_elem_of_singleton in Hr as ->. simpl. lia.
  - by exists idx, h.
Defined.

(** ** Single-exon queries against single-exon references *)

Lemma unspliced_1exon_step_inv trec polyA seen h r :
  mono_inv trec seen h →
  ∃ h', unspliced_1exon_step trec polyA h r = Some h' ∧ mono_inv trec (seen ++ [r]) h'.
Proof.
  intros Hinv. unfold unspliced_1exon_step. case_bool_decide as Hs.
  { eexists. split; [done|]. destruct Hinv as [(Hc & Hg & Hall)|(Hc & Hst & r0 & Hr0 & Hrest)].
    - left. split; [done|]. split; [done|]. intros r' Hr'.
      apply elem_of_app in Hr' as [Hr'|Hr']; [by apply Hall|].
      by apply list_elem_of_singleton in Hr' as ->.
    - right. split; [done|]. split; [done|]. exists r0.
      split; [apply elem_of_app; by left|].
      destruct Hrest as (? & ? & ? & ? & ? & ? & ? & Hmin). split_and!; try done.
      intros r' Hr' Hs'. apply elem_of_app in Hr' as [Hr'|Hr']; [by apply Hmin|].
      apply list_elem_of_singleton in Hr' as ->. done. }
  assert (Hsame : GP.strand r = GP.strand trec).
  { destruct (decide (GP.strand r = GP.strand trec)); [done|]. exfalso. tauto. }
  destruct Hinv as [(Hc & Hg & Hall)|(Hc & Hst & r0 & Hr0 & Hs0 & Hg0 & Ht0 & Hd1 & Hd2 & Hl & He & Hmin)].
  - rewrite bool_decide_true by done. eexists. split; [done|]. right. simpl.
    split; [done|]. split; [done|]. exists r.
    split; [apply elem_of_app; right; by left|]. split_and!; try done.
    intros r' Hr' Hs'. apply elem_of_app in Hr' as [Hr'|Hr'].
    + by destruct (Hall r' Hr').
    + apply list_elem_of_singleton in Hr' as ->. done.
  - rewrite bool_decide_false by (rewrite Hc; discriminate).
    unfold QT.get_total_diff. rewrite Hd1, Hd2. simpl.
    eexists. split; [done|]. right. case_bool_decide as Hlt; simpl.
    + split; [done|]. split; [done|]. exists r.
      split; [apply elem_of_app; right; by left|]. split_and!; try done.
      intros r' Hr' Hs'. apply elem_of_app in Hr' as [Hr'|Hr'].
      * specialize (Hmin r' Hr' Hs'). unfold total_diff in *. lia.
      * apply list_elem_of_singleton in Hr' as ->. done.
    + split; [done|]. split; [done|]. exists r0.
      split; [apply elem_of_app; by left|]. split_and!; try done.
      intros r' Hr' Hs'. apply elem_of_app in Hr' as [Hr'|Hr']; [by apply Hmin|].
      apply list_elem_of_singleton in Hr' as ->. unfold total_diff in *. lia.
Qed.

Lemma unspliced_1exon_loop_inv trec polyA seen h rs :
  mono_inv trec seen h →
  ∃ h', foldl (λ acc ref, h ← acc; unspliced_1exon_step trec polyA h ref) (Some h) rs
          = Some h' ∧ mono_inv trec (seen ++ rs) h'.
Proof.
  revert seen h. induction rs as [|r rs IH]; intros seen h Hinv; simpl.
  - exists h. by rewrite app_nil_r.
  - destruct (unspliced_1exon_step_inv trec polyA seen h r Hinv) as (h1 & -> & Hinv1).
    destruct (IH _ _ Hinv1) as (h' & Hh' & Hinv'). exists h'.
    split; [done|]. by rewrite <- app_assoc in Hinv'.
Qed.

Lemma index_candidates_1exon min_ref_len is_fusion recs trec r :
  r ∈ find_refs (refs_1exon_by_chr (index_records min_ref_len is_fusion recs)) trec ↔
  r ∈ recs ∧ kept min_ref_len is_fusion r ∧ GP.exonCount r = 1 ∧
  GP.chrom r = GP.chrom trec ∧
  GP.txStart r < GP.txEnd trec ∧ GP.txStart trec < GP.txEnd r.
Proof.
  unfold index_records. simpl. rewrite find_refs_spec.
  setoid_rewrite index_fold_1exon. split.
  - intros (s & e & [H|(r' & Hr' & Hk & H1 & Hc & Hx)] & Hs & He);
      [by apply in_tree_empty in H|]. inversion Hx; subst. done.
  - intros (Hr & Hk & H1 & Hc & Hs & He).
    exists (GP.txStart r), (GP.txEnd r). split; [|done]. right. exists r. done.
Qed.

(** X20: a query with fewer than two exons that overlaps, by its span, a
    same-strand single-exon reference record of the parsed index is a
    full_splice_match of subtype mono-exon, however small the overlap.
    The reported transcript is such a record with the least
    |tss_diff| + |tts_diff|; the gene list is the sort of its one gene. *)
Theorem single_exon_query_matches_single_exon_reference
    cj sg dA min_ref_len is_fusion lines recs trec ref :
  genePredReader lines = Some recs →
  GP.exonCount trec < 2 →
  is_Some (last (GP.exonEnds trec)) → is_Some (head (GP.exonStarts trec)) →
  (∀ pos, is_Some (dA trec pos)) →
  ref ∈ recs → (is_fusion = true ∨ min_ref_len ≤ GP.length ref) →
  GP.exonCount ref = 1 → GP.chrom ref = GP.chrom trec → GP.strand ref = GP.strand trec →
  GP.txStart ref < GP.txEnd trec → GP.txStart trec < GP.txEnd ref →
  ∃ idx h r,
    reference_parser min_ref_len is_fusion lines = Some idx ∧
    classify cj sg dA idx trec = Some h ∧
    QT.str_class h = full_splice_match ∧ QT.subtype h = "mono-exon"%string ∧
    r ∈ recs ∧ GP.exonCount r = 1 ∧ GP.chrom r = GP.chrom trec ∧
    GP.strand r = GP.strand trec ∧
    GP.txStart r < GP.txEnd trec ∧ GP.txStart trec < GP.txEnd r ∧
    QT.transcripts h = [GP.id r] ∧
    QT.genes h = sg (known_5_3_by_gene idx) [GP.gene r] ∧
    QT.tss_diff h = Int (get_diff_tss_tts trec r).1 ∧
    QT.tts_diff h = Int (get_diff_tss_tts trec r).2 ∧
    ∀ r', r' ∈ recs → (is_fusion = true ∨ min_ref_len ≤ GP.length r') →
          GP.exonCount r' = 1 → GP.chrom r' = GP.chrom trec →
          GP.strand r' = GP.strand trec →
          GP.txStart r' < GP.txEnd trec → GP.txStart trec < GP.txEnd r' →
          total_diff trec r ≤ total_diff trec r'.
Proof.
  intros Hread Hmono [pe Hpe] [ps Hps] HdA Href Hkept Hone Hchrom Hstrand Hov1 Hov2.
  unfold reference_parser. rewrite Hread. simpl.
  set (idx := index_records min_ref_len is_fusion recs).
  assert (Hpos : ∃ pos, (if bool_decide (GP.strand trec = "+"%string)
                         then last (GP.exonEnds trec) else head (GP.exonStarts trec))
                        = Some pos).
  { case_bool_decide; eauto. }
  destruct Hpos as [pos Hpos]. destruct (HdA pos) as [polyA HpolyA].
  destruct (unspliced_1exon_loop_inv trec polyA [] (fresh_hit trec polyA)
              (find_refs (refs_1exon_by_chr idx) trec)) as (h1 & Hh1 & Hinv).
  { left. split; [done|]. split; [done|]. intros r Hr. by apply elem_of_nil in Hr. }
  simpl in Hinv.
  assert (Hrefc : ref ∈ find_refs (refs_1exon_by_chr idx) trec).
  { apply index_candidates_1exon. done. }
  destruct Hinv as [(_ & _ & Hall)|(Hc & Hst & r & Hr & Hs & Hg & Ht & Hd1 & Hd2 & Hl & He & Hmin)].
  { by destruct (Hall ref Hrefc). }
  pose proof Hr as Hr'. apply index_candidates_1exon in Hr' as (Hrr & Hrk & Hr1 & Hrc & Hrs & Hre).
  destruct (get_gene_diff_is_Some (known_5_3_by_gene idx) trec h1) as (a & b & Hgd).
  { rewrite Hg. constructor; [|constructor].
    unfold idx, index_records. simpl. apply index_fold_bounds. right. eauto. }
  assert (Ht' : transcriptsKnownSpliceSites cj sg dA (refs_1exon_by_chr idx)
                  (refs_exons_by_chr idx) (known_5_3_by_gene idx) trec =
                Some (QT.set_genes (sg (known_5_3_by_gene idx) [GP.gene r])
                        (QT.set_gene_diffs a b h1))).
  { unfold transcriptsKnownSpliceSites. rewrite Hpos. cbn [mbind option_bind].
    rewrite HpolyA. cbn [mbind option_bind]. rewrite bool_decide_false by lia.
    unfold unspliced_match. rewrite Hh1. cbn [mbind option_bind].
    rewrite bool_decide_false by (rewrite Hc; discriminate).
    cbn [mbind option_bind]. unfold finish_hit. rewrite Hgd. cbn [mbind option_bind].
    cbn [QT.genes QT.set_gene_diffs]. by rewrite Hg. }
  exists idx. eexists. exists r. split; [done|].
  unfold classify. rewrite Ht'. cbn [mbind option_bind].
  cbn [QT.str_class QT.set_genes QT.set_gene_diffs]. rewrite Hc.
  rewrite bool_decide_false.
  2:{ intros Hin. apply list_elem_of_In in Hin. simpl in Hin.
      destruct Hin as [?|[?|[]]]; discriminate. }
  rewrite bool_decide_false.
  2:{ intros Hin. apply list_elem_of_In in Hin. simpl in Hin.
      destruct Hin as [?|[?|[]]]; discriminate. }
  split; [reflexivity|]. simpl. split_and!; try done.
  intros r' Hr' Hk' H1' Hc' Hs' Ho1 Ho2. apply Hmin; [|done].
  apply index_candidates_1exon. done.
Qed.

Lemma single_exon_query_matches_single_exon_reference_witness :
  ∃ idx h,
    reference_parser 200 false [line_S2] = Some idx ∧
    classify compare_junctions_spec sort_genes_by_inclusion no_A_downstream idx rec_touch
      = Some h ∧
    QT.str_class h = full_splice_match ∧ QT.subtype h = "mono-exon"%string.
Proof.
  destruct (single_exon_query_matches_single_exon_reference compare_junctions_spec
              sort_genes_by_inclusion no_A_downstream 200 false
              [line_S2] [rec_S2] rec_touch rec_S2)
    as (idx & h & r & Hidx & Hh & Hc & Hst & _).
  - reflexivity.
  - simpl. lia.
  - by eexists.
  - by eexists.
  - intros pos. by eexists.
  - by left.
  - right. simpl. lia.
  - reflexivity.
  - reflexivity.
  - reflexivity.
  - simpl. lia.
  - simpl. lia.
  - by exists idx, h.
Defined.

(** ** [find_polyA_motif] *)

Lemma str_find_occurrence pre sub post :
  ∃ k, str_find (pre ++ sub ++ post) sub = Some k.
Proof.
  induction pre as [|c pre IHp]; simpl.
  - destruct (sub ++ post) eqn:E; simpl;
      (rewrite bool_decide_true; [by eexists | rewrite <- E; by exists post]).
  - case_bool_decide; [by eexists|]. destruct IHp as [k ->]. by eexists.
Qed.

Lemma str_find_Some s sub i :
  str_find s sub = Some i ↔
  ∃ pre post, occurs_at sub s pre post ∧ length pre = i ∧
              ∀ pre' post', occurs_at sub s pre' post' → (i ≤ length pre')%nat.
Proof.
  unfold occurs_at. revert i. induction s as [|c s IH]; intros i.
  - cbn [str_find]. case_bool_decide as Hp.
    + split.
      * intros H. injection H as <-. destruct Hp as [post Hp]. exists [], post.
        split; [done|]. split; [done|]. intros; lia.
      * intros (pre & post & Hs & Hl & _). destruct pre; [|done]. simpl in Hl. by subst.
    + split; [done|]. intros (pre & post & Hs & _). exfalso. apply Hp.
      destruct pre; [|done]. simpl in Hs. by exists post.
  - cbn [str_find]. case_bool_decide as Hp.
    + split.
      * intros H. injection H as <-. destruct Hp as [post Hp]. exists [], post.
        split; [done|]. split; [done|]. intros; lia.
      * intros (pre & post & Hs & Hl & Hmin). destruct Hp as [post0 Hp].
        specialize (Hmin [] post0 Hp). simpl in Hmin. f_equal. lia.
    + assert (Hhead : ∀ pre' post', c :: s = pre' ++ sub ++ post' →
                ∃ pre1, pre' = c :: pre1 ∧ s = pre1 ++ sub ++ post').
      { intros pre' post' Hs'. destruct pre' as [|c' pre'].
        - exfalso. apply Hp. by exists post'.
        - simpl in Hs'. injection Hs' as -> ->. by exists pre'. }
      destruct (str_find s sub) as [k|] eqn:Ek; simpl.
      * destruct (proj1 (IH k) eq_refl) as (pre & post & Hs & Hl & Hmin). split.
        -- intros H. injection H as <-. exists (c :: pre), post.
           split; [by rewrite Hs at 1|]. split; [by rewrite <- Hl|].
           intros pre' post' Hs'. destruct (Hhead _ _ Hs') as (pre1 & -> & Hs1).
           specialize (Hmin pre1 post' Hs1). simpl. lia.
        -- intros (pre1 & post1 & Hs1 & Hl1 & Hmin1). f_equal.
           destruct (Hhead _ _ Hs1) as (pre2 & -> & Hs2).
           pose proof (Hmin pre2 post1 Hs2).
           pose proof (Hmin1 (c :: pre) post ltac:(by rewrite Hs at 1)).
           simpl in *. lia.
      * split; [done|]. intros (pre1 & post1 & Hs1 & Hl1 & Hmin1). exfalso.
        destruct (Hhead _ _ Hs1) as (pre2 & -> & Hs2).
        destruct (str_find_occurrence pre2 sub post1) as [k Hk].
        rewrite <- Hs2 in Hk. congruence.
Qed.

Lemma str_find_None s sub :
  str_find s sub = None ↔ ¬ ∃ pre post, occurs_at sub s pre post.
Proof.
  split.
  - intros Hn (pre & post & Hs). unfold occurs_at in Hs. subst s.
    destruct (str_find_occurrence pre sub post) as [k Hk]. congruence.
  - intros Hn. destruct (str_find s sub) as [i|] eqn:E; [|done]. exfalso.
    apply str_find_Some in E as (pre & post & Hs & _). apply Hn. eauto.
Qed.

(** X21: [find_polyA_motif] reports the first motif of the ranked list that
    occurs in the sequence, at its leftmost occurrence; the distance is
    minus one minus the number of bases that follow the motif, so it is
    never positive or zero.  It reports ("NA", "NA") exactly when no motif
    of the list occurs. *)
Theorem find_polyA_motif_first_ranked (genome_seq : list ascii)
    (polyA_motif_list : list (list ascii)) :
  (find_polyA_motif genome_seq polyA_motif_list = NoMotif ↔
   ∀ m, m ∈ polyA_motif_list → ¬ ∃ pre post, occurs_at m genome_seq pre post) ∧
  (∀ m d, find_polyA_motif genome_seq polyA_motif_list = MotifAt m d →
     ∃ k pre post,
       polyA_motif_list !! k = Some m ∧
       (∀ j m', (j < k)%nat → polyA_motif_list !! j = Some m' →
                ¬ ∃ pre' post', occurs_at m' genome_seq pre' post') ∧
       occurs_at m genome_seq pre post ∧
       (∀ pre' post', occurs_at m genome_seq pre' post' →
                      (length pre ≤ length pre')%nat) ∧
       d = - (Z.of_nat (length post) + 1)).
Proof.
  induction polyA_motif_list as [|m0 l [IH1 IH2]]; simpl.
  - split; [|done]. split; [|done]. intros _ m Hm. by apply elem_of_nil in Hm.
  - destruct (str_find genome_seq m0) as [i|] eqn:E.
    + split.
      * split; [done|]. intros Hall. exfalso.
        apply str_find_Some in E as (pre & post & Hs & _).
        apply (Hall m0); [by left | eauto].
      * intros m d H. inversion H; subst m d.
        apply str_find_Some in E as (pre & post & Hs & Hl & Hmin).
        exists 0%nat, pre, post. split; [done|]. split; [intros; lia|].
        split; [done|]. split; [by rewrite Hl|].
        unfold occurs_at in Hs. rewrite Hs, !length_app. lia.
    + apply str_find_None in E. split.
      * rewrite IH1. split.
        -- intros Hall m Hm. apply elem_of_cons in Hm as [->|Hm]; [done | by apply Hall].
        -- intros Hall m Hm. apply Hall. by right.
      * intros m d H. destruct (IH2 m d H) as (k & pre & post & Hk & Hearlier & Hrest).
        exists (S k), pre, post. split; [done|]. split; [|done].
        intros j m' Hj Hm'. destruct j as [|j]; simpl in Hm'.
        -- by inv_some.
        -- apply (Hearlier j); [lia|done].
Qed.

(** ** [PolyAPeak] and [CAGEPeak] *)

(** What the trees hold after reading a BED file. *)
Lemma peak_insert_elem {A} key s e (v : A) m k x :
  x ∈ default [] (peak_insert key s e v m !! k) ↔
  x ∈ default [] (m !! k) ∨ (k = key ∧ x = (s, e, v)).
Proof.
  unfold peak_insert. destruct (decide (key = k)) as [->|Hne].
  - rewrite lookup_insert_eq. simpl. rewrite tree_insert_Permutation, elem_of_cons.
    split; [intros [->|?]; [by right | by left] | intros [?|[_ ->]]; [by right | by left]].
  - rewrite lookup_insert_ne by done. split; [tauto|]. intros [?|[? _]]; [done|congruence].
Qed.

Lemma read_bed_elem {A} (f : bed_line → A) lines m k x :
  x ∈ default [] (foldl (λ m l, peak_insert (b_chrom l, b_strand l) (b_start0 l) (b_end1 l)
                                  (f l) m) m lines !! k) ↔
  x ∈ default [] (m !! k) ∨
  ∃ l, l ∈ lines ∧ k = (b_chrom l, b_strand l) ∧ x = (b_start0 l, b_end1 l, f l).
Proof.
  revert m. induction lines as [|l lines IH]; intros m; simpl.
  - split; [tauto|]. intros [?|(l & Hl & _)]; [done|by apply elem_of_nil in Hl].
  - rewrite IH, peak_insert_elem. split.
    + intros [[?|[-> ->]]|(l' & Hl' & ?)]; [by left| |].
      * right. exists l. split; [by left|done].
      * right. exists l'. split; [by right|done].
    + intros [?|(l' & Hl' & Hk & Hx)]; [by do 2 left|].
      apply elem_of_cons in Hl' as [->|Hl']; [left; right; done | right; eauto].
Qed.

Lemma polya_hits lines chrom strand query w h :
  h ∈ tree_find (default [] (polya_read_bed lines !! (chrom, strand))) (query - w) (query + w)
  ↔ ∃ l, l ∈ lines ∧ in_window chrom strand query w l ∧ h = (b_start0 l, b_end1 l).
Proof.
  unfold tree_find, polya_read_bed, in_window. rewrite list_elem_of_fmap. split.
  - intros ([[s e] v] & -> & Hx). apply list_elem_of_filter in Hx as [[H1 H2] Hx].
    apply read_bed_elem in Hx as [Hx|(l & Hl & Hk & Hx)].
    { rewrite lookup_empty in Hx. by apply elem_of_nil in Hx. }
    injection Hk as -> ->. injection Hx as -> -> ->. simpl in *. exists l. done.
  - intros (l & Hl & (Hc & Hs & H1 & H2) & ->).
    exists (b_start0 l, b_end1 l, (b_start0 l, b_end1 l)). split; [done|].
    apply list_elem_of_filter. split; [done|].
    apply (read_bed_elem (λ l, (b_start0 l, b_end1 l))). right. exists l. by subst.
Qed.

Lemma nearest_start_fold (query : Z) (m0 : Z) (hits : list (Z * Z)) :
  (foldl (closer_start query) m0 hits = m0 ∨
   ∃ h, h ∈ hits ∧ foldl (closer_start query) m0 hits = query - h.1) ∧
  Z.abs (foldl (closer_start query) m0 hits) ≤ Z.abs m0 ∧
  ∀ h, h ∈ hits → Z.abs (foldl (closer_start query) m0 hits) ≤ Z.abs (query - h.1).
Proof.
  revert m0. induction hits as [|h hits IH]; intros m0; cbn [foldl].
  - split; [by left|]. split; [lia|]. intros h Hh. by apply elem_of_nil in Hh.
  - destruct (IH (closer_start query m0 h)) as (Hsrc & Hle & Hall).
    assert (Hc : (closer_start query m0 h = m0 ∨ closer_start query m0 h = query - h.1) ∧
                 Z.abs (closer_start query m0 h) ≤ Z.abs m0 ∧
                 Z.abs (closer_start query m0 h) ≤ Z.abs (query - h.1)).
    { unfold closer_start. cbv zeta. case_bool_decide; split_and!; auto; lia. }
    destruct Hc as (Hc1 & Hc2 & Hc3). split_and!.
    + destruct Hsrc as [Hsrc|(h' & Hh' & Hr)].
      * rewrite Hsrc. destruct Hc1 as [->| ->]; [by left|].
        right. exists h. split; [by left|done].
      * right. exists h'. split; [by right|done].
    + lia.
    + intros h' Hh'. apply elem_of_cons in Hh' as [->|Hh']; [lia|by apply Hall].
Qed.

(** X22: after reading a BED file, and for a strand "+" or "-",
    [PolyAPeak.find] answers (False, None) exactly when no peak of the
    queried chromosome and strand overlaps the window around the query;
    otherwise it answers True with the offset from the start of a peak in
    the window whose start is nearest to the query, negated on the minus
    strand. *)
Theorem polya_find_nearest_peak lines chrom strand query w :
  strand = "+"%string ∨ strand = "-"%string →
  (polya_find (polya_read_bed lines) chrom strand query w = Some (false, None) ↔
   ∀ l, l ∈ lines → ¬ in_window chrom strand query w l) ∧
  (polya_find (polya_read_bed lines) chrom strand query w = Some (false, None) ∨
   ∃ l, l ∈ lines ∧ in_window chrom strand query w l ∧
        (∀ l', l' ∈ lines → in_window chrom strand query w l' →
               Z.abs (query - b_start0 l) ≤ Z.abs (query - b_start0 l')) ∧
        polya_find (polya_read_bed lines) chrom strand query w =
          Some (true, Some (if bool_decide (strand = "-"%string)
                            then - (query - b_start0 l) else query - b_start0 l))).
Proof.
  intros Hs. unfold polya_find. rewrite bool_decide_true by done.
  pose proof (polya_hits lines chrom strand query w) as Hhits.
  destruct (tree_find _ _ _) as [|h0 rest].
  - split.
    + split; [|done]. intros _ l Hl Hw.
      assert (Hin : (b_start0 l, b_end1 l) ∈ @nil (Z * Z)) by (apply Hhits; eauto).
      by apply elem_of_nil in Hin.
    + by left.
  - split.
    + split; [done|]. intros Hno. exfalso.
      destruct (proj1 (Hhits h0) ltac:(by left)) as (l & Hl & Hw & _). by apply (Hno l).
    + right.
      destruct (nearest_start_fold query (query - h0.1) rest) as (Hsrc & Hle & Hall).
      set (r := foldl _ _ rest) in *.
      assert (Hh : ∃ h, h ∈ h0 :: rest ∧ r = query - h.1).
      { destruct Hsrc as [Hsrc|(h & Hh & Hsrc)]; rewrite Hsrc.
        - exists h0. split; [by left|done].
        - exists h. split; [by right|done]. }
      destruct Hh as (h & Hh & Hr).
      destruct (proj1 (Hhits h) Hh) as (l & Hl & Hw & ->). simpl in Hr.
      exists l. split; [done|]. split; [done|]. split.
      * intros l' Hl' Hw'. rewrite <- Hr.
        assert (Hin : (b_start0 l', b_end1 l') ∈ h0 :: rest) by (apply Hhits; eauto).
        apply elem_of_cons in Hin as [<-|Hin]; [exact Hle|]. by apply (Hall _ Hin).
      * by rewrite Hr.
Qed.

Lemma polya_find_nearest_peak_witness :
  polya_find (polya_read_bed bed_two) "chr1" "+" 5000 100 = Some (false, None).
Proof.
  apply (polya_find_nearest_peak bed_two "chr1" "+" 5000 100); [by left|].
  intros l Hl (_ & _ & H1 & H2).
  apply elem_of_cons in Hl as [->|Hl]; [simpl in *; lia|].
  apply list_elem_of_singleton in Hl as ->. simpl in *. lia.
Defined.

(** ** [CAGEPeak.find] *)

Lemma cage_hits lines chrom strand query w h :
  h ∈ tree_find (default [] (cage_read_bed lines !! (chrom, strand))) (query - w) (query + w)
  ↔ ∃ l, l ∈ lines ∧ in_window chrom strand query w l ∧
         h = (b_tss0 l, b_start0 l, b_end1 l).
Proof.
  unfold tree_find, cage_read_bed, in_window. rewrite list_elem_of_fmap. split.
  - intros ([[s e] v] & -> & Hx). apply list_elem_of_filter in Hx as [[H1 H2] Hx].
    apply read_bed_elem in Hx as [Hx|(l & Hl & Hk & Hx)].
    { rewrite lookup_empty in Hx. by apply elem_of_nil in Hx. }
    injection Hk as -> ->. injection Hx as -> -> ->. simpl in *. exists l. done.
  - intros (l & Hl & (Hc & Hs & H1 & H2) & ->).
    exists (b_start0 l, b_end1 l, (b_tss0 l, b_start0 l, b_end1 l)). split; [done|].
    apply list_elem_of_filter. split; [done|].
    apply (read_bed_elem (λ l, (b_tss0 l, b_start0 l, b_end1 l))). right. exists l. by subst.
Qed.

Lemma cage_step_inv strand query seen acc hit :
  cage_inv strand query seen acc →
  ∃ acc', cage_step strand query acc hit = Some acc' ∧
          cage_inv strand query (seen ++ [hit]) acc'.
Proof.
  intros Hinv. destruct hit as [[tss0 start0] end1]. unfold cage_step.
  assert (Hkeep : ¬ taken strand query (tss0, start0, end1) →
                  cage_inv strand query (seen ++ [(tss0, start0, end1)]) acc).
  { intros Hnt. destruct Hinv as [[-> Hno]|(h & Hh & Ht & ->)].
    - left. split; [done|]. intros h Hh. apply elem_of_app in Hh as [Hh|Hh]; [by apply Hno|].
      by apply list_elem_of_singleton in Hh as ->.
    - right. exists h. split; [apply elem_of_app; by left|done]. }
  assert (Hnew : taken strand query (tss0, start0, end1) →
                 cage_inv strand query (seen ++ [(tss0, start0, end1)])
                   (bool_decide (start0 ≤ query ∧ query < end1),
                    Int ((query - tss0) *
                         (if bool_decide (strand = "-"%string) then -1 else 1)))).
  { intros Ht. right. exists (tss0, start0, end1).
    split; [apply elem_of_app; right; by left|done]. }
  destruct (bool_decide (strand = "+"%string ∧ start0 > query ∧ end1 > query)) eqn:E1.
  { apply bool_decide_eq_true in E1.
    eexists. split; [done|]. apply Hkeep. intros [Ht _]. by apply Ht. }
  destruct (bool_decide (strand = "-"%string ∧ start0 < query ∧ end1 < query)) eqn:E2.
  { apply bool_decide_eq_true in E2.
    eexists. split; [done|]. apply Hkeep. intros [_ Ht]. by apply Ht. }
  apply bool_decide_eq_false in E1, E2.
  assert (Ht : taken strand query (tss0, start0, end1)) by done.
  specialize (Hnew Ht). clear Hkeep.
  destruct Hinv as [[-> Hno]|(h & Hh & Hth & ->)]; cbn [fst snd negb].
  - eexists. split; [done|]. exact Hnew.
  - destruct (bool_decide (h.1.2 ≤ query ∧ query < h.2)) eqn:Ein; cbn [negb].
    + cbn [as_int mbind option_bind]. eexists. split; [done|].
      match goal with |- context [if ?b then _ else _] => destruct b end.
      * exact Hnew.
      * right. exists h. split; [apply elem_of_app; by left|]. by rewrite Ein.
    + eexists. split; [done|]. exact Hnew.
Qed.

Lemma cage_loop_inv strand query seen acc hits :
  cage_inv strand query seen acc →
  ∃ acc', foldl (λ acc hit, a ← acc; cage_step strand query a hit) (Some acc) hits
            = Some acc' ∧ cage_inv strand query (seen ++ hits) acc'.
Proof.
  revert seen acc. induction hits as [|hit hits IH]; intros seen acc Hinv; simpl.
  - exists acc. by rewrite app_nil_r.
  - destruct (cage_step_inv strand query seen acc hit Hinv) as (acc1 & -> & Hinv1).
    destruct (IH _ _ Hinv1) as (acc' & Hacc & Hinv'). exists acc'.
    split; [done|]. by rewrite <- app_assoc in Hinv'.
Qed.

(** X23: after reading a BED file, [CAGEPeak.find] never raises.  It
    answers (False, "NA") exactly when the window holds no peak of the
    chromosome and strand that the loop takes (a plus-strand peak lying
    wholly after the query, or a minus-strand peak lying wholly before
    it, is skipped).  Otherwise the distance is the signed offset of the
    query from the TSS of one peak taken, and [within_peak] tells whether
    the query lies inside that same peak. *)
Theorem cage_find_reports_one_peak lines chrom strand query w :
  ∃ within dist,
    cage_find (cage_read_bed lines) chrom strand query w = Some (within, dist) ∧
    (dist = NA ↔ ∀ l, l ∈ lines → ¬ eligible chrom strand query w l) ∧
    (dist = NA → within = false) ∧
    (∀ d, dist = Int d →
       ∃ l, l ∈ lines ∧ eligible chrom strand query w l ∧
            d = (query - b_tss0 l) * (if bool_decide (strand = "-"%string) then -1 else 1) ∧
            within = bool_decide (b_start0 l ≤ query ∧ query < b_end1 l)).
Proof.
  unfold cage_find. pose proof (cage_hits lines chrom strand query w) as Hhits.
  set (hits := tree_find _ _ _) in *.
  destruct (cage_loop_inv strand query [] (false, NA) hits) as ([within dist] & Hf & Hinv).
  { left. split; [done|]. intros h Hh. by apply elem_of_nil in Hh. }
  simpl in Hinv. exists within, dist. split; [exact Hf|].
  destruct Hinv as [[Heq Hno]|(h & Hh & Ht & Heq)]; injection Heq as -> ->.
  - split; [|done]. split; [|done]. intros _ l Hl (Hw & He1 & He2).
    apply (Hno (b_tss0 l, b_start0 l, b_end1 l)); [apply Hhits; eauto|]. done.
  - apply Hhits in Hh as (l & Hl & Hw & ->). simpl in *. split; [|split; [done|]].
    + split; [done|]. intros Hno. exfalso. apply (Hno l Hl). split; [done|]. exact Ht.
    + intros d Hd. injection Hd as <-. exists l. split; [done|]. split; [|done].
      split; [done|]. exact Ht.
Qed.

(** ** Junctions of a constructed record *)

Lemma junctions_upto_lookup ss es idxs js k i :
  junctions_upto ss es idxs = Some js → idxs !! k = Some i →
  ∃ d a, es !! i = Some d ∧ ss !! S i = Some a ∧ js !! k = Some (d, a).
Proof.
  revert js k. induction idxs as [|i0 idxs IH]; intros js k H Hk; [done|].
  simpl in H. destruct (junction_at ss es i0) as [j|] eqn:Ej; simpl in H; [|done].
  destruct (junctions_upto ss es idxs) as [js'|] eqn:E; simpl in H; [|done].
  injection H as <-. destruct k as [|k]; simpl in Hk.
  - injection Hk as ->. unfold junction_at in Ej.
    destruct (es !! i) as [d|]; simpl in Ej; [|done].
    destruct (ss !! S i) as [a|]; simpl in Ej; [|done].
    injection Ej as <-. by exists d, a.
  - by apply (IH js' k).
Qed.

Lemma StronglySorted_of_lookup {A} (R : relation A) (l : list A) :
  (∀ i j u v, (i < j)%nat → l !! i = Some u → l !! j = Some v → R u v) →
  StronglySorted R l.
Proof.
  induction l as [|x l IH]; intros H; constructor.
  - apply IH. intros i j u v Hij Hu Hv. apply (H (S i) (S j)); [lia|done|done].
  - apply Forall_forall. intros y Hy. apply list_elem_of_lookup in Hy as [j Hj].
    apply (H 0%nat (S j)); [lia|done|done].
Qed.

Lemma exons_in_order_chain starts ends i j s e :
  exons_in_order starts ends → length starts = length ends →
  (i ≤ j)%nat → starts !! i = Some s → ends !! j = Some e → s < e.
Proof.
  intros [H1 H2] Hlen Hij Hs. revert e. induction Hij as [|j Hij IH]; intros e He.
  - by apply (H1 i).
  - assert (Hj : is_Some (ends !! j)).
    { apply lookup_lt_is_Some. apply lookup_lt_Some in He. lia. }
    destruct Hj as [e' He'].
    assert (Hsj : is_Some (starts !! S j)).
    { apply lookup_lt_is_Some. apply lookup_lt_Some in He. lia. }
    destruct Hsj as [s' Hs'].
    pose proof (IH e' He'). pose proof (H2 j e' s' He' Hs'). pose proof (H1 (S j) s' e Hs' He).
    lia.
Qed.

(** X24: the i-th junction of a constructed record is the pair (end of
    exon i, start of exon i+1).  When the line lists its exons in
    ascending order without overlap, every junction has its donor before
    its acceptor and ends before the next junction begins; so the
    junction list is ascending and holds no junction twice. *)
Theorem constructed_junctions_in_order l r :
  genePredRecord_init l = Some r →
  (∀ i j, GP.junctions r !! i = Some j →
     GP.exonEnds r !! i = Some j.1 ∧ GP.exonStarts r !! S i = Some j.2) ∧
  (exons_in_order (l_exonStarts l) (l_exonEnds l) →
   length (l_exonStarts l) = length (l_exonEnds l) →
   Forall (λ j, j.1 < j.2) (GP.junctions r) ∧
   StronglySorted (λ p q, p.2 < q.1) (GP.junctions r) ∧
   NoDup (GP.junctions r)).
Proof.
  intros H. unfold genePredRecord_init in H.
  destruct (junctions_upto _ _ _) as [js|] eqn:E; simpl in H; [|done].
  injection H as <-. simpl.
  assert (Hjs : ∀ i j, js !! i = Some j →
            l_exonEnds l !! i = Some j.1 ∧ l_exonStarts l !! S i = Some j.2).
  { intros i j Hj. pose proof (junctions_upto_length _ _ _ _ E) as Hlen.
    rewrite length_seq in Hlen.
    assert (Hi : seq 0 (Z.to_nat (l_exonCount l - 1)) !! i = Some i).
    { apply lookup_seq. split; [done|]. apply lookup_lt_Some in Hj. lia. }
    destruct (junctions_upto_lookup _ _ _ _ _ _ E Hi) as (d & a & Hd & Ha & Hj').
    rewrite Hj in Hj'. injection Hj' as ->. done. }
  split; [exact Hjs|]. intros Hord Hlen.
  assert (Hsorted : StronglySorted (λ p q : Z * Z, p.2 < q.1) js).
  { apply StronglySorted_of_lookup. intros i j u v Hij Hu Hv.
    destruct (Hjs i u Hu) as [_ Hua]. destruct (Hjs j v Hv) as [Hvd _].
    apply (exons_in_order_chain _ _ (S i) j _ _ Hord Hlen); [lia|done|done]. }
  assert (Hlt : Forall (λ j : Z * Z, j.1 < j.2) js).
  { apply Forall_forall. intros j Hj. apply list_elem_of_lookup in Hj as [i Hi].
    destruct (Hjs i j Hi) as [Hd Ha]. destruct Hord as [_ H2]. by apply (H2 i). }
  split; [done|]. split; [done|].
  clear -Hsorted Hlt. induction Hsorted as [|x js Hs IH Hall]; [constructor|].
  apply Forall_cons in Hlt as [Hx Hlt]. constructor; [|by apply IH].
  intros Hin. rewrite Forall_forall in Hall. specialize (Hall x Hin). simpl in Hall. lia.
Qed.

Lemma constructed_junctions_in_order_witness :
  Forall (λ j : Z * Z, j.1 < j.2) (GP.junctions rec_G) ∧
  StronglySorted (λ p q : Z * Z, p.2 < q.1) (GP.junctions rec_G) ∧
  NoDup (GP.junctions rec_G).
Proof.
  apply (constructed_junctions_in_order line_G rec_G).
  - reflexivity.
  - split.
    + intros [|[|i]] s e Hs He; simpl in *; try done; inv_some; lia.
    + intros [|[|i]] e s He Hs; simpl in *; try done; inv_some; lia.
  - reflexivity.
Defined.

(** ** The categories that leave [classify] *)

Lemma get_gene_diff_class m trec h h' :
  get_gene_diff_tss_tts m trec h = Some h' → QT.str_class h' = QT.str_class h.
Proof.
  unfold get_gene_diff_tss_tts. intros H.
  match type of H with (?x ≫= _) = _ => destruct x as [ne|]; simpl in H; [|done] end.
  case_bool_decide; by inv_some.
Qed.

Lemma select_best_class trec fb best sel :
  select_best trec fb best = Some sel →
  match sel with
  | inl h => h = fb
  | inr h => ∃ gh, gh ∈ best ∧ QT.str_class h = QT.str_class gh.2
  end.
Proof.
  unfold select_best. intros H.
  destruct (gene_hit_tuples best) as [tuples|] eqn:Et; simpl in H; [|done].
  unfold gene_hit_tuples in Et. apply mapM_Some_1 in Et.
  destruct (filter (λ x, 0 < score x) tuples) as [|c cs] eqn:Ef.
  { by inv_some. }
  destruct (keyed_candidates trec tuples) as [keyed|] eqn:Ek; simpl in H; [|done].
  unfold keyed_candidates in Ek. rewrite Ef in Ek. apply mapM_Some_1 in Ek.
  pose proof (sort_desc_Permutation keyed) as Hperm.
  destruct (sort_desc keyed) as [|top rest] eqn:Es; simpl in H; [done|].
  destruct (absorb_genes _ _ _ _) as [h|] eqn:Ea; simpl in H; [|done]. inv_some.
  apply absorb_genes_frame in Ea as (extra & -> & _). simpl.
  assert (Htop : top ∈ keyed) by (rewrite <- Hperm; by left).
  apply list_elem_of_lookup in Htop as [i Hi].
  destruct (Forall2_lookup_r _ _ _ _ _ Ek Hi) as (x & Hx & Hkey).
  destruct (sort_key trec x) as [k|]; simpl in Hkey; [|done]. inv_some. simpl.
  assert (Hxin : x ∈ tuples).
  { apply list_elem_of_lookup_2 in Hx. rewrite <- Ef in Hx.
    by apply list_elem_of_filter in Hx as [_ Hx]. }
  apply list_elem_of_lookup in Hxin as [j Hj].
  destruct (Forall2_lookup_r _ _ _ _ _ Et Hj) as (gh & Hgh & Hmk).
  destruct (cat_ranking (QT.str_class gh.2)); simpl in Hmk; [|done]. inv_some. simpl.
  exists gh. split; [by eapply list_elem_of_lookup_2 | done].
Qed.

Lemma spliced_match_class cj sg refs_1exon refs_exons start_ends trec polyA h :
  spliced_match cj sg refs_1exon refs_exons start_ends trec polyA = Some h →
  is_Some (cat_ranking (QT.str_class h)).
Proof.
  unfold spliced_match. destruct (group_hits _) as [|g0 gs] eqn:Eg.
  { intros H. inv_some. by eexists. }
  rewrite <- Eg. clear Eg. intros H.
  destruct (best_hits cj trec polyA _) as [best|] eqn:Eb; simpl in H; [|done].
  pose proof (best_hits_rank _ _ _ _ _ Eb) as Hranks.
  assert (Hbest : ∀ gh, gh ∈ best → is_Some (cat_ranking (QT.str_class gh.2))).
  { intros gh Hgh. destruct (Forall2_elem_of_r _ _ _ _ Hranks Hgh) as (gr & _ & _ & n & Hn & _).
    by eexists. }
  destruct (select_best trec _ best) as [sel|] eqn:Es; simpl in H; [|done].
  apply select_best_class in Es. destruct sel as [h0|h0].
  - inv_some. destruct (last best) as [gh|] eqn:El; simpl; [|by eexists].
    apply Hbest. rewrite last_lookup in El. by eapply list_elem_of_lookup_2.
  - destruct Es as (gh & Hgh & Hc). unfold finish_hit in H.
    destruct (get_gene_diff_tss_tts start_ends trec h0) as [h1|] eqn:Eg; simpl in H; [|done].
    inv_some. simpl. rewrite (get_gene_diff_class _ _ _ _ Eg), Hc. by apply Hbest.
Qed.

Lemma unspliced_exons_loop_class start_ends trec h refs s :
  unspliced_exons_loop start_ends trec h refs = Some s →
  match s with
  | inl r => QT.str_class r = incomplete_splice_match ∨ QT.str_class r = novel_in_catalog
  | inr h' => QT.str_class h' = QT.str_class h
  end.
Proof.
  revert h. induction refs as [|ref refs IH]; intros h H; simpl in H.
  - by inv_some.
  - destruct (unspliced_exons_step start_ends trec h ref) as [s1|] eqn:E1;
      simpl in H; [|done].
    assert (Hs1 : match s1 with
                  | inl r => QT.str_class r = incomplete_splice_match ∨
                             QT.str_class r = novel_in_catalog
                  | inr h' => QT.str_class h' = QT.str_class h
                  end).
    { unfold unspliced_exons_step in E1.
      repeat (case_bool_decide; [by inv_some|]).
      case_bool_decide.
      - match type of E1 with (?x ≫= _) = _ => destruct x as [r|] eqn:Eg end;
          simpl in E1; [|done].
        inv_some. apply get_gene_diff_class in Eg. rewrite Eg. by left.
      - case_bool_decide; [|by inv_some].
        match type of E1 with (?x ≫= _) = _ => destruct x as [r|] eqn:Eg end;
          simpl in E1; [|done].
        inv_some. apply get_gene_diff_class in Eg. rewrite Eg. by right. }
    destruct s1 as [r|h1]; [by inv_some|].
    apply IH in H. destruct s; [done|]. by rewrite H.
Qed.

Lemma unspliced_match_class sg refs_1exon refs_exons start_ends trec polyA h :
  unspliced_match sg refs_1exon refs_exons start_ends trec polyA = Some h →
  QT.str_class h ∈ [no_class; full_splice_match; incomplete_splice_match; novel_in_catalog].
Proof.
  unfold unspliced_match. intros H.
  destruct (unspliced_1exon_loop_inv trec polyA [] (fresh_hit trec polyA)
              (find_refs refs_1exon trec)) as (h1 & Hh1 & Hinv).
  { left. split; [done|]. split; [done|]. intros r Hr. by apply elem_of_nil in Hr. }
  rewrite Hh1 in H. simpl in H.
  assert (Hc1 : QT.str_class h1 = no_class ∨ QT.str_class h1 = full_splice_match).
  { destruct Hinv as [(? & _)|(? & _)]; auto. }
  match type of H with (?x ≫= _) = _ => destruct x as [s|] eqn:Es end; simpl in H; [|done].
  assert (Hs : match s with
               | inl r => QT.str_class r = incomplete_splice_match ∨
                          QT.str_class r = novel_in_catalog
               | inr h' => QT.str_class h' = QT.str_class h1
               end).
  { case_bool_decide; [by eapply unspliced_exons_loop_class | by inv_some]. }
  destruct s as [r|h2].
  - inv_some. destruct Hs as [-> | ->]; set_solver.
  - unfold finish_hit in H.
    destruct (get_gene_diff_tss_tts start_ends trec h2) as [h3|] eqn:Eg; simpl in H; [|done].
    inv_some. simpl. rewrite (get_gene_diff_class _ _ _ _ Eg), Hs.
    destruct Hc1 as [-> | ->]; set_solver.
Qed.

Lemma associationOverlapping_class h trec jbc :
  QT.str_class (associationOverlapping h trec jbc) ∈
    [intergenic; genic_intron; antisense; genic].
Proof.
  unfold associationOverlapping.
  destruct (bool_decide (QT.genes _ = [])); [|simpl; set_solver].
  destruct (bool_decide (QT.AS_genes _ = ∅)); [|simpl; set_solver].
  destruct (jbc !! GP.chrom trec); [|simpl; set_solver].
  destruct (intron_scan _ _); simpl; set_solver.
Qed.

(** X25: whatever the reference index and the query, a classification
    that [classify] returns carries one of nine categories:
    full_splice_match, incomplete_splice_match, novel_in_catalog,
    novel_not_in_catalog, fusion, genic, genic_intron, intergenic or
    antisense.  The categories used for ranking (the empty one,
    geneOverlap, anyKnownSpliceSite, anyKnownJunction) and moreJunctions
    never leave it. *)
Theorem classify_final_category cj sg dA idx trec h :
  classify cj sg dA idx trec = Some h → final_category (QT.str_class h).
Proof.
  unfold classify, final_category. intros H.
  destruct (transcriptsKnownSpliceSites _ _ _ _ _ _ _) as [hit|] eqn:Et; simpl in H; [|done].
  assert (Hhit : QT.str_class hit ∈
            [no_class; geneOverlap; anyKnownSpliceSite; anyKnownJunction;
             incomplete_splice_match; full_splice_match; novel_in_catalog]).
  { unfold transcriptsKnownSpliceSites in Et.
    match type of Et with (?x ≫= _) = _ => destruct x; simpl in Et; [|done] end.
    destruct (dA trec _) as [polyA|]; simpl in Et; [|done].
    destruct (bool_decide (2 ≤ GP.exonCount trec)).
    - apply spliced_match_class in Et as [n Hn].
      destruct (QT.str_class hit); simpl in Hn; try done; set_solver.
    - apply unspliced_match_class in Et. set_solver. }
  case_bool_decide as H1.
  { apply novel_refinement_outcome in H as ([->|[->| ->]] & _); set_solver. }
  case_bool_decide as H2.
  { inv_some. pose proof (associationOverlapping_class hit trec (junctions_by_chr idx)).
    set_solver. }
  inv_some. set_solver.
Qed.

Lemma classify_final_category_witness :
  final_category
    (QT.str_class
       (associationOverlapping (fresh_hit rec_far ("0.0", "CCCCCCCCCCCCCCCCCCCC")%string)
          rec_far (junctions_by_chr (index_records 200 false [rec_G])))).
Proof.
  apply (classify_final_category compare_junctions_spec sort_genes_by_inclusion
           no_A_downstream (index_records 200 false [rec_G]) rec_far).
  vm_compute. reflexivity.
Defined.

(** ** Single-exon queries against multi-exon references *)

Lemma unspliced_exons_step_passed start_ends trec h r :
  passed_over trec r →
  ∃ h', unspliced_exons_step start_ends trec h r = Some (inr h').
Proof.
  intros Hp. unfold unspliced_exons_step.
  destruct (bool_decide (calc_exon_overlap (GP.exons trec) (GP.exons r) = 0)) eqn:E0;
    [by eexists|]. apply bool_decide_eq_false in E0.
  destruct (bool_decide (GP.strand r ≠ GP.strand trec)) eqn:E1; [by eexists|].
  apply bool_decide_eq_false in E1.
  destruct Hp as [?|[?|[Hne Hns]]]; [done|done|].
  rewrite (bool_decide_false (Exists _ _)) by exact Hne.
  rewrite (bool_decide_false (_ ∧ _)) by exact Hns.
  by eexists.
Qed.

Lemma unspliced_exons_loop_passed start_ends trec h l1 rest :
  Forall (passed_over trec) l1 →
  ∃ h', unspliced_exons_loop start_ends trec h (l1 ++ rest) =
        unspliced_exons_loop start_ends trec h' rest.
Proof.
  intros Hall. revert h. induction Hall as [|r l1 Hr _ IH]; intros h; simpl.
  - by exists h.
  - destruct (unspliced_exons_step_passed start_ends trec h r Hr) as (h1 & ->). simpl.
    apply IH.
Qed.

(** X26: let a query with fewer than two exons overlap no same-strand
    single-exon reference, and let [r] be the first multi-exon reference,
    in the order in which the interval tree reports them, that the loop
    does not move past: it shares exonic bases with the query, lies on
    its strand, and holds the query within one of its exons or within its
    span.  If the query lies within one exon of [r], the result is an
    incomplete_splice_match of subtype mono-exon on gene and transcript of
    [r], with the end distances to [r].  Otherwise it is novel_in_catalog
    on the gene of [r] with transcript "novel" and no end distances, of
    subtype mono-exon_by_intron_retention when a junction of [r] lies
    strictly inside the query and mono-exon when none does. *)
Theorem single_exon_query_within_multi_exon_reference
    cj sg dA idx trec l1 r l2 :
  GP.exonCount trec < 2 →
  is_Some (last (GP.exonEnds trec)) → is_Some (head (GP.exonStarts trec)) →
  (∀ pos, is_Some (dA trec pos)) →
  (∀ r', r' ∈ find_refs (refs_1exon_by_chr idx) trec → GP.strand r' ≠ GP.strand trec) →
  find_refs (refs_exons_by_chr idx) trec = l1 ++ r :: l2 →
  Forall (passed_over trec) l1 →
  calc_exon_overlap (GP.exons trec) (GP.exons r) ≠ 0 →
  GP.strand r = GP.strand trec →
  within_exon trec r ∨ within_span trec r →
  is_Some (known_5_3_by_gene idx !! GP.gene r) →
  ∃ h, classify cj sg dA idx trec = Some h ∧
       QT.genes h = [GP.gene r] ∧
       QT.refLen h = Int (GP.length r) ∧ QT.refExons h = Int (GP.exonCount r) ∧
       (within_exon trec r →
          QT.str_class h = incomplete_splice_match ∧ QT.subtype h = "mono-exon"%string ∧
          QT.transcripts h = [GP.id r] ∧
          QT.tss_diff h = Int (get_diff_tss_tts trec r).1 ∧
          QT.tts_diff h = Int (get_diff_tss_tts trec r).2) ∧
       (¬ within_exon trec r →
          QT.str_class h = novel_in_catalog ∧
          QT.transcripts h = ["novel"%string] ∧
          QT.tss_diff h = NA ∧ QT.tts_diff h = NA ∧
          QT.subtype h =
            (if bool_decide (Exists (λ j, GP.txStart trec < j.1 ∧ j.1 < j.2
                                          ∧ j.2 < GP.txEnd trec) (GP.junctions r))
             then "mono-exon_by_intron_retention" else "mono-exon")%string).
Proof.
  intros Hmono [pe Hpe] [ps Hps] HdA H1 Hrefs Hl1 Hov Hstrand Hin Hgene.
  assert (Hpos : ∃ pos, (if bool_decide (GP.strand trec = "+"%string)
                         then last (GP.exonEnds trec) else head (GP.exonStarts trec))
                        = Some pos).
  { case_bool_decide; eauto. }
  destruct Hpos as [pos Hpos]. destruct (HdA pos) as [polyA HpolyA].
  destruct (unspliced_1exon_loop_inv trec polyA [] (fresh_hit trec polyA)
              (find_refs (refs_1exon_by_chr idx) trec)) as (h1 & Hh1 & Hinv).
  { left. split; [done|]. split; [done|]. intros r0 Hr0. by apply elem_of_nil in Hr0. }
  simpl in Hinv.
  assert (Hc1 : QT.str_class h1 = no_class).
  { destruct Hinv as [(? & _)|(_ & _ & r0 & Hr0 & Hs0 & _)]; [done|].
    by destruct (H1 r0 Hr0). }
  destruct (unspliced_exons_loop_passed (known_5_3_by_gene idx) trec h1 l1 (r :: l2) Hl1)
    as (h2 & Hloop).
  (* the step at [r] *)
  assert (Hstep : ∃ h, unspliced_exons_step (known_5_3_by_gene idx) trec h2 r = Some (inl h) ∧
            QT.genes h = [GP.gene r] ∧
            QT.refLen h = Int (GP.length r) ∧ QT.refExons h = Int (GP.exonCount r) ∧
            (within_exon trec r →
               QT.str_class h = incomplete_splice_match ∧ QT.subtype h = "mono-exon"%string ∧
               QT.transcripts h = [GP.id r] ∧
               QT.tss_diff h = Int (get_diff_tss_tts trec r).1 ∧
               QT.tts_diff h = Int (get_diff_tss_tts trec r).2) ∧
            (¬ within_exon trec r →
               QT.str_class h = novel_in_catalog ∧
               QT.transcripts h = ["novel"%string] ∧
               QT.tss_diff h = NA ∧ QT.tts_diff h = NA ∧
               QT.subtype h =
                 (if bool_decide (Exists (λ j, GP.txStart trec < j.1 ∧ j.1 < j.2
                                               ∧ j.2 < GP.txEnd trec) (GP.junctions r))
                  then "mono-exon_by_intron_retention" else "mono-exon")%string)).
  { unfold unspliced_exons_step.
    rewrite (bool_decide_false (calc_exon_overlap _ _ = 0)) by done.
    rewrite (bool_decide_false (GP.strand r ≠ GP.strand trec)) by (intros Hn; by apply Hn).
    destruct (decide (within_exon trec r)) as [Hw|Hw].
    - rewrite (bool_decide_true (Exists _ (GP.exons r))) by exact Hw.
      match goal with |- context [get_gene_diff_tss_tts ?m ?t ?x] =>
        destruct (get_gene_diff_is_Some m t x) as (a & b & ->) end.
      { simpl. constructor; [done|constructor]. }
      cbn [mbind option_bind]. eexists. split; [reflexivity|]. simpl.
      split_and!; try done.
    - rewrite (bool_decide_false (Exists _ (GP.exons r))) by exact Hw.
      destruct Hin as [?|Hsp]; [done|].
      rewrite (bool_decide_true (_ ∧ _)) by exact Hsp.
      match goal with |- context [get_gene_diff_tss_tts ?m ?t ?x] =>
        destruct (get_gene_diff_is_Some m t x) as (a & b & ->) end.
      { simpl. constructor; [done|constructor]. }
      cbn [mbind option_bind]. eexists. split; [reflexivity|]. simpl.
      split_and!; try done. }
  destruct Hstep as (h & Hstep & Hfields).
  assert (Ht : transcriptsKnownSpliceSites cj sg dA (refs_1exon_by_chr idx)
                 (refs_exons_by_chr idx) (known_5_3_by_gene idx) trec = Some h).
  { unfold transcriptsKnownSpliceSites. rewrite Hpos. cbn [mbind option_bind].
    rewrite HpolyA. cbn [mbind option_bind]. rewrite bool_decide_false by lia.
    unfold unspliced_match. rewrite Hh1. cbn [mbind option_bind].
    rewrite bool_decide_true by done. rewrite Hrefs, Hloop.
    cbn [unspliced_exons_loop]. rewrite Hstep. reflexivity. }
  exists h. split; [|exact Hfields].
  unfold classify. rewrite Ht. cbn [mbind option_bind].
  destruct Hfields as (_ & _ & _ & Hism & Hnic).
  assert (Hc : QT.str_class h = incomplete_splice_match ∨ QT.str_class h = novel_in_catalog).
  { destruct (decide (within_exon trec r)) as [Hw|Hw];
      [left; by apply Hism | right; by apply Hnic]. }
  rewrite bool_decide_false.
  2:{ intros Hx. apply list_elem_of_In in Hx. simpl in Hx.
      destruct Hc as [Hc|Hc]; rewrite Hc in Hx; destruct Hx as [?|[?|[]]]; discriminate. }
  rewrite bool_decide_false.
  2:{ intros Hx. apply list_elem_of_In in Hx. simpl in Hx.
      destruct Hc as [Hc|Hc]; rewrite Hc in Hx; destruct Hx as [?|[?|[]]]; discriminate. }
  reflexivity.
Qed.

Lemma single_exon_query_within_multi_exon_reference_witness :
  ∃ h, classify compare_junctions_spec sort_genes_by_inclusion no_A_downstream
         (index_records 200 false [rec_G]) rec_in_exon = Some h ∧
       QT.str_class h = incomplete_splice_match ∧ QT.subtype h = "mono-exon"%string.
Proof.
  destruct (single_exon_query_within_multi_exon_reference compare_junctions_spec
              sort_genes_by_inclusion no_A_downstream
              (index_records 200 false [rec_G]) rec_in_exon [] rec_G [])
    as (h & Hh & _ & _ & _ & Hism & _).
  - simpl. lia.
  - by eexists.
  - by eexists.
  - intros pos. by eexists.
  - intros r' Hr'. vm_compute in Hr'. by apply elem_of_nil in Hr'.
  - vm_compute. reflexivity.
  - constructor.
  - vm_compute. discriminate.
  - reflexivity.
  - left. unfold within_exon. simpl. right. left. simpl. lia.
  - vm_compute. by eexists.
  - assert (Hw : within_exon rec_in_exon rec_G).
    { unfold within_exon. simpl. right. left. simpl. lia. }
    destruct (Hism Hw) as (Hc & Hst & _). exists h.
    split; [exact Hh|]. split; [exact Hc | exact Hst].
Defined.
